(** * versuchung: identity hashing, connection registry, tables, merger
      and lifecycle

    A shallow embedding of [versuchung/experiment.py] and
    [versuchung/database.py].  Python dictionaries whose iteration order is
    observable are association lists in iteration order; for a dict that is
    filled key by key this is taken to be the order of insertion, and
    [DictOrder] gives the order in which CPython 2.7 iterates a small dict
    of strings.  The process-wide connection cache is a finite map;
    exceptions are values of [exn] carried in a sum type; the collaborators
    of the lifecycle are arbitrary functions on the state of the world. *)

From stdpp Require Import base option list gmap strings sorting pretty.
From Stdlib Require Import ZArith Ascii String.

Local Open Scope string_scope.
Local Open Scope list_scope.

(** ** Exceptions raised by the embedded code *)

Inductive exn :=
| KeyError (key : string)
| AssertionError
| NotImplementedError
| AttributeError
| ValueError
| IndexError
| TypeError
| ProgrammingError (msg : string)
| OperationalError (msg : string)
| IntegrityError (msg : string)
| SystemExit (code : Z).

(** A computation that either raises or returns. *)
Definition result (A : Type) : Type := exn + A.

Definition raise {A} (e : exn) : result A := inl e.

Global Instance result_ret : MRet result := λ A a, inr a.
Global Instance result_bind : MBind result := λ A B f m,
  match m with
  | inl e => inl e
  | inr a => f a
  end.

Definition succeeds {A} (m : result A) : Prop := ∃ a, m = inr a.

(** A computation on a mutable state [S] that either raises or returns;
    what it did to the state before raising stays done. *)
Definition io (S A : Type) : Type := S → result A * S.

Global Instance io_ret {S} : MRet (io S) := λ A a s, (inr a, s).
Global Instance io_bind {S} : MBind (io S) := λ A B f m s,
  match m s with
  | (inl e, s') => (inl e, s')
  | (inr a, s') => f a s'
  end.

Definition throw {S A} (e : exn) : io S A := λ s, (inl e, s).
Definition get_state {S} : io S S := λ s, (inr s, s).
Definition lift_result {S A} (r : result A) : io S A := λ s, (r, s).

(** [try: m except: handler] *)
Definition try_except {S A} (m : io S A) (handler : exn → io S A) : io S A :=
  λ s, match m s with
       | (inl e, s') => handler e s'
       | (inr a, s') => (inr a, s')
       end.

(** [for x in xs: body(x)] *)
Fixpoint for_each {S A} (xs : list A) (body : A → io S unit) : io S unit :=
  match xs with
  | [] => mret tt
  | x :: xs' => body x ;; for_each xs' body
  end.

(** ** Lexicographic order on byte strings (Python 2 [str] comparison) *)

Definition str_le (s1 s2 : string) : Prop := String.leb s1 s2 = true.

Global Instance str_le_dec s1 s2 : Decision (str_le s1 s2).
Proof. unfold str_le. apply _. Defined.

(** ** Python dictionaries with observable iteration order *)

Module PyDict.
Section dict.
Context {V : Type}.

(** The items of a dict, in iteration order; keys are unique. *)
Definition t : Type := list (string * V).

Definition wf (d : t) : Prop := NoDup d.*1.

Definition keys (d : t) : list string := d.*1.

(** [d[k]] *)
Fixpoint get (k : string) (d : t) : result V :=
  match d with
  | [] => raise (KeyError k)
  | (k', v) :: d' => if decide (k = k') then mret v else get k d'
  end.

(** [d[k] = v] *)
Fixpoint set (k : string) (v : V) (d : t) : t :=
  match d with
  | [] => [(k, v)]
  | (k', v') :: d' =>
      if decide (k = k') then (k, v) :: d' else (k', v') :: set k v d'
  end.

(** [d.update(other)] *)
Definition update (d other : t) : t :=
  foldl (λ acc kv, set kv.1 kv.2 acc) d other.
End dict.
Global Arguments t : clear implicits.
End PyDict.

(** ** Identity hasher: [Experiment.__setup_output_directory] *)

Module Identity.

(** [sorted(...)] on a list of [str]. *)
Definition sorted (l : list string) : list string := merge_sort str_le l.

(** A [hashlib.md5()] object is the message fed to it so far: repeated
    calls to [update] are equivalent to one call with the concatenation. *)
Definition md5_update (m : string) (data : string) : string := m +:+ data.

(** [for key in sorted(metadata.keys()): m.update(key + " " + metadata[key])] *)
Fixpoint feed (metadata : PyDict.t string) (ks : list string) (m : string)
  : result string :=
  match ks with
  | [] => mret m
  | key :: ks' =>
      v ← PyDict.get key metadata;
      feed metadata ks' (md5_update m (key +:+ " " +:+ v))
  end.

(** The message that is digested for a metadata dict. *)
Definition digest_input (version : Z) (metadata : PyDict.t string)
  : result string :=
  let m := md5_update "" ("version " +:+ pretty version) in
  feed metadata (sorted (PyDict.keys metadata)) m.

Section hasher.
(** [hashlib.md5(msg).hexdigest()] *)
Variable hexdigest : string → string.

(** ["%s-%s" % (self.title, m.hexdigest())] *)
Definition compute_identifier (title : string) (version : Z)
    (metadata : PyDict.t string) : result string :=
  m ← digest_input version metadata;
  mret (title +:+ "-" +:+ hexdigest m).
End hasher.

(** The characters of a string. *)
Definition chars (s : string) : list ascii := list_ascii_of_string s.

(** The string has no blank in it. *)
Definition space_free (s : string) : Prop := " "%char ∉ chars s.

(** What the loop feeds for the keys [ks] with the values [vs]:
    [key + " " + value], one after the other. *)
Fixpoint pairs_text (ks vs : list string) : string :=
  match ks, vs with
  | k :: ks', v :: vs' => (k +:+ " " +:+ v) +:+ pairs_text ks' vs'
  | _, _ => ""
  end.

(** [metadata = {}; for name in self.inputs:
      metadata.update(self.inputs[name].inp_metadata())], for the dicts the
    inputs contribute, in iteration order of [self.inputs] *)
Definition collect (contributions : list (PyDict.t string))
  : PyDict.t string :=
  foldl PyDict.update [] contributions.

(** [Experiment.inp_metadata]: an experiment used as input contributes its
    instance under its title. *)
Definition Experiment_inp_metadata (title experiment_instance : string)
  : PyDict.t string :=
  [(title, experiment_instance)].

End Identity.

(** ** Connection registry: [Database_SQLite.__connect] and [__disconnect] *)

Module Database_SQLite.

(** A [sqlite3.Connection] object.  [sqlite3.connect] returns a new object
    on every call; objects are told apart by their identity. *)
Definition handle := nat.

(** What the process did to connection objects, oldest first. *)
Inductive event :=
| Opened (path : string) (db : handle)
| Committed (db : handle)
| Closed (db : handle).

Global Instance event_eq_dec : EqDecision event.
Proof. solve_decision. Defined.

Definition event_handle (e : event) : handle :=
  match e with Opened _ db | Committed db | Closed db => db end.

Record process := Process {
  (** [Database_SQLite.database_connections]: path -> (db_handle, use_count) *)
  database_connections : gmap string (handle * Z);
  (** identity of the next object [sqlite3.connect] creates *)
  next_handle : handle;
  events : list event;
}.

Definition set_connections (f : gmap string (handle * Z) → gmap string (handle * Z))
    (p : process) : process :=
  Process (f (database_connections p)) (next_handle p) (events p).

Definition log_event (e : event) (p : process) : process :=
  Process (database_connections p) (next_handle p) (events p ++ [e]).

(** [sqlite3.connect(path)] *)
Definition sqlite3_connect (path : string) (p : process) : handle * process :=
  let conn := next_handle p in
  (conn, Process (database_connections p) (S conn)
           (events p ++ [Opened path conn])).

(** [Database_SQLite.__connect(path)] *)
Definition connect (path : string) (p : process) : handle * process :=
  match database_connections p !! path with
  | Some (db, count) =>
      (db, set_connections (<[path := (db, count + 1)%Z]>) p)
  | None =>
      let '(conn, p1) := sqlite3_connect path p in
      (conn, set_connections (<[path := (conn, 1%Z)]>) p1)
  end.

(** [Database_SQLite.__disconnect(path)] *)
Definition disconnect (path : string) (p : process) : result process :=
  match database_connections p !! path with
  | None => raise (KeyError path)
  | Some (db, count) =>
      let p1 := log_event (Committed db) p in
      if decide (count = 1%Z) then
        let p2 := log_event (Closed db) p1 in
        mret (set_connections (delete path) p2)
      else
        mret (set_connections (<[path := (db, count - 1)%Z]>) p1)
  end.

(** *** Interleavings of calls on one path *)

Inductive call := Connect | Disconnect.

(** Runs the calls in order; returns the handles the [connect] calls
    returned, in call order. *)
Fixpoint run (path : string) (calls : list call) (p : process)
  : result (list handle * process) :=
  match calls with
  | [] => mret ([], p)
  | Connect :: calls' =>
      let '(db, p1) := connect path p in
      r ← run path calls' p1;
      mret (db :: r.1, r.2)
  | Disconnect :: calls' =>
      p1 ← disconnect path p;
      run path calls' p1
  end.

(** Number of connects minus number of disconnects. *)
Fixpoint balance (calls : list call) : Z :=
  match calls with
  | [] => 0
  | Connect :: calls' => 1 + balance calls'
  | Disconnect :: calls' => -1 + balance calls'
  end%Z.

(** The interleaving never disconnects more than it has connected, when
    [b] connections are already held: every [disconnect] finds a positive
    balance. *)
Fixpoint never_overdisconnects_from (b : Z) (calls : list call) : bool :=
  match calls with
  | [] => true
  | Connect :: calls' => never_overdisconnects_from (b + 1) calls'
  | Disconnect :: calls' =>
      bool_decide (0 < b)%Z && never_overdisconnects_from (b - 1) calls'
  end.

Definition never_overdisconnects (calls : list call) : Prop :=
  never_overdisconnects_from 0 calls = true.

(** [connect] was called as often as [disconnect]. *)
Definition balanced (calls : list call) : Prop := balance calls = 0%Z.

(** How often the process closed the handle [db]. *)
Definition close_count (db : handle) (p : process) : nat :=
  List.length (filter (λ e, e = Closed db) (events p)).

(** Handles mentioned by the process are older than the next fresh one. *)
Definition wf (p : process) : Prop :=
  Forall (λ e, event_handle e < next_handle p) (events p) ∧
  ∀ path db count, database_connections p !! path = Some (db, count) →
    db < next_handle p.

(** All [connect] calls of the interleaving are handed one and the same
    handle. *)
Definition connects_share_handle (path : string) (calls : list call)
    (p : process) : Prop :=
  ∀ hs p', run path calls p = inr (hs, p') →
    ∀ h1 h2, h1 ∈ hs → h2 ∈ hs → h1 = h2.

(** The invariant that holds between the calls of an interleaving that
    holds [b] connections on [path] and has been handed [hs] so far. *)
Definition registry_inv (path : string) (b : Z) (hs : list handle)
    (p : process) : Prop :=
  wf p ∧ Forall (λ h, h < next_handle p) hs ∧
  match database_connections p !! path with
  | None => b = 0%Z ∧ ∀ h, h ∈ hs → close_count h p = 1
  | Some (db, count) =>
      count = b ∧ (0 < b)%Z ∧ last hs = Some db ∧ close_count db p = 0 ∧
      ∀ h, h ∈ hs → h ≠ db → close_count h p = 1
  end.

Definition fresh_process : process := Process ∅ 0 [].

(** *** Calls on any path *)

Inductive op := ConnectTo (path : string) | DisconnectFrom (path : string).

(** Runs the calls in order, on whatever paths they name. *)
Fixpoint run_ops (ops : list op) (p : process) : result process :=
  match ops with
  | [] => mret p
  | ConnectTo path :: ops' => run_ops ops' (connect path p).2
  | DisconnectFrom path :: ops' =>
      p1 ← disconnect path p;
      run_ops ops' p1
  end.

(** Every entry counts at least one user and holds a handle that is still
    open, and no two paths hold the same handle. *)
Definition registry_ok (p : process) : Prop :=
  wf p ∧
  (∀ path db count, database_connections p !! path = Some (db, count) →
     (1 ≤ count)%Z ∧ close_count db p = 0) ∧
  (∀ path1 path2 db count1 count2,
     database_connections p !! path1 = Some (db, count1) →
     database_connections p !! path2 = Some (db, count2) → path1 = path2).

End Database_SQLite.

(** ** The storage engine, as far as the code drives it

    A model of the [sqlite3] statements that [database.py] issues.  Values
    are text or NULL, and identifiers are compared exactly.  A column
    declared [text] keeps such a value as it is given; what a column of
    another declared type makes of it (numeric affinity, an integer primary
    key standing for the row id) is not modelled, and the properties that
    read stored values back are stated for tables that satisfy
    [text_columns].  A name without schema prefix is looked up in the main
    database first and then in the attached databases in the order of
    attachment; this also holds for [DROP TABLE].  A failing statement
    leaves the store as it was. *)

Module Sqlite.

Inductive value := Null | Text (s : string).

Global Instance value_eq_dec : EqDecision value.
Proof. solve_decision. Defined.

Global Instance Text_inj : Inj (=) (=) Text.
Proof. by intros s1 s2 [= ->]. Qed.

Global Instance value_countable : Countable value.
Proof.
  refine (inj_countable'
            (λ v, match v with Null => None | Text s => Some s end)
            (λ o, match o with None => Null | Some s => Text s end) _).
  by intros [].
Defined.

Definition row := list value.

Record column := Column {
  col_name : string;
  col_type : string;
  col_primary : bool;
}.

Global Instance column_eq_dec : EqDecision column.
Proof. solve_decision. Defined.

Record table := Table {
  tbl_name : string;
  (** the text of the creation statement, as [sqlite_master] keeps it *)
  tbl_sql : string;
  tbl_columns : list column;
  (** in rowid order *)
  tbl_rows : list row;
}.

Global Instance table_eq_dec : EqDecision table.
Proof. solve_decision. Defined.

(** Every column of the table is declared [text]. *)
Definition text_columns (t : table) : Prop :=
  Forall (λ col, col_type col = "text") (tbl_columns t).

Global Instance text_columns_dec t : Decision (text_columns t).
Proof. unfold text_columns. apply _. Defined.

(** The tables of one database file, in [sqlite_master] order. *)
Definition database := list table.

Record connection := Connection {
  main : database;
  (** alias and content, in [ATTACH] order *)
  attached : list (string * database);
}.

Definition find_table (name : string) (db : database) : option table :=
  snd <$> list_find (λ t, tbl_name t = name) db.

Definition alter_table (name : string) (f : table → table) (db : database)
  : database :=
  (λ t, if decide (tbl_name t = name) then f t else t) <$> db.

Definition remove_table (name : string) (db : database) : database :=
  filter (λ t, tbl_name t ≠ name) db.

Inductive schema := Main | Attached (alias : string).

Definition schema_db (sc : schema) (c : connection) : option database :=
  match sc with
  | Main => Some (main c)
  | Attached alias =>
      (λ r, r.2.2) <$> list_find (λ ad, ad.1 = alias) (attached c)
  end.

Definition set_schema_db (sc : schema) (db : database) (c : connection)
  : connection :=
  match sc with
  | Main => Connection db (attached c)
  | Attached alias =>
      Connection (main c)
        ((λ ad, if decide (ad.1 = alias) then (alias, db) else ad)
           <$> attached c)
  end.

(** The schema an unqualified table name refers to. *)
Definition resolve (name : string) (c : connection) : option schema :=
  if find_table name (main c) is Some _ then Some Main
  else (λ r, Attached r.2.1)
         <$> list_find (λ ad, is_Some (find_table name ad.2)) (attached c).

Definition no_such_table {A} (name : string) : io connection A :=
  throw (OperationalError ("no such table: " +:+ name)).

(** The file name holds a quote. *)
Definition has_quote (file : string) : Prop :=
  "'"%char ∈ list_ascii_of_string file.

Global Instance has_quote_dec file : Decision (has_quote file).
Proof. unfold has_quote. apply _. Defined.

(** The number of databases a connection can have attached at a time
    (SQLITE_MAX_ATTACHED as the library is built). *)
Definition max_attached : nat := 10.

(** [ATTACH DATABASE '<file>' AS <alias>], for a file holding [db].  The
    caller pastes the file name between quotes: a quote in the name ends the
    literal early and the rest of the name fails to parse.  A database
    beyond [max_attached] is refused, and so is an alias that is in use. *)
Definition attach (file alias : string) (db : database) : io connection unit :=
  λ c,
    if decide (has_quote file) then
      throw (OperationalError "syntax error") c
    else if decide (max_attached ≤ List.length (attached c))%nat then
      throw (OperationalError "too many attached databases - max 10") c
    else if decide (alias ∈ (attached c).*1) then
      throw (OperationalError
               ("database " +:+ alias +:+ " is already in use")) c
    else (inr tt, Connection (main c) (attached c ++ [(alias, db)])).

(** [CREATE TABLE <name> (...)] with statement text [sql] declaring
    [columns]; the table is created in the main database. *)
Definition create_table (sql name : string) (columns : list column)
  : io connection unit :=
  λ c,
    if find_table name (main c) is Some _ then
      throw (OperationalError ("table " +:+ name +:+ " already exists")) c
    else if decide (columns = []) then
      throw (OperationalError "syntax error") c
    else if decide (NoDup (col_name <$> columns)) then
      (inr tt, Connection (main c ++ [Table name sql columns []]) (attached c))
    else throw (OperationalError "duplicate column name") c.

(** [CREATE TABLE IF NOT EXISTS <name> (...)] *)
Definition create_table_if_not_exists (sql name : string)
    (columns : list column) : io connection unit :=
  λ c,
    if find_table name (main c) is Some _ then (inr tt, c)
    else create_table sql name columns c.

(** The process may write the file behind the schema: the main database
    always, an attached one unless its alias is among [read_only]. *)
Definition writable (read_only : list string) (sc : schema) : Prop :=
  match sc with
  | Main => True
  | Attached alias => alias ∉ read_only
  end.

Global Instance writable_dec read_only sc : Decision (writable read_only sc).
Proof. destruct sc; apply _. Defined.

(** [DROP TABLE <name>], where the attached databases with an alias in
    [read_only] are files the process may not write (what
    [Database_SQLite.after_experiment_run] makes of an output database,
    unless the process runs as root). *)
Definition drop_table_in (read_only : list string) (name : string)
  : io connection unit :=
  λ c,
    match resolve name c with
    | None => no_such_table name c
    | Some sc =>
        match schema_db sc c with
        | None => no_such_table name c
        | Some db =>
            if decide (writable read_only sc) then
              (inr tt, set_schema_db sc (remove_table name db) c)
            else
              throw (OperationalError "attempt to write a readonly database")
                c
        end
    end.

(** [DROP TABLE <name>] where every file may be written *)
Definition drop_table (name : string) : io connection unit :=
  drop_table_in [] name.

(** The table an unqualified name refers to, with its schema. *)
Definition lookup_table (name : string) (c : connection)
  : option (schema * database * table) :=
  sc ← resolve name c;
  db ← schema_db sc c;
  t ← find_table name db;
  Some (sc, db, t).

(** The value bound to column [cname] by [INSERT INTO t(<columns>)
    values(?, ...)] with parameters [args]; NULL if it is not listed. *)
Definition bound_value (columns : list string) (args : list value)
    (cname : string) : value :=
  match list_find (λ ca, ca.1 = cname) (zip columns args) with
  | Some (_, (_, v)) => v
  | None => Null
  end.

(** A row violates the primary key if it repeats the non-NULL value another
    row has in a primary-key column. *)
Definition primary_clash (cols : list column) (old new : row) : bool :=
  existsb
    (λ cv : column * (value * value),
       col_primary cv.1 && bool_decide (cv.2.2 ≠ Null)
       && bool_decide (cv.2.1 = cv.2.2))
    (zip cols (zip old new)).

Definition violates_primary (cols : list column) (rows : list row)
    (new : row) : bool :=
  existsb (λ old, primary_clash cols old new) rows.

(** The row [new] repeats, in the primary-key column [col] at position
    [j], the value of a row of the table. *)
Definition repeats_key (rows : list row) (j : nat) (col : column)
    (v : value) : bool :=
  col_primary col && bool_decide (v ≠ Null)
  && existsb (λ old : row, bool_decide (old !! j = Some v)) rows.

(** The first such column, as the error message names it. *)
Definition clashing_column (cols : list column) (rows : list row)
    (new : row) : string :=
  match list_find
          (λ jcv : nat * (column * value),
             repeats_key rows jcv.1 jcv.2.1 jcv.2.2 = true)
          (imap (λ j cv, (j, cv)) (zip cols new)) with
  | Some (_, (_, (col, _))) => col_name col
  | None => ""
  end.

(** [INSERT INTO <name>(<columns>) values(?, ..., ?)] with parameters
    [args] *)
Definition insert (name : string) (columns : list string) (args : list value)
  : io connection unit :=
  λ c,
    match lookup_table name c with
    | None => no_such_table name c
    | Some (sc, db, t) =>
        if decide (List.length columns ≠ List.length args) then
          throw (ProgrammingError "Incorrect number of bindings") c
        else if decide (columns ⊆ col_name <$> tbl_columns t) then
          let new := bound_value columns args ∘ col_name <$> tbl_columns t in
          if violates_primary (tbl_columns t) (tbl_rows t) new then
            throw (IntegrityError
                     ("UNIQUE constraint failed: " +:+ tbl_name t +:+ "."
                      +:+ clashing_column (tbl_columns t) (tbl_rows t) new))
              c
          else
            let t' := Table (tbl_name t) (tbl_sql t) (tbl_columns t)
                        (tbl_rows t ++ [new]) in
            (inr tt, set_schema_db sc (alter_table name (λ _, t') db) c)
        else throw (OperationalError "table has no such column") c
    end.

(** [cursor.executemany(INSERT ..., rows)] *)
Definition insert_many (name : string) (columns : list string)
    (rows : list row) : io connection unit :=
  for_each rows (insert name columns).

(** Position of a column in a table. *)
Definition column_index (cname : string) (cols : list column) : option nat :=
  fst <$> list_find (λ col, col_name col = cname) cols.

Definition in_experiment (i : nat) (experiment : value) (r : row) : Prop :=
  experiment ≠ Null ∧ r !! i = Some experiment.

Global Instance in_experiment_dec i e r : Decision (in_experiment i e r).
Proof. unfold in_experiment. apply _. Defined.

(** [DELETE FROM <name> WHERE experiment = ?] *)
Definition delete_experiment (name : string) (experiment : value)
  : io connection unit :=
  λ c,
    match lookup_table name c with
    | None => no_such_table name c
    | Some (sc, db, t) =>
        match column_index "experiment" (tbl_columns t) with
        | None => throw (OperationalError "no such column: experiment") c
        | Some i =>
            let t' := Table (tbl_name t) (tbl_sql t) (tbl_columns t)
                        (filter (λ r, ¬ in_experiment i experiment r)
                           (tbl_rows t)) in
            (inr tt, set_schema_db sc (alter_table name (λ _, t') db) c)
        end
    end.

(** [SELECT * FROM <name> WHERE experiment = ?]: the column names of the
    cursor description and the rows *)
Definition select_experiment (name : string) (experiment : value)
  : io connection (list string * list row) :=
  λ c,
    match lookup_table name c with
    | None => no_such_table name c
    | Some (_, _, t) =>
        match column_index "experiment" (tbl_columns t) with
        | None => throw (OperationalError "no such column: experiment") c
        | Some i =>
            (inr (col_name <$> tbl_columns t,
                  filter (in_experiment i experiment) (tbl_rows t)), c)
        end
    end.

(** [SELECT * FROM <alias>.<name>] *)
Definition select_all (alias name : string)
  : io connection (list string * list row) :=
  λ c,
    match schema_db (Attached alias) c ≫= find_table name with
    | None => no_such_table (alias +:+ "." +:+ name) c
    | Some t => (inr (col_name <$> tbl_columns t, tbl_rows t), c)
    end.

(** [SELECT * FROM <alias>.sqlite_master WHERE type = 'table'] *)
Definition sqlite_master (alias : string) : io connection (list table) :=
  λ c,
    match schema_db (Attached alias) c with
    | None => throw (OperationalError ("unknown database " +:+ alias)) c
    | Some db => (inr db, c)
    end.

End Sqlite.

(** ** Store access of [Database_SQLite] *)

Module Database.

(** The tail of [create_table]'s loop over [fields]:
    [CT += field + " " + datatype], [" PRIMARY KEY"] for the primary field,
    [", "] except after the last field. *)
Fixpoint fields_sql (fields : list (string * string)) (primary : option string)
  : string :=
  match fields with
  | [] => ""
  | (field, datatype) :: rest =>
      field +:+ " " +:+ datatype
      +:+ (if decide (primary = Some field) then " PRIMARY KEY" else "")
      +:+ (if rest is [] then "" else ", ")
      +:+ fields_sql rest primary
  end.

(** The statement text [CT] *)
Definition create_table_sql (name : string) (fields : list (string * string))
    (primary : option string) : string :=
  "CREATE TABLE " +:+ name +:+ " (" +:+ fields_sql fields primary +:+ ")".

(** The columns that statement declares. *)
Definition declared_columns (fields : list (string * string))
    (primary : option string) : list Sqlite.column :=
  (λ f, Sqlite.Column f.1 f.2 (bool_decide (primary = Some f.1))) <$> fields.

(** [Database_SQLite.create_table(name, fields, primary)] *)
Definition create_table (name : string) (fields : list (string * string))
    (primary : option string) : io Sqlite.connection unit :=
  Sqlite.create_table (create_table_sql name fields primary) name
    (declared_columns fields primary).

(** [Database_SQLite.values(table_name, ' where experiment = ?', experiment)]:
    the columns and the rows the generator yields.  [cols.index("experiment")]
    raises [ValueError] if there is no such column. *)
Definition values (table_name : string) (experiment : string)
  : io Sqlite.connection (list string * list Sqlite.row) :=
  r ← Sqlite.select_experiment table_name (Sqlite.Text experiment);
  if decide ("experiment" ∈ r.1) then mret r else throw ValueError.

(** The store part of [Database_SQLite.before_experiment_run]: an output
    database gets the [metadata] table and a row for the running experiment;
    an [OperationalError] (the table exists already) is swallowed. *)
Definition before_experiment_run (output : bool)
    (experiment_identifier metadata : string) : io Sqlite.connection unit :=
  if output then
    try_except
      (create_table "metadata" [("experiment", "text"); ("metadata", "text")]
         (Some "experiment");;
       Sqlite.insert "metadata" ["experiment"; "metadata"]
         [Sqlite.Text experiment_identifier; Sqlite.Text metadata])
      (λ e, match e with
            | OperationalError _ => mret tt
            | _ => throw e
            end)
  else mret tt.

End Database.

(** ** [Table] *)

Module Table.

Inductive parameter_type := Input | Output.

Global Instance parameter_type_eq_dec : EqDecision parameter_type.
Proof. solve_decision. Defined.

(** A field is a plain string, or a (name, type) pair. *)
Inductive field := Plain (f : string) | Typed (f datatype : string).

(** [Table.__field_typify] *)
Definition field_typify (fields : list field) : list (string * string) :=
  (λ f, match f with
        | Typed f datatype => (f, datatype)
        | Plain f => (f, "text")
        end) <$> fields.

Record t := Make {
  (** [self.name], the key of the parameter in the experiment *)
  name : string;
  read_only : bool;
  index : option string;
  (** [self.__fields] *)
  fields : list (string * string);
  (** set by [Type.before_experiment_run] *)
  current_type : option parameter_type;
  (** [self.static_experiment.title] *)
  static_title : string;
  (** [self.static_experiment.experiment_identifier] *)
  static_identifier : string;
  (** [self.dynamic_experiment.experiment_identifier] *)
  dynamic_identifier : string;
  (** [str(self.dynamic_experiment.metadata)] *)
  dynamic_metadata : string;
}.

(** [Table.__init__(fields, index)], for a parameter called [name] in the
    experiment [title] whose enclosing and running instances are [static]
    and [dynamic]. *)
Definition init (name title static dynamic metadata : string)
    (fields : list field) (index : option string) : t :=
  Make name true index (field_typify (Plain "experiment" :: fields)) None
    title static dynamic metadata.

(** The part of [s] after its last hyphen: [s[s.rindex("-")+1:]];
    [None] where [rindex] raises. *)
Fixpoint after_last_hyphen (s : string) : option string :=
  match s with
  | EmptyString => None
  | String c s' =>
      match after_last_hyphen s' with
      | Some r => Some r
      | None => if decide (c = "-"%char) then Some s' else None
      end
  end.

(** [Table.table_name] *)
Definition table_name (self : t) : string :=
  static_title self +:+ "__" +:+ default (name self) (after_last_hyphen (name self)).

Definition set_read_only (b : bool) (self : t) : t :=
  Make (name self) b (index self) (fields self) (current_type self)
    (static_title self) (static_identifier self) (dynamic_identifier self)
    (dynamic_metadata self).

(** Modelled from the spec: [Type.before_experiment_run] of
    [versuchung/types.py], which is not among the sources.  It records the
    parameter type and hands the hook on to the sub-objects, here the
    table's database ("outputs are then set up (creating their
    tables/connections)"). *)
Definition Type_before_experiment_run (self : t) (ptype : parameter_type)
  : io Sqlite.connection t :=
  Database.before_experiment_run (bool_decide (ptype = Output))
    (dynamic_identifier self) (dynamic_metadata self);;
  mret (Make (name self) (read_only self) (index self) (fields self)
          (Some ptype) (static_title self) (static_identifier self)
          (dynamic_identifier self) (dynamic_metadata self)).

(** Modelled from the spec: [Type.after_experiment_run] of
    [versuchung/types.py].  It hands the hook on to the database, which
    commits and releases its connection; the rows of the store stay as
    they are. *)
Definition Type_after_experiment_run (self : t) (ptype : parameter_type)
  : io Sqlite.connection unit :=
  mret tt.

(** [Table.before_experiment_run(parameter_type)] *)
Definition before_experiment_run (self : t) (ptype : parameter_type)
  : io Sqlite.connection t :=
  self ← Type_before_experiment_run self ptype;
  match ptype with
  | Output =>
      let self := set_read_only false self in
      Database.create_table (table_name self) (fields self) (index self);;
      mret self
  | Input => mret self
  end.

(** The row [Table.insert] builds: [kwargs], updated with [data] if that
    is a non-empty dict, with the experiment column set last. *)
Definition stamped_row (self : t) (data : option (PyDict.t Sqlite.value))
    (kwargs : PyDict.t Sqlite.value) : PyDict.t Sqlite.value :=
  let kwargs :=
    match data with
    | Some ((_ :: _) as data) => PyDict.update kwargs data
    | _ => kwargs
    end in
  PyDict.set "experiment" (Sqlite.Text (dynamic_identifier self)) kwargs.

(** [set(kwargs.keys()) == set([f for f, t in self.__fields])] *)
Definition keys_match (self : t) (kwargs : PyDict.t Sqlite.value) : Prop :=
  list_to_set (PyDict.keys kwargs) =@{gset string} list_to_set (fields self).*1.

Global Instance keys_match_dec self kwargs : Decision (keys_match self kwargs).
Proof. unfold keys_match. apply _. Defined.

(** [Table.insert(data, **kwargs)] *)
Definition insert (self : t) (data : option (PyDict.t Sqlite.value))
    (kwargs : PyDict.t Sqlite.value) : io Sqlite.connection unit :=
  if read_only self then throw AssertionError
  else
    let kwargs := stamped_row self data kwargs in
    if decide (keys_match self kwargs) then
      let items := kwargs in
      Sqlite.insert (table_name self) items.*1 items.*2
    else throw AssertionError.

(** [Table.clear()] *)
Definition clear (self : t) : io Sqlite.connection unit :=
  Sqlite.delete_experiment (table_name self)
    (Sqlite.Text (dynamic_identifier self)).

(** [cols.index(x)] *)
Definition list_index (x : string) (cols : list string) : result nat :=
  match list_find (λ c, c = x) cols with
  | Some (i, _) => inr i
  | None => inl ValueError
  end.

(** [Table.value]: the column headings without the experiment column and
    the rows of the enclosing experiment without that column. *)
Definition value (self : t)
  : io Sqlite.connection (list string * list Sqlite.row) :=
  r ← Database.values (table_name self) (static_identifier self);
  index ← lift_result (list_index "experiment" r.1);
  mret (delete index r.1, delete index <$> r.2).

End Table.

(** ** [TableDict] *)

Module TableDict.

Definition key_name : string := "key".
Definition value_name : string := "value".

Record t := Make {
  table : Table.t;
  (** the content of the [dict] base object *)
  content : gmap Sqlite.value Sqlite.value;
}.

(** [TableDict.__init__()] *)
Definition init (name title static dynamic metadata : string) : t :=
  Make (Table.init name title static dynamic metadata
          [Table.Typed key_name "text"; Table.Typed value_name "text"]
          (Some key_name))
       ∅.

(** [TableDict.insert], whatever the arguments *)
Definition insert (self : t) (args : list (PyDict.t Sqlite.value))
    (kwargs : PyDict.t Sqlite.value) : io Sqlite.connection unit :=
  throw NotImplementedError.

(** [TableDict.clear()]: [Table] comes before [dict] among the bases of
    [TableDict], so the name resolves to [Table.clear]; the content of the
    dict stays as it is. *)
Definition clear (self : t) : io Sqlite.connection unit :=
  Table.clear (table self).

(** [TableDict.flush()] *)
Definition flush (self : t) : io Sqlite.connection unit :=
  Table.clear (table self);;
  for_each (map_to_list (content self)) (λ kv,
    Table.insert (table self)
      (Some [(key_name, kv.1); (value_name, kv.2)]) []).

(** [TableDict.after_experiment_run(parameter_type)] *)
Definition after_experiment_run (self : t) (ptype : Table.parameter_type)
  : io Sqlite.connection unit :=
  if decide (Table.current_type (table self) = Some ptype) then
    (if decide (ptype = Table.Output) then flush self else mret tt);;
    Table.Type_after_experiment_run (table self) ptype
  else throw AssertionError.

(** [x[i]] on a row *)
Definition row_item (x : Sqlite.row) (i : nat) : result Sqlite.value :=
  match x !! i with
  | Some v => inr v
  | None => inl IndexError
  end.

(** [[(x[key_index], x[value_index]) for x in values]] *)
Fixpoint pairs (key_index value_index : nat) (values : list Sqlite.row)
  : result (list (Sqlite.value * Sqlite.value)) :=
  match values with
  | [] => mret []
  | x :: values' =>
      k ← row_item x key_index;
      v ← row_item x value_index;
      rest ← pairs key_index value_index values';
      mret ((k, v) :: rest)
  end.

(** [dict.update(pairs)] *)
Definition dict_update (d : gmap Sqlite.value Sqlite.value)
    (kvs : list (Sqlite.value * Sqlite.value)) : gmap Sqlite.value Sqlite.value :=
  foldl (λ acc kv, <[kv.1 := kv.2]> acc) d kvs.

(** [TableDict.before_experiment_run(parameter_type)] *)
Definition before_experiment_run (self : t) (ptype : Table.parameter_type)
  : io Sqlite.connection t :=
  tbl ← Table.before_experiment_run (table self) ptype;
  match ptype with
  | Table.Input =>
      hv ← Table.value tbl;
      key_index ← lift_result (Table.list_index key_name hv.1);
      value_index ← lift_result (Table.list_index value_name hv.1);
      kvs ← lift_result (pairs key_index value_index hv.2);
      mret (Make tbl (dict_update (content self) kvs))
  | Table.Output => mret (Make tbl (content self))
  end.

(** The dict object with the content of a string-to-string dictionary. *)
Definition of_strings (d : gmap string string)
  : gmap Sqlite.value Sqlite.value :=
  kmap Sqlite.Text (Sqlite.Text <$> d).

(** The row [flush] stores for an item of the dict. *)
Definition row_of (experiment : string) (kv : Sqlite.value * Sqlite.value)
  : Sqlite.row :=
  [Sqlite.Text experiment; kv.1; kv.2].

(** The columns of the backing table. *)
Definition columns : list Sqlite.column :=
  [Sqlite.Column "experiment" "text" false; Sqlite.Column key_name "text" true;
   Sqlite.Column value_name "text" false].

(** The backing table of the dict [self] with the given rows. *)
Definition backing_table (self : t) (rows : list Sqlite.row) : Sqlite.table :=
  Sqlite.Table (Table.table_name (table self))
    (Database.create_table_sql (Table.table_name (table self))
       (Table.fields (table self)) (Table.index (table self)))
    columns rows.

(** What the run body leaves behind when it fills the dict. *)
Definition set_content (d : gmap Sqlite.value Sqlite.value) (self : t) : t :=
  Make (table self) d.

End TableDict.

(** ** [Database_SQlite_Merger] *)

Module Merger.

(** An entry of [self.tables]: the [sqlite_master] row of the table (its
    name, the text of its creation statement and the columns that text
    declares) and the aliases of the sources that hold it. *)
Record entry := Entry {
  e_name : string;
  e_sql : string;
  e_columns : list Sqlite.column;
  e_databases : list string;
}.

Record t := Make {
  (** [self.target], with the sources attached to it *)
  target : Sqlite.connection;
  (** [self.source_paths]: alias -> path *)
  source_paths : PyDict.t string;
  (** [self.tables]: table name -> entry *)
  tables : PyDict.t entry;
  (** the lines printed so far *)
  output : list string;
}.

(** [self.log(msg % args)] *)
Definition log (msg : string) : io t unit :=
  λ m, (inr tt, Make (target m) (source_paths m) (tables m)
                  (output m ++ ["merger: " +:+ msg])).

(** A statement executed on [self.target]. *)
Definition execute {A} (stmt : io Sqlite.connection A) : io t A :=
  λ m, let '(r, c) := stmt (target m) in
       (r, Make c (source_paths m) (tables m) (output m)).

Definition set_tables (tables : PyDict.t entry) : io t unit :=
  λ m, (inr tt, Make (target m) (source_paths m) tables (output m)).

Definition set_source_path (name source : string) : io t unit :=
  λ m, (inr tt, Make (target m) (PyDict.set name source (source_paths m))
                  (tables m) (output m)).

(** ["db_%d" % db_counter] *)
Definition alias_of (db_counter : nat) : string := "db_" +:+ pretty db_counter.

(** The loop of [__init__] over the source paths, with the current value of
    [db_counter]; [fs] holds the database files that exist. *)
Fixpoint attach_sources (fs : gmap string Sqlite.database) (db_counter : nat)
    (sources : list string) : io t unit :=
  match sources with
  | [] => mret tt
  | source :: sources' =>
      match fs !! source with
      | None => throw AssertionError
      | Some db =>
          let name := alias_of db_counter in
          execute (Sqlite.attach source name db);;
          log ("attached " +:+ source +:+ " as " +:+ name);;
          set_source_path name source;;
          attach_sources fs (S db_counter) sources'
      end
  end.

(** The merger before [__init__] attaches the sources: [sqlite3.connect]
    opens the target file, which is empty if it did not exist.  The file
    system [fs] is the one before the connection was opened: a target that
    did not exist is not in it. *)
Definition connect_target (fs : gmap string Sqlite.database)
    (target_path : string) : t :=
  Make (Sqlite.Connection (default [] (fs !! target_path)) []) [] [] [].

(** The body of the loop over [cur.fetchall()] in
    [collect_and_create_tables]. *)
Definition register_table (db : string) (table : Sqlite.table) : io t unit :=
  m ← get_state;
  let name := Sqlite.tbl_name table in
  match PyDict.get name (tables m) with
  | inr known =>
      if decide (e_sql known ≠ Sqlite.tbl_sql table) then
        log ("Two tables with different defintions found: " +:+ name);;
        throw (SystemExit (-1))
      else
        set_tables (PyDict.set name
          (Entry (e_name known) (e_sql known) (e_columns known)
             (e_databases known ++ [db])) (tables m))
  | inl _ =>
      set_tables (PyDict.set name
        (Entry name (Sqlite.tbl_sql table) (Sqlite.tbl_columns table) [db])
        (tables m))
  end.

(** The first loop of [collect_and_create_tables]: the catalog. *)
Definition collect_tables : io t unit :=
  set_tables [];;
  m ← get_state;
  for_each (PyDict.keys (source_paths m)) (λ db,
    rows ← execute (Sqlite.sqlite_master db);
    for_each rows (register_table db)).

(** The second loop of [collect_and_create_tables]: drop, ignoring any
    failure, and create.  The sources with an alias in [read_only] are
    files the process may not write. *)
Definition create_tables_in (read_only : list string) : io t unit :=
  m ← get_state;
  for_each (tables m) (λ nt,
    try_except (execute (Sqlite.drop_table_in read_only nt.1))
      (λ _, mret tt);;
    execute (Sqlite.create_table (e_sql nt.2) nt.1 (e_columns nt.2));;
    log ("created table " +:+ nt.1)).

(** The same where every source may be written. *)
Definition create_tables : io t unit := create_tables_in [].

(** [Database_SQlite_Merger.collect_and_create_tables] *)
Definition collect_and_create_tables_in (read_only : list string)
  : io t unit :=
  collect_tables;; create_tables_in read_only.

Definition collect_and_create_tables : io t unit :=
  collect_and_create_tables_in [].

(** [rows.add(i)] for a Python [set] of rows, kept in insertion order *)
Definition set_add (i : Sqlite.row) (rows : list Sqlite.row) : list Sqlite.row :=
  if decide (i ∈ rows) then rows else rows ++ [i].

(** [rows.update(other)] *)
Definition set_update (rows other : list Sqlite.row) : list Sqlite.row :=
  foldl (λ acc i, set_add i acc) rows other.

(** The loop over [self.tables[name]["databases"]]: the rows collected and
    the headers of the last source read. *)
Fixpoint scan (name : string) (databases : list string)
    (rows : list Sqlite.row) (headers : option (list string))
  : io t (list Sqlite.row * option (list string)) :=
  match databases with
  | [] => mret (rows, headers)
  | db :: databases' =>
      r ← execute (Sqlite.select_all db name);
      scan name databases' (set_update rows r.2) (Some r.1)
  end.

(** The loop of [collect_data] over [self.tables], threading
    [TableDictrows]. *)
Fixpoint copy_tables (tables : PyDict.t entry) (TableDictrows : list Sqlite.row)
  : io t (list Sqlite.row) :=
  match tables with
  | [] => mret TableDictrows
  | (name, table) :: tables' =>
      rh ← scan name (e_databases table) [] None;
      match rh.2 with
      | None => throw TypeError
      | Some headers =>
          execute (Sqlite.insert_many name headers rh.1);;
          log ("inserted " +:+ pretty (List.length rh.1) +:+ " rows into "
               +:+ name);;
          copy_tables tables'
            (if decide (headers = ["experiment"; "key"; "value"])
             then set_update TableDictrows rh.1 else TableDictrows)
      end
  end.

(** [Database_SQlite_Merger.collect_data] *)
Definition collect_data : io t unit :=
  m ← get_state;
  TableDictrows ← copy_tables (tables m) [];
  execute (Sqlite.create_table_if_not_exists
    "CREATE TABLE TableDict (experiment text, key text, value text)"
    "TableDict"
    [Sqlite.Column "experiment" "text" false; Sqlite.Column "key" "text" false;
     Sqlite.Column "value" "text" false]);;
  execute (Sqlite.insert_many "TableDict" ["experiment"; "key"; "value"]
             TableDictrows);;
  log ("inserted " +:+ pretty (List.length TableDictrows)
       +:+ " key-value pairs into TableDict").

(** The aliases of the sources whose path is among [read_only]. *)
Definition read_only_aliases (read_only : list string) (sources : list string)
  : list string :=
  (filter (λ ap : string * string, ap.2 ∈ read_only)
     (imap (λ i source, (alias_of i, source)) sources)).*1.

(** The tool: [Database_SQlite_Merger(target, sources)], then
    [collect_and_create_tables()], then [collect_data()], where the
    sources with a path in [read_only] are files the process may not
    write. *)
Definition merge_in (read_only : list string)
    (fs : gmap string Sqlite.database) (target_path : string)
    (sources : list string) : result unit * t :=
  (attach_sources fs 0 sources;;
   collect_and_create_tables_in (read_only_aliases read_only sources);;
   collect_data) (connect_target fs target_path).

(** The tool where the process may write every source. *)
Definition merge (fs : gmap string Sqlite.database) (target_path : string)
    (sources : list string) : result unit * t :=
  (attach_sources fs 0 sources;;
   collect_and_create_tables;;
   collect_data) (connect_target fs target_path).

(** The rows of a table of the target. *)
Definition target_rows (name : string) (m : t) : option (list Sqlite.row) :=
  Sqlite.tbl_rows <$> Sqlite.find_table name (Sqlite.main (target m)).

(** Two of the attached sources declare [name] with different creation
    statements. *)
Definition schema_conflict (name : string) (c : Sqlite.connection) : Prop :=
  ∃ a1 db1 t1 a2 db2 t2,
    (a1, db1) ∈ Sqlite.attached c ∧ t1 ∈ db1 ∧
    (a2, db2) ∈ Sqlite.attached c ∧ t2 ∈ db2 ∧
    Sqlite.tbl_name t1 = name ∧ Sqlite.tbl_name t2 = name ∧
    Sqlite.tbl_sql t1 ≠ Sqlite.tbl_sql t2.

(** A table some attached source holds. *)
Definition declared (c : Sqlite.connection) (t : Sqlite.table) : Prop :=
  ∃ a db, (a, db) ∈ Sqlite.attached c ∧ t ∈ db.

(** Every entry of the catalog stems from a table of a source. *)
Definition catalog_sound (c : Sqlite.connection) (tables : PyDict.t entry)
  : Prop :=
  ∀ n e, PyDict.get n tables = inr e →
    ∃ t, declared c t ∧ Sqlite.tbl_name t = n ∧ Sqlite.tbl_sql t = e_sql e.

(** Every table seen so far has an entry with its creation statement. *)
Definition catalog_complete (seen : list Sqlite.table)
    (tables : PyDict.t entry) : Prop :=
  ∀ t, t ∈ seen →
    ∃ e, PyDict.get (Sqlite.tbl_name t) tables = inr e ∧
         e_sql e = Sqlite.tbl_sql t.

(** The tables of the sources with the given aliases, in catalog order. *)
Definition tables_of (c : Sqlite.connection) (aliases : list string)
  : list Sqlite.table :=
  aliases ≫= λ a, default [] (Sqlite.schema_db (Sqlite.Attached a) c).

Definition conflict_message (name : string) : string :=
  "merger: Two tables with different defintions found: " +:+ name.

(** The sources are attached under distinct aliases, and these are the
    keys of [source_paths], in whatever order the dict iterates. *)
Definition attached_sources (m : t) : Prop :=
  PyDict.keys (source_paths m) ≡ₚ (Sqlite.attached (target m)).*1 ∧
  NoDup (Sqlite.attached (target m)).*1.

End Merger.

(** ** The merge scenarios of the specification *)

Module Scenario.

Definition text_fields : list (string * string) :=
  [("experiment", "text"); ("key", "text"); ("value", "text")].

Definition integer_fields : list (string * string) :=
  [("experiment", "text"); ("key", "text"); ("value", "integer")].

(** A table [T] as [Database_SQLite.create_table] declares it. *)
Definition T (fields : list (string * string)) (rows : list Sqlite.row)
  : Sqlite.table :=
  Sqlite.Table "T" (Database.create_table_sql "T" fields None)
    (Database.declared_columns fields None) rows.

Definition r (k v : string) : Sqlite.row :=
  [Sqlite.Text "x"; Sqlite.Text k; Sqlite.Text v].

(** Source A holds (x,k1,v1) and (x,k2,v2); source B holds (x,k1,v1) and
    (x,k3,v3); source C declares [T] with an integer value column. *)
Definition A : Sqlite.database := [T text_fields [r "k1" "v1"; r "k2" "v2"]].
Definition B : Sqlite.database := [T text_fields [r "k1" "v1"; r "k3" "v3"]].
Definition C : Sqlite.database := [T integer_fields []].

(** A target file left over from an earlier merge. *)
Definition stale : Sqlite.database := [T text_fields [r "k0" "v0"]].

(** The files on disk: the target does not exist yet. *)
Definition fresh_fs : gmap string Sqlite.database :=
  {[ "a.db" := A; "b.db" := B; "c.db" := C ]}.

(** The files on disk: the target exists and holds a table [T]. *)
Definition stale_fs : gmap string Sqlite.database :=
  <["t.db" := stale]> fresh_fs.

End Scenario.

(** ** Iteration order of a small Python 2 dict *)

Module DictOrder.

(** A C [long] of [bits] bits holding [x] after wrap-around. *)
Definition wrap (bits x : Z) : Z :=
  ((x + 2 ^ (bits - 1)) `mod` 2 ^ bits - 2 ^ (bits - 1))%Z.

Definition ord (c : ascii) : Z := Z.of_N (N_of_ascii c).

(** [string_hash] of CPython 2.7: [hash] of a [str] when hash
    randomization is off, as it is unless asked for. *)
Definition string_hash (bits : Z) (s : string) : Z :=
  match list_ascii_of_string s with
  | [] => 0%Z
  | (c :: _) as p =>
      let x := wrap bits (Z.shiftl (ord c) 7) in
      let x :=
        foldl (λ x c, wrap bits (Z.lxor (1000003 * x) (ord c))) x p in
      let x := Z.lxor x (Z.of_nat (List.length p)) in
      if decide (x = (-1)%Z) then (-2)%Z else x
  end.

(** The slot a key is first looked for in a table of eight slots:
    [hash & mask]. *)
Definition slot (bits : Z) (key : string) : Z :=
  Z.land (string_hash bits key) 7.

(** A dict display of up to five keys, each first looked for in a slot of
    its own: the table keeps its eight slots, every key sits in its slot,
    and so it is after [copy.deepcopy] and [dict.update] into an empty
    dict. *)
Definition small (bits : Z) (keys : list string) : Prop :=
  (List.length keys ≤ 5)%nat ∧ NoDup (slot bits <$> keys).

Global Instance small_dec bits keys : Decision (small bits keys).
Proof. unfold small. apply _. Defined.

(** The order in which such a dict iterates: slot by slot.  [None] for
    larger dicts and for keys that share a slot. *)
Definition iteration_order (bits : Z) (keys : list string)
  : option (list string) :=
  if decide (small bits keys) then
    Some (mjoin ((λ i, filter (λ key, slot bits key = i) keys)
                   <$> [0; 1; 2; 3; 4; 5; 6; 7]%Z))
  else None.

End DictOrder.

(** ** The lifecycle: [Experiment.execute] *)

Module Experiment.

Record t := Make {
  title : string;
  version : Z;
  (** the keys of [self.inputs] and [self.outputs], in iteration order *)
  inputs : list string;
  outputs : list string;
}.

(** The experiment object of a class whose [inputs] and [outputs] are dict
    displays with these keys, in the order they are written: [__init__]
    copies both dicts. *)
Definition declare (bits : Z) (title : string) (version : Z)
    (declared_inputs declared_outputs : list string) : option t :=
  inputs ← DictOrder.iteration_order bits declared_inputs;
  outputs ← DictOrder.iteration_order bits declared_outputs;
  Some (Make title version inputs outputs).

Section execute.
(** The state of the world outside the experiment object, the parsed
    options, and the collaborators that act on them. *)
Variables W Opts : Type.
(** [self.__setup_parser()], [parse_args], [os.chdir], [setup_logging]:
    the options, the remaining arguments and [self.pwd] *)
Variable parse_args : list string → io W (Opts * list string * string).
Variable do_list : Opts → bool.
(** the listing of earlier results, [self.__do_list] *)
Variable list_results : string → io W unit.
Variable hasattr : Opts → string → bool.
Variable setattr : Opts → string → string → Opts.
Variable setup_tmp_directory : string → io W unit.
Variable remove_tmp_directory : io W unit.
(** the hooks of the parameter called [name] *)
Variable inp_extract_cmdline_parser :
  string → Opts → list string → io W (option (Opts * list string)).
Variable inp_metadata : string → io W (PyDict.t string).
Variable outp_setup_output : string → string → io W unit.
Variable outp_tear_down_output : string → io W unit.
(** [self.run()] *)
Variable run : io W unit.
Variable hexdigest : string → string.
(** [os.path.join], [os.path.exists], [shutil.rmtree], [os.mkdir] and the
    writing of the metadata file *)
Variable path_join : string → string → string.
Variable path_exists : string → io W bool.
Variable rmtree : string → io W unit.
Variable mkdir : string → io W unit.
Variable write_metadata : string → PyDict.t string → io W unit.

(** [for key in kwargs: ... setattr(opts, key, kwargs[key])] *)
Fixpoint apply_kwargs (opts : Opts) (kwargs : list (string * string))
  : io W Opts :=
  match kwargs with
  | [] => mret opts
  | (key, v) :: kwargs' =>
      if hasattr opts key then apply_kwargs (setattr opts key v) kwargs'
      else throw AttributeError
  end.

(** The loop over [self.inputs.items()] *)
Fixpoint extract_inputs (names : list string) (opts : Opts)
    (args : list string) : io W unit :=
  match names with
  | [] => mret tt
  | name :: names' =>
      ret ← inp_extract_cmdline_parser name opts args;
      match ret with
      | Some (opts', args') => extract_inputs names' opts' args'
      | None => extract_inputs names' opts args
      end
  end.

(** [for name in self.inputs: metadata.update(...inp_metadata())] *)
Fixpoint collect_metadata (names : list string) (metadata : PyDict.t string)
  : io W (PyDict.t string) :=
  match names with
  | [] => mret metadata
  | name :: names' =>
      d ← inp_metadata name;
      collect_metadata names' (PyDict.update metadata d)
  end.

(** [Experiment.__setup_output_directory] *)
Definition setup_output_directory (self : t) (pwd : string) : io W string :=
  metadata ← collect_metadata (inputs self) [];
  experiment_instance ←
    lift_result
      (Identity.compute_identifier hexdigest (title self) (version self)
         metadata);
  let output_path := path_join pwd experiment_instance in
  existed ← path_exists output_path;
  (if existed : bool then rmtree output_path else mret tt);;
  mkdir output_path;;
  write_metadata output_path metadata;;
  mret experiment_instance.

(** The loop that sets the outputs up *)
Definition setup_outputs (names : list string) (output_directory : string)
  : io W unit :=
  for_each names (λ name, outp_setup_output name output_directory).

(** The loop that tears the outputs down *)
Definition tear_down_outputs (names : list string) : io W unit :=
  for_each names outp_tear_down_output.

(** [Experiment.execute(args, **kwargs)]: [None] after a listing,
    otherwise the identifier of the run. *)
Definition execute (self : t) (args : list string)
    (kwargs : list (string * string)) : io W (option string) :=
  parsed ← parse_args args;
  let '(opts, args, pwd) := parsed in
  if do_list opts then
    list_results pwd;; mret None
  else
    opts ← apply_kwargs opts kwargs;
    setup_tmp_directory pwd;;
    extract_inputs (inputs self) opts args;;
    experiment_instance ← setup_output_directory self pwd;
    let output_directory := path_join pwd experiment_instance in
    setup_outputs (outputs self) output_directory;;
    run;;
    tear_down_outputs (outputs self);;
    remove_tmp_directory;;
    mret (Some experiment_instance).

End execute.

(** *** What a run does to its collaborators

    The calls [execute] makes, as its collaborators see them. *)
Inductive call :=
| ParseArgs (args : list string)
| ListResults (pwd : string)
| SetupTmpDirectory (pwd : string)
| ExtractInput (name : string)
| InputMetadata (name : string)
| PathExists (path : string)
| Rmtree (path : string)
| Mkdir (path : string)
| WriteMetadata (path : string)
| SetupOutput (name : string) (output_directory : string)
| Run
| TearDownOutput (name : string)
| RemoveTmpDirectory.

(** How a call ended: it raised, or it returned; [metadata] is the dict an
    [inp_metadata] hook returned. *)
Inductive outcome :=
| Raised (e : exn)
| Returned (metadata : option (PyDict.t string)).

Definition entry : Type := call * outcome.

Definition outcome_of {A} (info : A → option (PyDict.t string))
    (r : result A) : outcome :=
  match r with
  | inl e => Raised e
  | inr a => Returned (info a)
  end.

(** The collaborator [m] on a world that keeps a log of the calls it
    receives: [m] acts as before, and the world notes the call and how it
    ended. *)
Definition observe {U A} (c : call) (info : A → option (PyDict.t string))
    (m : io U A) : io (U * list entry) A :=
  λ s, let '(r, u) := m s.1 in (r, (u, s.2 ++ [(c, outcome_of info r)])).

Definition silent {A} : A → option (PyDict.t string) := λ _, None.

Section observed.
Variables U Opts : Type.
Variable parse_args : list string → io U (Opts * list string * string).
Variable do_list : Opts → bool.
Variable list_results : string → io U unit.
Variable hasattr : Opts → string → bool.
Variable setattr : Opts → string → string → Opts.
Variable setup_tmp_directory : string → io U unit.
Variable remove_tmp_directory : io U unit.
Variable inp_extract_cmdline_parser :
  string → Opts → list string → io U (option (Opts * list string)).
Variable inp_metadata : string → io U (PyDict.t string).
Variable outp_setup_output : string → string → io U unit.
Variable outp_tear_down_output : string → io U unit.
Variable run : io U unit.
Variable hexdigest : string → string.
Variable path_join : string → string → string.
Variable path_exists : string → io U bool.
Variable rmtree : string → io U unit.
Variable mkdir : string → io U unit.
Variable write_metadata : string → PyDict.t string → io U unit.

(** [execute] with every collaborator on a world that keeps the log. *)
Definition observed_execute (self : t) (args : list string)
    (kwargs : list (string * string)) : io (U * list entry) (option string) :=
  execute (U * list entry) Opts
    (λ args, observe (ParseArgs args) silent (parse_args args))
    do_list
    (λ pwd, observe (ListResults pwd) silent (list_results pwd))
    hasattr setattr
    (λ pwd, observe (SetupTmpDirectory pwd) silent (setup_tmp_directory pwd))
    (observe RemoveTmpDirectory silent remove_tmp_directory)
    (λ name opts args,
       observe (ExtractInput name) silent
         (inp_extract_cmdline_parser name opts args))
    (λ name, observe (InputMetadata name) Some (inp_metadata name))
    (λ name output_directory,
       observe (SetupOutput name output_directory) silent
         (outp_setup_output name output_directory))
    (λ name, observe (TearDownOutput name) silent (outp_tear_down_output name))
    (observe Run silent run)
    hexdigest path_join
    (λ path, observe (PathExists path) silent (path_exists path))
    (λ path, observe (Rmtree path) silent (rmtree path))
    (λ path, observe (Mkdir path) silent (mkdir path))
    (λ path metadata,
       observe (WriteMetadata path) silent (write_metadata path metadata))
    self args kwargs.

End observed.

Definition returned (en : entry) : Prop := ∃ metadata, en.2 = Returned metadata.

(** The inputs whose [inp_metadata] hook returned, each with the dict it
    returned, in the order of the calls. *)
Definition metadata_of (log : list entry)
  : list (string * PyDict.t string) :=
  omap (λ en : entry,
          match en with
          | (InputMetadata name, Returned (Some d)) => Some (name, d)
          | _ => None
          end) log.

(** The calls of the log are exactly [expected], and all returned. *)
Definition completed (log : list entry) (expected : list call) : Prop :=
  log.*1 = expected ∧ Forall returned log.

(** The calls of the log are an initial part of [expected]; the last one
    raised [e], the ones before it returned. *)
Definition stopped (e : exn) (log : list entry) (expected : list call)
  : Prop :=
  ∃ before c,
    log = before ++ [(c, Raised e)] ∧ Forall returned before ∧
    (before.*1 ++ [c]) `prefix_of` expected.

(** The calls of a listing. *)
Definition list_sequence (args : list string) (pwd : string) : list call :=
  [ParseArgs args; ListResults pwd].

(** The calls that allocate the output directory; [existed] tells whether
    it was there already. *)
Definition allocation_sequence (output_path : string) (existed : bool)
  : list call :=
  [PathExists output_path]
  ++ (if existed then [Rmtree output_path] else [])
  ++ [Mkdir output_path; WriteMetadata output_path].

(** The calls of a run that computes [identifier], in order. *)
Definition run_sequence (path_join : string → string → string) (self : t)
    (args : list string) (pwd identifier : string) (existed : bool)
  : list call :=
  let output_path := path_join pwd identifier in
  [ParseArgs args]
  ++ [SetupTmpDirectory pwd]
  ++ (ExtractInput <$> inputs self)
  ++ ((InputMetadata <$> inputs self)
      ++ allocation_sequence output_path existed)
  ++ ((λ name, SetupOutput name output_path) <$> outputs self)
  ++ [Run]
  ++ (TearDownOutput <$> outputs self)
  ++ [RemoveTmpDirectory].

Inductive stage :=
| Preparation | InputResolution | IdentityComputation | OutputAllocation
| OutputSetup | RunBody | OutputTeardown | Cleanup.

Definition stage_of (c : call) : stage :=
  match c with
  | ParseArgs _ | ListResults _ | SetupTmpDirectory _ => Preparation
  | ExtractInput _ => InputResolution
  | InputMetadata _ => IdentityComputation
  | PathExists _ | Rmtree _ | Mkdir _ | WriteMetadata _ => OutputAllocation
  | SetupOutput _ _ => OutputSetup
  | Run => RunBody
  | TearDownOutput _ => OutputTeardown
  | RemoveTmpDirectory => Cleanup
  end.

Definition stage_rank (s : stage) : nat :=
  match s with
  | Preparation => 0
  | InputResolution => 1
  | IdentityComputation => 2
  | OutputAllocation => 3
  | OutputSetup => 4
  | RunBody => 5
  | OutputTeardown => 6
  | Cleanup => 7
  end.

Definition rank (c : call) : nat := stage_rank (stage_of c).

(** [c1] may come before [c2]. *)
Definition precedes (c1 c2 : call) : Prop :=
  (stage_rank (stage_of c1) ≤ stage_rank (stage_of c2))%nat.

(** No call of a later stage precedes a call of an earlier stage. *)
Definition in_stage_order (calls : list call) : Prop :=
  StronglySorted precedes calls.

(** [m] extends the log by some [k] that, with the result, satisfies
    [Q]. *)
Definition wp {U A} (m : io (U * list entry) A)
    (Q : result A → list entry → Prop) : Prop :=
  ∀ s, ∃ k, (m s).2.2 = s.2 ++ k ∧ Q (m s).1 k.

(** How a part of the run ends that is to make the calls [expected]. *)
Definition ends {A} (r : result A) (k : list entry) (expected : list call)
  : Prop :=
  match r with
  | inl e => stopped e k expected
  | inr _ => completed k expected
  end.

End Experiment.

(* ===================================================================== *)
(** * Properties *)
(* ===================================================================== *)

(** ** The order on strings *)

Lemma ascii_compare_refl (a : ascii) : Ascii.compare a a = Eq.
Proof. unfold Ascii.compare. apply N.compare_refl. Qed.

Lemma ascii_compare_lt_trans (a b c : ascii) :
  Ascii.compare a b = Lt → Ascii.compare b c = Lt → Ascii.compare a c = Lt.
Proof.
  unfold Ascii.compare. rewrite !N.compare_lt_iff. apply N.lt_trans.
Qed.

Lemma string_compare_refl (s : string) : String.compare s s = Eq.
Proof.
  induction s as [|a s IH]; simpl; [done|].
  by rewrite ascii_compare_refl.
Qed.

Lemma string_compare_lt_trans (s1 s2 s3 : string) :
  String.compare s1 s2 = Lt → String.compare s2 s3 = Lt →
  String.compare s1 s3 = Lt.
Proof.
  revert s2 s3.
  induction s1 as [|a s1 IH]; intros [|b s2] [|c s3]; simpl; try done.
  destruct (Ascii.compare a b) eqn:Hab; try done.
  - apply Ascii.compare_eq_iff in Hab as ->.
    destruct (Ascii.compare b c); try done. apply IH.
  - destruct (Ascii.compare b c) eqn:Hbc; try done.
    + apply Ascii.compare_eq_iff in Hbc as <-. by rewrite Hab.
    + by rewrite (ascii_compare_lt_trans _ _ _ Hab Hbc).
Qed.

Global Instance str_le_trans : Transitive str_le.
Proof.
  intros s1 s2 s3. unfold str_le, String.leb.
  destruct (String.compare s1 s2) eqn:H12; try done.
  - by apply String.compare_eq_iff in H12 as ->.
  - destruct (String.compare s2 s3) eqn:H23; try done.
    + apply String.compare_eq_iff in H23 as <-. by rewrite H12.
    + by rewrite (string_compare_lt_trans _ _ _ H12 H23).
Qed.

Global Instance str_le_total : Total str_le.
Proof. intros s1 s2. apply String.leb_total. Qed.

Global Instance str_le_antisym : AntiSymm (=) str_le.
Proof. intros s1 s2. apply String.leb_antisym. Qed.

(** ** Identity hasher *)

Section identity_facts.
Import Identity.

Lemma sorted_perm (l1 l2 : list string) :
  l1 ≡ₚ l2 → sorted l1 = sorted l2.
Proof.
  intros Hp. unfold sorted.
  apply (Sorted_unique str_le); try apply Sorted_merge_sort; try apply _.
  by rewrite !merge_sort_Permutation.
Qed.

Lemma get_elem_of {V} (d : PyDict.t V) k v :
  PyDict.wf d → (k, v) ∈ d → PyDict.get k d = inr v.
Proof.
  unfold PyDict.wf.
  induction d as [|[k' v'] d IH]; simpl; intros Hnd Hin.
  - by apply elem_of_nil in Hin.
  - apply NoDup_cons in Hnd as [Hk' Hnd].
    apply elem_of_cons in Hin as [[= <- <-]|Hin].
    + by rewrite decide_True.
    + rewrite decide_False; [by apply IH|].
      intros ->. apply Hk'. apply list_elem_of_fmap. by exists (k', v).
Qed.

Lemma get_keys {V} (d : PyDict.t V) k :
  k ∈ PyDict.keys d → ∃ v, PyDict.get k d = inr v ∧ (k, v) ∈ d.
Proof.
  unfold PyDict.keys.
  induction d as [|[k' v'] d IH]; simpl; intros Hin.
  - by apply elem_of_nil in Hin.
  - destruct (decide (k = k')) as [->|Hne].
    + exists v'. split; [done|]. apply elem_of_cons. by left.
    + apply elem_of_cons in Hin as [?|Hin]; [done|].
      destruct (IH Hin) as (v & Hg & Hv). exists v. split; [done|].
      apply elem_of_cons. by right.
Qed.

Lemma feed_ext (d1 d2 : PyDict.t string) ks m :
  (∀ k, k ∈ ks → PyDict.get k d1 = PyDict.get k d2) →
  feed d1 ks m = feed d2 ks m.
Proof.
  revert m. induction ks as [|k ks IH]; intros m Hext; simpl; [done|].
  rewrite (Hext k) by (apply elem_of_cons; by left).
  destruct (PyDict.get k d2); simpl; [done|].
  apply IH. intros k' Hk'. apply Hext. apply elem_of_cons. by right.
Qed.

Lemma feed_total (d : PyDict.t string) ks m :
  ks ⊆ PyDict.keys d → succeeds (feed d ks m).
Proof.
  revert m. induction ks as [|k ks IH]; intros m Hsub; simpl.
  - by exists m.
  - destruct (get_keys d k) as (v & -> & _).
    { apply Hsub. apply elem_of_cons. by left. }
    simpl. apply IH. intros k' Hk'. apply Hsub. apply elem_of_cons. by right.
Qed.

Lemma digest_input_total version (d : PyDict.t string) :
  succeeds (digest_input version d).
Proof.
  unfold digest_input. apply feed_total.
  intros k. unfold sorted. by rewrite merge_sort_Permutation.
Qed.

Lemma digest_input_perm version (d1 d2 : PyDict.t string) :
  PyDict.wf d1 → d1 ≡ₚ d2 →
  digest_input version d1 = digest_input version d2.
Proof.
  intros Hwf1 Hp.
  assert (PyDict.wf d2) as Hwf2.
  { unfold PyDict.wf in *. by rewrite <-Hp. }
  unfold digest_input.
  rewrite (sorted_perm (PyDict.keys d1) (PyDict.keys d2))
    by (unfold PyDict.keys; by rewrite Hp).
  apply feed_ext. intros k Hk.
  unfold sorted in Hk. rewrite merge_sort_Permutation in Hk.
  destruct (get_keys d2 k Hk) as (v & -> & Hv).
  apply get_elem_of; [done|]. by rewrite Hp.
Qed.
End identity_facts.

(** C1.  Two metadata dicts holding the same key/value pairs in a different
    iteration (insertion) order get the same experiment-instance identifier:
    the title, a dash, and the digest of ["version " + version] followed by
    [key + " " + value] for the keys in sorted order.  The computation never
    raises. *)
Theorem identifier_insertion_order_irrelevant
    (hexdigest : string → string) (title : string) (version : Z)
    (M1 M2 : PyDict.t string) :
  PyDict.wf M1 → M1 ≡ₚ M2 →
  ∃ msg,
    Identity.digest_input version M1 = inr msg ∧
    Identity.digest_input version M2 = inr msg ∧
    Identity.compute_identifier hexdigest title version M1
      = inr (title +:+ "-" +:+ hexdigest msg) ∧
    Identity.compute_identifier hexdigest title version M2
      = inr (title +:+ "-" +:+ hexdigest msg).
Proof.
  intros Hwf Hp.
  destruct (digest_input_total version M1) as [msg Hmsg].
  exists msg. unfold Identity.compute_identifier.
  rewrite <-(digest_input_perm version M1 M2 Hwf Hp), Hmsg. done.
Qed.

Lemma identifier_insertion_order_irrelevant_witness :
  ∃ msg,
    Identity.digest_input 1 [("a", "1"); ("b", "2")] = inr msg ∧
    Identity.digest_input 1 [("b", "2"); ("a", "1")] = inr msg ∧
    Identity.compute_identifier (λ s, s) "Exp" 1 [("a", "1"); ("b", "2")]
      = inr ("Exp" +:+ "-" +:+ msg) ∧
    Identity.compute_identifier (λ s, s) "Exp" 1 [("b", "2"); ("a", "1")]
      = inr ("Exp" +:+ "-" +:+ msg).
Proof.
  apply (identifier_insertion_order_irrelevant (λ s, s) "Exp" 1
           [("a", "1"); ("b", "2")] [("b", "2"); ("a", "1")]).
  - unfold PyDict.wf. simpl. apply (bool_decide_unpack _). vm_compute. reflexivity.
  - apply perm_swap.
Defined.

Example digest_input_example :
  Identity.digest_input 1 [("b", "2"); ("a", "1")] = inr "version 1a 1b 2".
Proof. vm_compute. reflexivity. Qed.

(** C2.  Two different metadata dicts over the same keys, with the same
    version, are fed to the digest as the same message and therefore get the
    same identifier whatever the digest function is: the pairs are
    concatenated without a delimiter between a value and the next key. *)
Theorem identifier_collision :
  let M1 := [("a", ""); ("b", "b x")] in
  let M2 := [("a", "b "); ("b", "x")] in
  PyDict.wf M1 ∧ PyDict.wf M2 ∧ PyDict.keys M1 = PyDict.keys M2 ∧ M1 ≠ M2 ∧
  Identity.digest_input 1 M1 = inr "version 1a b b x" ∧
  Identity.digest_input 1 M2 = inr "version 1a b b x" ∧
  ∀ (hexdigest : string → string) (title : string),
    Identity.compute_identifier hexdigest title 1 M1
    = Identity.compute_identifier hexdigest title 1 M2.
Proof.
  repeat split.
  - unfold PyDict.wf. simpl. apply (bool_decide_unpack _). vm_compute. reflexivity.
  - unfold PyDict.wf. simpl. apply (bool_decide_unpack _). vm_compute. reflexivity.
  - discriminate.
Qed.

(** ** Connection registry *)

Section registry_facts.
Import Database_SQLite.

Lemma close_count_log h e p :
  close_count h (log_event e p)
  = close_count h p + (if decide (e = Closed h) then 1 else 0).
Proof.
  unfold close_count, log_event; simpl.
  rewrite filter_app, length_app. f_equal.
  rewrite filter_cons, filter_nil. by destruct (decide (e = Closed h)).
Qed.

Lemma close_count_fresh h p :
  Forall (λ e, event_handle e < next_handle p) (events p) →
  (next_handle p ≤ h)%nat → close_count h p = 0.
Proof.
  unfold close_count. intros Hev Hle.
  induction Hev as [|e evs He _ IH]; [done|].
  rewrite filter_cons. destruct (decide (e = Closed h)) as [->|]; [|done].
  simpl in He. lia.
Qed.

Lemma never_overdisconnects_from_app b pre post :
  never_overdisconnects_from b (pre ++ post) = true →
  never_overdisconnects_from b pre = true.
Proof.
  revert b. induction pre as [|[] pre IH]; intros b; simpl; [done|apply IH|].
  rewrite !andb_true_iff. intros [? ?]. split; [done|by apply IH].
Qed.

Lemma never_overdisconnects_from_balance b calls :
  never_overdisconnects_from b calls = true → (0 ≤ b)%Z →
  (0 ≤ b + balance calls)%Z.
Proof.
  revert b. induction calls as [|[] calls IH]; intros b; simpl.
  - lia.
  - intros H Hb. specialize (IH (b + 1)%Z H). lia.
  - rewrite andb_true_iff, bool_decide_eq_true. intros [? H] Hb.
    specialize (IH (b - 1)%Z H). lia.
Qed.

(** In terms of prefixes: no prefix has more disconnects than connects. *)
Lemma never_overdisconnects_prefix calls pre :
  never_overdisconnects calls → pre `prefix_of` calls →
  (0 ≤ balance pre)%Z.
Proof.
  intros H [post ->]. apply never_overdisconnects_from_app in H.
  apply never_overdisconnects_from_balance in H; lia.
Qed.

Lemma connect_existing path p db count :
  database_connections p !! path = Some (db, count) →
  connect path p
  = (db, set_connections (<[path := (db, count + 1)%Z]>) p).
Proof. unfold connect. by intros ->. Qed.

Lemma connect_inv path b hs p :
  registry_inv path b hs p →
  registry_inv path (b + 1) (hs ++ [(connect path p).1]) (connect path p).2.
Proof.
  intros ([Hev Hreg] & Hhs & Hcase). unfold connect, registry_inv, wf.
  destruct (database_connections p !! path) as [[db count]|] eqn:Hp; simpl.
  - rewrite lookup_insert_eq. destruct Hcase as (-> & Hb & Hlast & Hc & Hoth).
    repeat split; try done; try lia.
    + intros q db' c. rewrite lookup_insert. case_decide; [|by eauto].
      intros [= <- <-]. by eapply Hreg.
    + apply Forall_app; split; [done|]. apply Forall_singleton. by eapply Hreg.
    + by rewrite last_snoc.
    + intros h [Hin|Hin%list_elem_of_singleton]%elem_of_app ?; [|done].
      by apply Hoth.
  - rewrite lookup_insert_eq. destruct Hcase as (-> & Hcl).
    repeat split; try done; try lia.
    + apply Forall_app; split.
      * eapply Forall_impl; [exact Hev|]. simpl. lia.
      * apply Forall_singleton. simpl. lia.
    + intros q db' c. rewrite lookup_insert. case_decide.
      * intros [= <- <-]. lia.
      * intros Hq. apply Hreg in Hq. lia.
    + apply Forall_app; split.
      * eapply Forall_impl; [exact Hhs|]. simpl. lia.
      * apply Forall_singleton. lia.
    + by rewrite last_snoc.
    + change (close_count (next_handle p)
                (log_event (Opened path (next_handle p)) p) = 0).
      rewrite close_count_log, decide_False by done.
      rewrite close_count_fresh; [done|done|lia].
    + intros h [Hin|Hin%list_elem_of_singleton]%elem_of_app ?; [|done].
      change (close_count h (log_event (Opened path (next_handle p)) p) = 1).
      rewrite close_count_log, decide_False by done. rewrite Hcl; [lia|done].
Qed.

Lemma disconnect_inv path b hs p :
  registry_inv path b hs p → (0 < b)%Z →
  ∃ p', disconnect path p = inr p' ∧ registry_inv path (b - 1) hs p'.
Proof.
  intros ([Hev Hreg] & Hhs & Hcase) Hb. unfold disconnect, registry_inv, wf.
  destruct (database_connections p !! path) as [[db count]|] eqn:Hp;
    [|lia].
  destruct Hcase as (-> & _ & Hlast & Hc & Hoth).
  assert (db < next_handle p) as Hdb by (by eapply Hreg).
  destruct (decide (b = 1%Z)) as [->|Hne]; eexists; (split; [done|]); simpl.
  - rewrite lookup_delete_eq. repeat split; try done.
    + rewrite !Forall_app, !Forall_singleton. done.
    + intros q db' c. rewrite lookup_delete. case_decide; [done|by eauto].
    + intros h Hin.
      change (close_count h
        (log_event (Closed db) (log_event (Committed db) p)) = 1).
      rewrite !close_count_log. rewrite (decide_False (P := _ = Closed h)) by done.
      destruct (decide (h = db)) as [->|Hhdb].
      * rewrite decide_True by done. lia.
      * rewrite decide_False by congruence. rewrite Hoth; [lia|done..].
  - rewrite lookup_insert_eq. repeat split; try done; try lia.
    + rewrite !Forall_app, !Forall_singleton. done.
    + intros q db' c. rewrite lookup_insert. case_decide; [|by eauto].
      by intros [= <- <-].
    + change (close_count db (log_event (Committed db) p) = 0).
      rewrite close_count_log, decide_False by done. lia.
    + intros h Hin Hhdb.
      change (close_count h (log_event (Committed db) p) = 1).
      rewrite close_count_log, decide_False by done. rewrite Hoth; [lia|done..].
Qed.
Lemma run_inv path calls b hs0 p :
  registry_inv path b hs0 p → never_overdisconnects_from b calls = true →
  ∃ hs p', run path calls p = inr (hs, p') ∧
    registry_inv path (b + balance calls) (hs0 ++ hs) p'.
Proof.
  revert b hs0 p. induction calls as [|[] calls IH]; intros b hs0 p Hinv Hn.
  - exists [], p. split; [done|]. simpl.
    by rewrite Z.add_0_r, app_nil_r.
  - simpl in Hn. apply connect_inv in Hinv.
    destruct (IH _ _ _ Hinv Hn) as (hs & p' & Hrun & Hinv').
    simpl. destruct (connect path p) as [db p1]; simpl in *.
    rewrite Hrun. simpl. exists (db :: hs), p'. split; [done|].
    rewrite <-app_assoc in Hinv'; simpl in Hinv'.
    by rewrite Z.add_assoc.
  - simpl in Hn. apply andb_true_iff in Hn as [Hb%bool_decide_eq_true Hn].
    destruct (disconnect_inv _ _ _ _ Hinv Hb) as (p1 & Hd & Hinv1).
    destruct (IH _ _ _ Hinv1 Hn) as (hs & p' & Hrun & Hinv').
    simpl. rewrite Hd. simpl. exists hs, p'. split; [done|].
    replace (b + (-1 + balance calls))%Z with (b - 1 + balance calls)%Z
      by lia.
    done.
Qed.
End registry_facts.

(** C3 (as amended).  For a path without an entry and an interleaving of as
    many connects as disconnects that never disconnects more than it has
    connected: no call raises; at every intermediate point the entry, if
    present, holds a use count of at least one that equals the number of
    connections currently held, its handle is the one the latest connect
    returned, that handle is still open, and a further connect returns it
    with the count incremented; when no entry is present every handle handed
    out so far has been closed exactly once.  After the last disconnect the
    entry is gone and every handle handed out was closed exactly once. *)
Theorem refcount_interleaving (path : string)
    (calls : list Database_SQLite.call) (p0 : Database_SQLite.process) :
  Database_SQLite.wf p0 →
  Database_SQLite.database_connections p0 !! path = None →
  Database_SQLite.never_overdisconnects calls →
  Database_SQLite.balanced calls →
  (∀ pre, pre `prefix_of` calls →
     ∃ hs p, Database_SQLite.run path pre p0 = inr (hs, p) ∧
       match Database_SQLite.database_connections p !! path with
       | Some (db, count) =>
           count = Database_SQLite.balance pre ∧ (1 ≤ count)%Z ∧
           last hs = Some db ∧ Database_SQLite.close_count db p = 0 ∧
           Database_SQLite.connect path p
           = (db, Database_SQLite.set_connections
                    (<[path := (db, count + 1)%Z]>) p)
       | None =>
           Database_SQLite.balance pre = 0%Z ∧
           ∀ h, h ∈ hs → Database_SQLite.close_count h p = 1
       end) ∧
  ∃ hs p', Database_SQLite.run path calls p0 = inr (hs, p') ∧
    Database_SQLite.database_connections p' !! path = None ∧
    ∀ h, h ∈ hs → Database_SQLite.close_count h p' = 1.
Proof.
  intros Hwf Hnone Hn Hbal.
  assert (Database_SQLite.registry_inv path 0 [] p0) as Hinv.
  { split; [done|]. split; [done|]. rewrite Hnone. split; [done|].
    intros h Hin. by apply elem_of_nil in Hin. }
  split.
  - intros pre [post ->].
    apply never_overdisconnects_from_app in Hn.
    destruct (run_inv path pre 0 [] p0 Hinv Hn) as (hs & p & Hrun & Hinv').
    exists hs, p. split; [done|].
    destruct Hinv' as (_ & _ & Hcase). simpl in Hcase.
    destruct (Database_SQLite.database_connections p !! path)
      as [[db count]|] eqn:Hp.
    + destruct Hcase as (-> & ? & ? & ? & _).
      repeat split; try done; try lia.
      by apply connect_existing.
    + done.
  - destruct (run_inv path calls 0 [] p0 Hinv Hn) as (hs & p' & Hrun & Hinv').
    exists hs, p'. split; [done|].
    destruct Hinv' as (_ & _ & Hcase). simpl in Hcase.
    rewrite Hbal in Hcase.
    destruct (Database_SQLite.database_connections p' !! path)
      as [[db count]|].
    + destruct Hcase as (_ & ? & _). lia.
    + split; [done|]. apply Hcase.
Qed.

Lemma refcount_interleaving_witness :
  let calls := [Database_SQLite.Connect; Database_SQLite.Connect;
                Database_SQLite.Disconnect; Database_SQLite.Connect;
                Database_SQLite.Disconnect; Database_SQLite.Disconnect] in
  ∃ hs p', Database_SQLite.run "x.db" calls Database_SQLite.fresh_process
           = inr (hs, p') ∧
    Database_SQLite.database_connections p' !! "x.db" = None ∧
    ∀ h, h ∈ hs → Database_SQLite.close_count h p' = 1.
Proof.
  intros calls.
  refine (proj2 (refcount_interleaving "x.db" calls
                   Database_SQLite.fresh_process _ _ _ _)).
  - split; [apply Forall_nil_2|]. intros q db c. simpl.
    rewrite lookup_empty. discriminate.
  - apply lookup_empty.
  - reflexivity.
  - reflexivity.
Defined.

(** Two output parameters on the same store path: the second connect shares
    the handle of the first, and the handle is closed by the last
    disconnect only. *)
Example two_outputs_one_store :
  Database_SQLite.run "x.db"
    [Database_SQLite.Connect; Database_SQLite.Connect;
     Database_SQLite.Disconnect; Database_SQLite.Disconnect]
    Database_SQLite.fresh_process
  = inr ([0; 0],
         Database_SQLite.Process ∅ 1
           [Database_SQLite.Opened "x.db" 0;
            Database_SQLite.Committed 0; Database_SQLite.Committed 0;
            Database_SQLite.Closed 0]).
Proof. vm_compute. reflexivity. Qed.

(** C3 (as stated) fails: connect, disconnect, connect, disconnect never
    disconnects more than it connected, yet the second connect finds no entry
    and is handed a new handle, not the one of the first connect. *)
Lemma reconnect_after_close_gets_new_handle :
  let calls := [Database_SQLite.Connect; Database_SQLite.Disconnect;
                Database_SQLite.Connect; Database_SQLite.Disconnect] in
  Database_SQLite.never_overdisconnects calls ∧
  Database_SQLite.balanced calls ∧
  ¬ Database_SQLite.connects_share_handle "x.db" calls
      Database_SQLite.fresh_process.
Proof.
  intros calls. split; [reflexivity|]. split; [reflexivity|].
  intros Hshare.
  assert (Database_SQLite.run "x.db" calls Database_SQLite.fresh_process
          = inr ([0; 1],
                 Database_SQLite.Process ∅ 2
                   [Database_SQLite.Opened "x.db" 0;
                    Database_SQLite.Committed 0; Database_SQLite.Closed 0;
                    Database_SQLite.Opened "x.db" 1;
                    Database_SQLite.Committed 1; Database_SQLite.Closed 1]))
    as Hrun by (vm_compute; reflexivity).
  specialize (Hshare _ _ Hrun 0 1).
  assert (0 = 1) as Heq; [|discriminate Heq].
  apply Hshare; set_solver.
Qed.

(** ** Tables *)

Section table_facts.
Import Sqlite.

Lemma set_first {V} (k : string) (v : V) (d : PyDict.t V) :
  list_find (λ kv, kv.1 = k) (PyDict.set k v d) =
  Some (default (List.length d) (fst <$> list_find (λ kv, kv.1 = k) d),
        (k, v)).
Proof.
  induction d as [|[k' v'] d IH]; simpl.
  - by rewrite decide_True.
  - destruct (decide (k = k')) as [->|Hne]; simpl.
    + by rewrite !decide_True.
    + rewrite !(decide_False (P := k' = k)) by done.
      rewrite IH. simpl. by destruct (list_find _ d) as [[]|].
Qed.

Lemma bound_value_set (k : string) (v : value) (d : PyDict.t value) :
  bound_value (PyDict.set k v d).*1 (PyDict.set k v d).*2 k = v.
Proof.
  unfold bound_value. rewrite zip_fst_snd, set_first. done.
Qed.

Lemma column_index_lookup cname cols i :
  column_index cname cols = Some i →
  ∃ col, cols !! i = Some col ∧ col_name col = cname.
Proof.
  unfold column_index. intros H.
  destruct (list_find _ cols) as [[j col]|] eqn:Hf; [|done].
  simplify_eq/=. apply list_find_Some in Hf as (? & ? & _). eauto.
Qed.
End table_facts.

(** C4 (as amended).  An insert on a table that is not in output mode, or
    whose row -- the keyword arguments, updated with [data], plus the
    experiment column -- has a key set other than the declared field set,
    fails with [AssertionError], which the [assert] statements of
    [Table.insert] raise, and leaves the store as it was: no row is
    inserted. *)
Theorem insert_integrity (self : Table.t)
    (data : option (PyDict.t Sqlite.value)) (kwargs : PyDict.t Sqlite.value)
    (c : Sqlite.connection) :
  Table.read_only self = true ∨
  ¬ Table.keys_match self (Table.stamped_row self data kwargs) →
  Table.insert self data kwargs c = (inl AssertionError, c).
Proof.
  unfold Table.insert. intros [->|Hkeys]; [done|].
  destruct (Table.read_only self); [done|].
  by rewrite decide_False.
Qed.

Lemma insert_integrity_witness :
  let self := Table.init "out" "Exp" "Exp-0" "Exp-0" "{}"
                [Table.Plain "key"; Table.Plain "value"] None in
  Table.insert (Table.set_read_only false self)
    (Some [("key", Sqlite.Text "k")]) [] (Sqlite.Connection [] [])
  = (inl AssertionError, Sqlite.Connection [] []).
Proof.
  intros self. apply insert_integrity. right.
  apply (bool_decide_eq_false_1 _). vm_compute. reflexivity.
Defined.

(** C4 (as stated) fails: neither a row that lacks a declared column nor
    an insert on a table that is not in output mode ends in
    [IntegrityError], whatever its message; both end in
    [AssertionError]. *)
Lemma insert_failure_is_no_integrity_error :
  let self := Table.init "out" "Exp" "Exp-0" "Exp-0" "{}"
                [Table.Plain "key"; Table.Plain "value"] None in
  let c := Sqlite.Connection [] [] in
  let short := Some [("key", Sqlite.Text "k")] in
  let full := Some [("key", Sqlite.Text "k"); ("value", Sqlite.Text "v")] in
  Table.insert (Table.set_read_only false self) short [] c
  = (inl AssertionError, c) ∧
  Table.insert self full [] c = (inl AssertionError, c) ∧
  ∀ msg c',
    Table.insert (Table.set_read_only false self) short [] c
    ≠ (inl (IntegrityError msg), c') ∧
    Table.insert self full [] c ≠ (inl (IntegrityError msg), c').
Proof.
  intros self c short full.
  assert (Table.insert (Table.set_read_only false self) short [] c
          = (inl AssertionError, c)) as Hshort by (vm_compute; reflexivity).
  assert (Table.insert self full [] c = (inl AssertionError, c)) as Hfull
    by (vm_compute; reflexivity).
  split; [exact Hshort|]. split; [exact Hfull|].
  intros msg c'. rewrite Hshort, Hfull. split; discriminate.
Qed.

(** C9.  When [Table.insert] returns, the store differs from the one before
    by exactly one row appended to the table, and that row holds the
    identifier of the running experiment in its experiment column, whatever
    the caller passed under the key "experiment". *)
Theorem insert_stamps_experiment (self : Table.t)
    (data : option (PyDict.t Sqlite.value)) (kwargs : PyDict.t Sqlite.value)
    (c c' : Sqlite.connection) :
  Table.insert self data kwargs c = (inr tt, c') →
  ∃ sc db t i new,
    Sqlite.lookup_table (Table.table_name self) c = Some (sc, db, t) ∧
    Sqlite.column_index "experiment" (Sqlite.tbl_columns t) = Some i ∧
    new !! i = Some (Sqlite.Text (Table.dynamic_identifier self)) ∧
    c' = Sqlite.set_schema_db sc
           (Sqlite.alter_table (Table.table_name self)
              (λ _, Sqlite.Table (Sqlite.tbl_name t) (Sqlite.tbl_sql t)
                      (Sqlite.tbl_columns t) (Sqlite.tbl_rows t ++ [new]))
              db) c.
Proof.
  unfold Table.insert. destruct (Table.read_only self); [done|].
  destruct (decide _) as [Hkeys|]; [|done].
  set (row := Table.stamped_row self data kwargs) in *.
  unfold Sqlite.insert.
  destruct (Sqlite.lookup_table _ c) as [[[sc db] t]|]; [|done].
  destruct (decide (_ ≠ _)); [done|].
  destruct (decide (_ ⊆ _)) as [Hsub|]; [|done].
  destruct (Sqlite.violates_primary _ _ _); [done|].
  intros [= <-].
  assert ("experiment" ∈ row.*1) as Hin.
  { unfold row, Table.stamped_row.
    pose proof (set_first "experiment"
      (Sqlite.Text (Table.dynamic_identifier self))
      match data with
      | Some ((_ :: _) as data) => PyDict.update kwargs data
      | _ => kwargs
      end) as Hf.
    apply list_find_Some in Hf as (Hl & _ & _).
    apply list_elem_of_fmap. eexists; split; [|by eapply list_elem_of_lookup_2].
    done. }
  apply Hsub in Hin. apply list_elem_of_fmap in Hin as (col & Hname & Hcol).
  destruct (Sqlite.column_index "experiment" (Sqlite.tbl_columns t))
    as [i|] eqn:Hi.
  - exists sc, db, t, i. eexists. split; [done|]. split; [done|].
    split; [|done].
    apply column_index_lookup in Hi as (col' & Hi & Hn).
    apply list_lookup_fmap_Some. exists col'. split; [|done].
    simpl. rewrite Hn. symmetry. apply bound_value_set.
  - unfold Sqlite.column_index in Hi.
    destruct (list_find _ _) as [|] eqn:Hf; [done|].
    apply list_find_None in Hf. rewrite Forall_forall in Hf.
    by destruct (Hf col Hcol).
Qed.

Lemma insert_stamps_experiment_witness :
  let self := Table.set_read_only false
                (Table.init "out" "Exp" "Exp-0" "Exp-0" "{}"
                   [Table.Plain "key"] None) in
  let t0 := Sqlite.Table "Exp__out" "CREATE TABLE Exp__out (experiment text, key text)"
             [Sqlite.Column "experiment" "text" false;
              Sqlite.Column "key" "text" false] [] in
  ∃ sc db t i new,
    Sqlite.lookup_table (Table.table_name self) (Sqlite.Connection [t0] [])
      = Some (sc, db, t) ∧
    Sqlite.column_index "experiment" (Sqlite.tbl_columns t) = Some i ∧
    new !! i = Some (Sqlite.Text "Exp-0") ∧
    Sqlite.Connection
      [Sqlite.Table "Exp__out" "CREATE TABLE Exp__out (experiment text, key text)"
         [Sqlite.Column "experiment" "text" false;
          Sqlite.Column "key" "text" false]
         [[Sqlite.Text "Exp-0"; Sqlite.Text "k"]]] []
    = Sqlite.set_schema_db sc
        (Sqlite.alter_table (Table.table_name self)
           (λ _, Sqlite.Table (Sqlite.tbl_name t) (Sqlite.tbl_sql t)
                   (Sqlite.tbl_columns t) (Sqlite.tbl_rows t ++ [new]))
           db) (Sqlite.Connection [t0] []).
Proof.
  intros self t0.
  refine (insert_stamps_experiment self
            (Some [("experiment", Sqlite.Text "other");
                   ("key", Sqlite.Text "k")])
            [] (Sqlite.Connection [t0] [])
            (Sqlite.Connection
               [Sqlite.Table "Exp__out"
                  "CREATE TABLE Exp__out (experiment text, key text)"
                  [Sqlite.Column "experiment" "text" false;
                   Sqlite.Column "key" "text" false]
                  [[Sqlite.Text "Exp-0"; Sqlite.Text "k"]]] []) _).
  vm_compute. reflexivity.
Defined.

(** ** Merger *)

Section merger_facts.
Import Merger.

Lemma get_set_eq {V} (k : string) (v : V) (d : PyDict.t V) :
  PyDict.get k (PyDict.set k v d) = inr v.
Proof.
  induction d as [|[k' v'] d IH]; simpl.
  - by rewrite decide_True.
  - destruct (decide (k = k')) as [->|Hne]; simpl.
    + by rewrite decide_True.
    + by rewrite decide_False.
Qed.

Lemma get_set_ne {V} (k k' : string) (v : V) (d : PyDict.t V) :
  k' ≠ k → PyDict.get k' (PyDict.set k v d) = PyDict.get k' d.
Proof.
  intros Hne. induction d as [|[k0 v0] d IH]; simpl.
  - by rewrite decide_False.
  - destruct (decide (k = k0)) as [->|Hk]; simpl.
    + by rewrite !decide_False.
    + destruct (decide (k' = k0)); [done|apply IH].
Qed.

Lemma keys_set_new {V} (k : string) (v : V) (d : PyDict.t V) :
  k ∉ PyDict.keys d → PyDict.keys (PyDict.set k v d) = PyDict.keys d ++ [k].
Proof.
  unfold PyDict.keys. induction d as [|[k' v'] d IH]; simpl; [done|].
  intros Hk. apply not_elem_of_cons in Hk as [Hne Hk].
  rewrite decide_False by done. simpl. f_equal. by apply IH.
Qed.

(** A loop whose body either keeps an invariant or stops with [e] in a
    state satisfying [E]. *)
Lemma for_each_inv {S A} (I : list A → S → Prop) (E : S → Prop) (e : exn)
    (P : A → Prop) (body : A → io S unit) (xs : list A) :
  (∀ pre x s, P x → I pre s →
     (∃ s', body x s = (inr tt, s') ∧ I (pre ++ [x]) s') ∨
     (∃ s', body x s = (inl e, s') ∧ E s')) →
  Forall P xs →
  ∀ pre s, I pre s →
    (∃ s', for_each xs body s = (inr tt, s') ∧ I (pre ++ xs) s') ∨
    (∃ s', for_each xs body s = (inl e, s') ∧ E s').
Proof.
  intros Hbody HP. induction HP as [|x xs Hx _ IH]; intros pre s HI; simpl.
  - left. exists s. by rewrite app_nil_r.
  - unfold mbind, io_bind.
    destruct (Hbody pre x s Hx HI) as [(s' & -> & HI')|(s' & -> & HE)].
    + rewrite (assoc_L (++) pre [x] xs : pre ++ x :: xs = (pre ++ [x]) ++ xs).
      by apply IH.
    + right. by exists s'.
Qed.

Lemma register_table_spec (db : string) (table : Sqlite.table) (m : t)
    (seen : list Sqlite.table) :
  declared (target m) table →
  catalog_sound (target m) (tables m) →
  catalog_complete seen (tables m) →
  (∃ m', register_table db table m = (inr tt, m') ∧
     target m' = target m ∧ source_paths m' = source_paths m ∧
     output m' = output m ∧
     catalog_sound (target m) (tables m') ∧
     catalog_complete (seen ++ [table]) (tables m')) ∨
  (∃ m', register_table db table m = (inl (SystemExit (-1)), m') ∧
     target m' = target m ∧
     output m' = output m ++ [conflict_message (Sqlite.tbl_name table)] ∧
     schema_conflict (Sqlite.tbl_name table) (target m)).
Proof.
  intros Hdecl Hsound Hcompl. unfold register_table.
  unfold mbind, io_bind, get_state.
  destruct (PyDict.get (Sqlite.tbl_name table) (tables m))
    as [err|known] eqn:Hget.
  - left. eexists. split; [done|]. simpl. repeat split; try done.
    + intros n e. destruct (decide (n = Sqlite.tbl_name table)) as [->|Hne].
      * rewrite get_set_eq. intros [= <-]. by exists table.
      * rewrite get_set_ne by done. apply Hsound.
    + intros t' [Hin|Hin%list_elem_of_singleton]%elem_of_app.
      * destruct (Hcompl t' Hin) as (e & He & Hsql).
        destruct (decide (Sqlite.tbl_name t' = Sqlite.tbl_name table))
          as [Heq|Hne]; [by rewrite Heq, Hget in He|].
        exists e. by rewrite get_set_ne.
      * subst t'. eexists. by rewrite get_set_eq.
  - destruct (decide (e_sql known ≠ Sqlite.tbl_sql table)) as [Hdiff|Hsame].
    + right. eexists. split; [done|]. simpl. repeat split; try done.
      destruct (Hsound _ _ Hget) as (t' & (a' & db' & Ha' & Ht') & Hn & Hs).
      destruct Hdecl as (a & db0 & Ha & Ht).
      exists a', db', t', a, db0, table. repeat split; try done. congruence.
    + left. apply dec_stable in Hsame.
      eexists. split; [done|]. simpl. repeat split; try done.
      * intros n e. destruct (decide (n = Sqlite.tbl_name table)) as [->|Hne].
        -- rewrite get_set_eq. intros [= <-]. exists table. by simpl.
        -- rewrite get_set_ne by done. apply Hsound.
      * intros t' [Hin|Hin%list_elem_of_singleton]%elem_of_app.
        -- destruct (Hcompl t' Hin) as (e & He & Hsql).
           destruct (decide (Sqlite.tbl_name t' = Sqlite.tbl_name table))
             as [Heq|Hne].
           ++ rewrite Heq, Hget in He. simplify_eq.
              eexists. rewrite Heq, get_set_eq. split; [done|]. simpl.
              congruence.
           ++ exists e. by rewrite get_set_ne.
        -- subst t'. eexists. by rewrite get_set_eq.
Qed.
Lemma schema_db_attached (c : Sqlite.connection) (a : string) :
  a ∈ (Sqlite.attached c).*1 →
  ∃ db, Sqlite.schema_db (Sqlite.Attached a) c = Some db ∧
        (a, db) ∈ Sqlite.attached c.
Proof.
  intros (ad & -> & Hin)%list_elem_of_fmap. simpl.
  destruct (list_find (λ ad', ad'.1 = ad.1) (Sqlite.attached c))
    as [[i [a' db']]|] eqn:Hf.
  - apply list_find_Some in Hf as (Hi & Ha & _). simpl in Ha. subst a'.
    exists db'. split; [done|]. by eapply list_elem_of_lookup_2.
  - apply list_find_None in Hf. rewrite Forall_forall in Hf.
    by destruct (Hf ad Hin).
Qed.

Lemma schema_db_attached_nodup (c : Sqlite.connection) a db :
  NoDup (Sqlite.attached c).*1 → (a, db) ∈ Sqlite.attached c →
  Sqlite.schema_db (Sqlite.Attached a) c = Some db.
Proof.
  intros Hnd Hin.
  destruct (schema_db_attached c a) as (db' & Hdb & Hin').
  { apply list_elem_of_fmap. by exists (a, db). }
  rewrite Hdb. f_equal.
  apply list_elem_of_lookup in Hin as [i Hi].
  apply list_elem_of_lookup in Hin' as [j Hj].
  assert (i = j) as ->; [|congruence].
  eapply NoDup_lookup; [exact Hnd| |]; rewrite list_lookup_fmap.
  - by rewrite Hi.
  - by rewrite Hj.
Qed.

Lemma tables_of_snoc c pre a :
  tables_of c (pre ++ [a])
  = tables_of c pre ++ default [] (Sqlite.schema_db (Sqlite.Attached a) c).
Proof.
  unfold tables_of. rewrite bind_app. simpl. by rewrite app_nil_r.
Qed.

Lemma collect_tables_spec (m : t) :
  attached_sources m →
  (∃ m', collect_tables m = (inr tt, m') ∧
     catalog_complete (tables_of (target m) (PyDict.keys (source_paths m)))
       (tables m')) ∨
  (∃ m' n, collect_tables m = (inl (SystemExit (-1)), m') ∧
     target m' = target m ∧
     output m' = output m ++ [conflict_message n] ∧
     schema_conflict n (target m)).
Proof.
  intros [Hkeys Hnd].
  replace (collect_tables m) with
    (for_each (PyDict.keys (source_paths m))
       (λ db : string,
          execute (Sqlite.sqlite_master db)
          ≫= λ rows : list Sqlite.table, for_each rows (register_table db))
       (Make (target m) (source_paths m) [] (output m))) by done.
  set (c0 := target m). set (out0 := output m).
  set (I := λ (pre : list string) (s : t),
         target s = c0 ∧ output s = out0 ∧
         catalog_sound c0 (tables s) ∧
         catalog_complete (tables_of c0 pre) (tables s)).
  set (E := λ s : t, target s = c0 ∧
         ∃ n, output s = out0 ++ [conflict_message n] ∧ schema_conflict n c0).
  set (body := λ db : string,
         execute (Sqlite.sqlite_master db)
         ≫= λ rows : list Sqlite.table, for_each rows (register_table db)).
  assert (∀ pre a s, a ∈ (Sqlite.attached c0).*1 → I pre s →
            (∃ s', body a s = (inr tt, s') ∧ I (pre ++ [a]) s') ∨
            (∃ s', body a s = (inl (SystemExit (-1)), s') ∧ E s')) as Hbody.
  { clear. intros pre a s Ha (Ht & Hout & Hsound & Hcompl).
    destruct (schema_db_attached c0 a Ha) as (db & Hdb & Hin).
    unfold body, mbind, io_bind, execute, Sqlite.sqlite_master.
    rewrite Ht, Hdb.
    replace (Make c0 (source_paths s) (tables s) (output s)) with s
      by (destruct s; simpl in *; congruence).
    set (I' := λ (rows : list Sqlite.table) (s' : t),
           target s' = c0 ∧ output s' = out0 ∧
           catalog_sound c0 (tables s') ∧
           catalog_complete (tables_of c0 pre ++ rows) (tables s')).
    assert (∀ rows t' s', t' ∈ db → I' rows s' →
              (∃ s'', register_table a t' s' = (inr tt, s'') ∧
                 I' (rows ++ [t']) s'') ∨
              (∃ s'', register_table a t' s' = (inl (SystemExit (-1)), s'') ∧
                 E s'')) as Hinner.
    { clear -Hin. intros rows t' s' Hin' (Ht & Hout & Hsound & Hcompl).
      destruct (register_table_spec a t' s' (tables_of c0 pre ++ rows))
        as [(s'' & Hr & ? & ? & ? & ? & ?)|(s'' & Hr & ? & ? & ?)].
      - exists a, db. by rewrite Ht.
      - by rewrite Ht.
      - done.
      - left. exists s''. split; [done|]. repeat split; try congruence.
        + by rewrite <-Ht.
        + by rewrite (assoc_L (++)).
      - right. exists s''. split; [done|]. split; [congruence|].
        eexists. split; [by rewrite <-Hout|]. by rewrite <-Ht. }
    assert (I' [] s) as HI0.
    { repeat split; try done. by rewrite app_nil_r. }
    destruct (for_each_inv I' E (SystemExit (-1)) (λ t', t' ∈ db)
                (register_table a) db Hinner
                (proj2 (Forall_forall _ _) (λ _ H, H)) [] s HI0)
      as [(s' & Hrun & HI')|(s' & Hrun & HE)].
    - left. exists s'. split; [done|].
      destruct HI' as (? & ? & ? & Hc). repeat split; try done.
      rewrite tables_of_snoc, Hdb. exact Hc.
    - right. by exists s'. }
  assert (Forall (λ a, a ∈ (Sqlite.attached c0).*1)
            (PyDict.keys (source_paths m))) as HP.
  { rewrite Forall_forall. intros a Ha. by rewrite Hkeys in Ha. }
  assert (I [] (Make (target m) (source_paths m) [] (output m))) as HI0.
  { split; [done|]. split; [done|]. split.
    - intros n e. simpl. discriminate.
    - intros t' Hin. by apply elem_of_nil in Hin. }
  destruct (for_each_inv I E (SystemExit (-1)) _ body _ Hbody HP [] _ HI0)
    as [(m' & Hrun & HI)|(m' & Hrun & HE)].
  - left. exists m'. split; [exact Hrun|].
    destruct HI as (_ & _ & _ & Hcompl). exact Hcompl.
  - right. destruct HE as (Ht & n & Hout & Hc). exists m', n.
    split; [exact Hrun|done].
Qed.

Lemma collect_tables_conflict (m : t) (name : string) :
  attached_sources m → schema_conflict name (target m) →
  ∃ m' n, collect_and_create_tables m = (inl (SystemExit (-1)), m') ∧
    target m' = target m ∧
    output m' = output m ++ [conflict_message n] ∧
    schema_conflict n (target m).
Proof.
  intros Hatt Hconf.
  destruct (collect_tables_spec m Hatt) as
    [(m' & Hrun & Hcompl)|(m' & n & Hrun & ?)].
  - exfalso. destruct Hatt as [Hkeys Hnd].
    destruct Hconf as (a1 & db1 & t1 & a2 & db2 & t2 &
                       Ha1 & Ht1 & Ha2 & Ht2 & Hn1 & Hn2 & Hsql).
    assert (∀ a db t', (a, db) ∈ Sqlite.attached (target m) → t' ∈ db →
              t' ∈ tables_of (target m) (PyDict.keys (source_paths m)))
      as Hall.
    { intros a db t' Ha Ht'. unfold tables_of. apply list_elem_of_bind.
      exists a. rewrite (schema_db_attached_nodup _ _ _ Hnd Ha). split; [done|].
      rewrite Hkeys. apply list_elem_of_fmap. by exists (a, db). }
    destruct (Hcompl t1 (Hall _ _ _ Ha1 Ht1)) as (e1 & He1 & Hs1).
    destruct (Hcompl t2 (Hall _ _ _ Ha2 Ht2)) as (e2 & He2 & Hs2).
    rewrite Hn1 in He1. rewrite Hn2 in He2. congruence.
  - exists m', n. split; [|done].
    unfold collect_and_create_tables, collect_and_create_tables_in.
    unfold mbind, io_bind. by rewrite Hrun.
Qed.
Global Instance alias_of_inj : Inj (=) (=) alias_of.
Proof.
  intros i j Heq. unfold alias_of in Heq.
  apply (inj (String.append "db_")) in Heq. by apply (inj pretty) in Heq.
Qed.

Lemma attach_sources_spec (fs : gmap string Sqlite.database)
    (sources : list string) :
  Forall (λ s, is_Some (fs !! s)) sources →
  Forall (λ s, ¬ Sqlite.has_quote s) sources →
  ∀ n m,
    (n + List.length sources ≤ Sqlite.max_attached)%nat →
    PyDict.keys (source_paths m) = (Sqlite.attached (target m)).*1 →
    (Sqlite.attached (target m)).*1 = alias_of <$> seq 0 n →
    ∃ m', attach_sources fs n sources m = (inr tt, m') ∧
      Sqlite.main (target m') = Sqlite.main (target m) ∧
      Sqlite.attached (target m')
      = Sqlite.attached (target m)
        ++ zip (alias_of <$> seq n (List.length sources))
               ((λ s, default [] (fs !! s)) <$> sources) ∧
      PyDict.keys (source_paths m') = (Sqlite.attached (target m')).*1 ∧
      (Sqlite.attached (target m')).*1
      = alias_of <$> seq 0 (n + List.length sources).
Proof.
  induction 1 as [|s sources [db Hs] _ IH];
    intros Hquote n m Hmax Hkeys Hal.
  - exists m. simpl. rewrite app_nil_r, Nat.add_0_r. done.
  - apply Forall_cons in Hquote as [Hq Hquote]. simpl in Hmax.
    assert (alias_of n ∉ (Sqlite.attached (target m)).*1) as Hfresh.
    { rewrite Hal. intros (i & Hi & Hin)%list_elem_of_fmap.
      apply (inj alias_of) in Hi. subst i. apply elem_of_seq in Hin. lia. }
    assert (List.length (Sqlite.attached (target m)) = n) as Hlen.
    { rewrite <-(length_fmap fst), Hal, length_fmap. apply length_seq. }
    set (m1 := Make
             (Sqlite.Connection (Sqlite.main (target m))
                (Sqlite.attached (target m) ++ [(alias_of n, db)]))
             (PyDict.set (alias_of n) s (source_paths m)) (tables m)
             (output m ++ ["merger: " +:+ "attached " +:+ s +:+ " as "
                           +:+ alias_of n])).
    assert (attach_sources fs n (s :: sources) m
            = attach_sources fs (S n) sources m1) as ->.
    { simpl. rewrite Hs. unfold mbind at 1, io_bind at 1.
      unfold execute at 1, Sqlite.attach.
      rewrite decide_False by done.
      rewrite decide_False by (unfold Sqlite.max_attached in *; lia).
      by rewrite decide_False by done. }
    destruct (IH Hquote (S n) m1) as (m' & Hrun & Hmain & Hatt & Hkeys' & Hal').
    + lia.
    + unfold m1. simpl. rewrite fmap_app. simpl. rewrite <-Hkeys.
      apply keys_set_new. by rewrite Hkeys.
    + rewrite seq_S. unfold m1. simpl. rewrite !fmap_app, Hal. done.
    + exists m'. split; [exact Hrun|]. split; [by rewrite Hmain|].
      split; [|split; [done|]].
      * rewrite Hatt. unfold m1. cbn [target Sqlite.attached].
        rewrite <-(assoc_L (++)). f_equal.
        cbn [List.length seq fmap list_fmap zip zip_with app].
        unfold Sqlite.database in *. by rewrite Hs.
      * rewrite Hal'. f_equal. f_equal. simpl. lia.
Qed.

(** What the loop leaves when it returns. *)
Lemma attach_sources_returns (fs : gmap string Sqlite.database)
    (sources : list string) :
  ∀ n m m',
    attach_sources fs n sources m = (inr tt, m') →
    PyDict.keys (source_paths m) = (Sqlite.attached (target m)).*1 →
    (Sqlite.attached (target m)).*1 = alias_of <$> seq 0 n →
    Sqlite.main (target m') = Sqlite.main (target m) ∧
    PyDict.keys (source_paths m') = (Sqlite.attached (target m')).*1 ∧
    (Sqlite.attached (target m')).*1
    = alias_of <$> seq 0 (n + List.length sources).
Proof.
  induction sources as [|s sources IH]; intros n m m' Hrun Hkeys Hal.
  - simpl in Hrun. injection Hrun as <-. by rewrite Nat.add_0_r.
  - simpl in Hrun. destruct (fs !! s) as [db|]; [|done].
    unfold mbind at 1, io_bind at 1 in Hrun.
    unfold execute at 1, Sqlite.attach in Hrun.
    destruct (decide (Sqlite.has_quote s)); [done|].
    destruct (decide (_ ≤ _)%nat); [done|].
    destruct (decide (alias_of n ∈ _)) as [|Hfresh]; [done|].
    unfold mbind, io_bind in Hrun. simpl in Hrun.
    apply IH in Hrun as (Hmain & Hkeys' & Hal').
    + split; [exact Hmain|]. split; [exact Hkeys'|].
      rewrite Hal'. f_equal. f_equal. simpl. lia.
    + simpl. rewrite fmap_app. simpl. rewrite <-Hkeys.
      apply keys_set_new. by rewrite Hkeys.
    + cbn [target Sqlite.attached]. rewrite seq_S, !fmap_app, Hal. done.
Qed.
End merger_facts.

(** C7 (as amended).  When two of the sources declare a table of the same
    name with different creation statements, the merge stops with exit
    status -1 while it still builds its catalog: the last line printed names
    a table that two sources declare differently, and the target holds
    exactly the tables and rows it held before -- nothing is dropped,
    created or copied, so the target is without the table unless it already
    had one; the sources are left as they were.  This is for sources that
    can all be attached (they exist, there are at most ten of them and no
    path holds a quote) and whose table names hold no percent sign, which
    the report, formatted twice, would take for a conversion. *)
Theorem merge_schema_conflict (fs : gmap string Sqlite.database)
    (target_path : string) (sources : list string) (s1 s2 : string)
    (db1 db2 : Sqlite.database) (t1 t2 : Sqlite.table) :
  Forall (λ s, is_Some (fs !! s)) sources →
  Forall (λ s, ¬ Sqlite.has_quote s) sources →
  (List.length sources ≤ Sqlite.max_attached)%nat →
  Forall (λ s, Forall (λ t, "%"%char ∉ Identity.chars (Sqlite.tbl_name t))
                 (default [] (fs !! s))) sources →
  s1 ∈ sources → fs !! s1 = Some db1 → t1 ∈ db1 →
  s2 ∈ sources → fs !! s2 = Some db2 → t2 ∈ db2 →
  Sqlite.tbl_name t1 = Sqlite.tbl_name t2 →
  Sqlite.tbl_sql t1 ≠ Sqlite.tbl_sql t2 →
  ∃ m reported,
    Merger.merge fs target_path sources = (inl (SystemExit (-1)), m) ∧
    last (Merger.output m) = Some (Merger.conflict_message reported) ∧
    Merger.schema_conflict reported (Merger.target m) ∧
    Sqlite.main (Merger.target m) = default [] (fs !! target_path) ∧
    (Sqlite.attached (Merger.target m)).*2
    = (λ s, default [] (fs !! s)) <$> sources.
Proof.
  intros Hex Hquote Hmax _ Hs1 Hdb1 Ht1 Hs2 Hdb2 Ht2 Hname Hsql.
  destruct (attach_sources_spec fs sources Hex Hquote 0
              (Merger.connect_target fs target_path))
    as (m0 & Hrun0 & Hmain & Hatt & Hkeys & Hal); [done..|].
  simpl in Hmain, Hatt, Hal.
  assert (Merger.attached_sources m0) as Hsrc.
  { split; [by rewrite Hkeys|]. rewrite Hal. apply (NoDup_fmap _), NoDup_seq. }
  assert (∀ s db, s ∈ sources → fs !! s = Some db →
            ∃ a, (a, db) ∈ Sqlite.attached (Merger.target m0)) as Hin.
  { intros s db [i Hi]%list_elem_of_lookup Hdb.
    exists (Merger.alias_of i). rewrite Hatt.
    apply list_elem_of_lookup. exists i. apply lookup_zip_with_Some.
    exists (Merger.alias_of i), db. split; [done|]. split.
    - rewrite list_lookup_fmap, lookup_seq_lt; [done|].
      by eapply lookup_lt_Some.
    - rewrite list_lookup_fmap, Hi. simpl.
      unfold Sqlite.database in *. by rewrite Hdb. }
  destruct (Hin _ _ Hs1 Hdb1) as [a1 Ha1].
  destruct (Hin _ _ Hs2 Hdb2) as [a2 Ha2].
  destruct (collect_tables_conflict m0 (Sqlite.tbl_name t1))
    as (m & reported & Hrun & Htarget & Hout & Hconf); [done| |].
  { exists a1, db1, t1, a2, db2, t2. repeat split; done. }
  exists m, reported. split.
  { unfold Merger.merge, mbind, io_bind. by rewrite Hrun0, Hrun. }
  rewrite Htarget, Hout, last_snoc, Hmain, Hatt. repeat split; try done.
  rewrite snd_zip; [done|]. rewrite !length_fmap, length_seq. done.
Qed.

Lemma merge_schema_conflict_witness :
  ∃ m reported,
    Merger.merge Scenario.fresh_fs "t.db" ["a.db"; "c.db"]
    = (inl (SystemExit (-1)), m) ∧
    last (Merger.output m) = Some (Merger.conflict_message reported) ∧
    Merger.schema_conflict reported (Merger.target m) ∧
    Sqlite.main (Merger.target m) = default [] (Scenario.fresh_fs !! "t.db") ∧
    (Sqlite.attached (Merger.target m)).*2
    = (λ s, default [] (Scenario.fresh_fs !! s)) <$> ["a.db"; "c.db"].
Proof.
  apply (merge_schema_conflict Scenario.fresh_fs "t.db" ["a.db"; "c.db"]
           "a.db" "c.db" Scenario.A Scenario.C
           (Scenario.T Scenario.text_fields
              [Scenario.r "k1" "v1"; Scenario.r "k2" "v2"])
           (Scenario.T Scenario.integer_fields [])).
  - apply (bool_decide_unpack _). vm_compute. reflexivity.
  - apply (bool_decide_unpack _). vm_compute. reflexivity.
  - apply (bool_decide_unpack _). vm_compute. reflexivity.
  - apply (bool_decide_unpack _). vm_compute. reflexivity.
  - apply (bool_decide_unpack _). vm_compute. reflexivity.
  - vm_compute. reflexivity.
  - apply (bool_decide_unpack _). vm_compute. reflexivity.
  - apply (bool_decide_unpack _). vm_compute. reflexivity.
  - vm_compute. reflexivity.
  - apply (bool_decide_unpack _). vm_compute. reflexivity.
  - reflexivity.
  - apply (bool_decide_unpack _). vm_compute. reflexivity.
Defined.

(** C7 (as stated) fails for a target that already holds a table [T]: the
    merge stops on the conflict between the sources before it drops
    anything, so the target still has its table [T] afterwards. *)
Lemma schema_conflict_keeps_stale_table :
  ∃ m, Merger.merge Scenario.stale_fs "t.db" ["a.db"; "c.db"]
       = (inl (SystemExit (-1)), m) ∧
    last (Merger.output m)
    = Some "merger: Two tables with different defintions found: T" ∧
    Merger.target_rows "T" m = Some [Scenario.r "k0" "v0"].
Proof. eexists. split; [vm_compute; reflexivity|]. split; reflexivity. Qed.

(** C6.  With sources A and B of the specification's scenario and a target
    file that does not exist yet, the merge raises: [DROP TABLE T] finds no
    table [T] in the target and removes the one of the first source
    instead, after which [SELECT * FROM db_0.T] fails.  The target is left
    with an empty table [T] and source A without its table. *)
Theorem merge_into_fresh_target_fails :
  ∃ m, Merger.merge Scenario.fresh_fs "t.db" ["a.db"; "b.db"]
       = (inl (OperationalError "no such table: db_0.T"), m) ∧
    Merger.target_rows "T" m = Some [] ∧
    Sqlite.schema_db (Sqlite.Attached "db_0") (Merger.target m) = Some [] ∧
    Sqlite.schema_db (Sqlite.Attached "db_1") (Merger.target m)
    = Some Scenario.B.
Proof. eexists. split; [vm_compute; reflexivity|]. repeat split. Qed.

(** The same sources merged into a target that already holds a table [T]:
    the stale table is replaced by the three distinct rows. *)
Example merge_into_stale_target :
  ∃ m rows,
    Merger.merge Scenario.stale_fs "t.db" ["a.db"; "b.db"] = (inr tt, m) ∧
    Merger.target_rows "T" m = Some rows ∧
    rows ≡ₚ [Scenario.r "k1" "v1"; Scenario.r "k2" "v2"; Scenario.r "k3" "v3"].
Proof.
  eexists _, _. split; [vm_compute; reflexivity|]. split; reflexivity.
Qed.

(** The same sources merged into a target that does not exist yet, when
    the process may not write them (they are the read-only files that
    [after_experiment_run] leaves and the process is not root): the drop
    fails, is ignored, and the three distinct rows reach the target. *)
Example merge_read_only_sources :
  ∃ m rows,
    Merger.merge_in ["a.db"; "b.db"] Scenario.fresh_fs "t.db"
      ["a.db"; "b.db"] = (inr tt, m) ∧
    Merger.target_rows "T" m = Some rows ∧
    rows ≡ₚ [Scenario.r "k1" "v1"; Scenario.r "k2" "v2"; Scenario.r "k3" "v3"] ∧
    Sqlite.schema_db (Sqlite.Attached "db_0") (Merger.target m)
    = Some Scenario.A.
Proof.
  eexists _, _. split; [vm_compute; reflexivity|]. repeat split; reflexivity.
Qed.

(** An unqualified [DROP TABLE] reaches into an attached source whenever
    the main database has no table of that name. *)
Lemma drop_table_resolves_to_source (name : string) (c : Sqlite.connection) :
  Sqlite.find_table name (Sqlite.main c) = None →
  ∀ c', Sqlite.drop_table name c = (inr tt, c') →
    Sqlite.main c' = Sqlite.main c.
Proof.
  intros Hmain c'.
  unfold Sqlite.drop_table, Sqlite.drop_table_in, Sqlite.resolve.
  rewrite Hmain.
  destruct (list_find _ (Sqlite.attached c)) as [[i [a db]]|]; simpl; [|done].
  destruct (list_find _ _) as [?|]; simpl; [|done].
  by intros [= <-].
Qed.

(** ** Lifecycle *)

Section lifecycle_facts.
Import Experiment.
Context {U : Type}.

Lemma wp_bind {A B} (m : io (U * list entry) A) (f : A → io (U * list entry) B)
    (Q1 : result A → list entry → Prop) (Q : result B → list entry → Prop) :
  wp m Q1 →
  (∀ e k1, Q1 (inl e) k1 → Q (inl e) k1) →
  (∀ a k1, Q1 (inr a) k1 → wp (f a) (λ r k2, Q r (k1 ++ k2))) →
  wp (m ≫= f) Q.
Proof.
  intros Hm Herr Hf s. unfold mbind, io_bind.
  destruct (Hm s) as (k1 & Hk1 & HQ1).
  destruct (m s) as [[e|a] s1]; simpl in *.
  - exists k1. split; [done|]. by apply Herr.
  - destruct (Hf a k1 HQ1 s1) as (k2 & Hk2 & HQ).
    exists (k1 ++ k2). split; [|done].
    by rewrite Hk2, Hk1, (assoc_L (++)).
Qed.

Lemma wp_mono {A} (m : io (U * list entry) A)
    (Q Q' : result A → list entry → Prop) :
  wp m Q → (∀ r k, Q r k → Q' r k) → wp m Q'.
Proof.
  intros Hm HQ s. destruct (Hm s) as (k & ? & ?). exists k. auto.
Qed.

Lemma wp_and {A} (m : io (U * list entry) A)
    (Q Q' : result A → list entry → Prop) :
  wp m Q → wp m Q' → wp m (λ r k, Q r k ∧ Q' r k).
Proof.
  intros Hm Hm' s. destruct (Hm s) as (k & Hk & ?).
  destruct (Hm' s) as (k' & Hk' & ?). exists k. split; [done|].
  split; [done|]. rewrite Hk in Hk'. by apply app_inv_head in Hk' as ->.
Qed.

Lemma wp_ret {A} (a : A) :
  wp (U := U) (mret a) (λ r k, r = inr a ∧ k = []).
Proof. intros s. exists []. by rewrite app_nil_r. Qed.

Lemma wp_throw {A} (e : exn) :
  wp (U := U) (throw (A := A) e) (λ r k, r = inl e ∧ k = []).
Proof. intros s. exists []. by rewrite app_nil_r. Qed.

Lemma wp_lift_result {A} (x : result A) :
  wp (U := U) (lift_result x) (λ r k, r = x ∧ k = []).
Proof. intros s. exists []. by rewrite app_nil_r. Qed.

(** An observed collaborator adds one entry: its call and how it ended in
    the world it was called in. *)
Lemma wp_observe {A} (c : call) (info : A → option (PyDict.t string))
    (m : io U A) :
  wp (observe c info m)
     (λ r k, (∃ u, r = (m u).1) ∧ k = [(c, outcome_of info r)]).
Proof.
  intros s. unfold observe. destruct (m s.1) as [r u] eqn:Hm. simpl.
  eexists. split; [done|]. split; [|done]. exists s.1. by rewrite Hm.
Qed.

Lemma succeeds_inl {A} (e : exn) : ¬ succeeds (inl e : result A).
Proof. by intros [? ?]. Qed.

Lemma succeeds_inr {A} (a : A) : succeeds (inr a : result A).
Proof. by exists a. Qed.

(** *** Parts of a run, one after another *)

Lemma completed_nil : completed [] [].
Proof. by split. Qed.

Lemma completed_app (k1 k2 : list entry) (E1 E2 : list call) :
  completed k1 E1 → completed k2 E2 → completed (k1 ++ k2) (E1 ++ E2).
Proof.
  intros [<- H1] [<- H2]. split; [by rewrite fmap_app|].
  by apply Forall_app.
Qed.

Lemma stopped_app (e : exn) (k1 k2 : list entry) (E1 E2 : list call) :
  completed k1 E1 → stopped e k2 E2 → stopped e (k1 ++ k2) (E1 ++ E2).
Proof.
  intros [<- H1] (before & c & -> & H2 & Hpre).
  exists (k1 ++ before), c. split; [by rewrite (assoc_L (++))|].
  split; [by apply Forall_app|].
  rewrite fmap_app, <- (assoc_L (++)). by apply prefix_app.
Qed.

Lemma stopped_weaken (e : exn) (k : list entry) (E1 E2 : list call) :
  stopped e k E1 → stopped e k (E1 ++ E2).
Proof.
  intros (before & c & -> & H & Hpre). exists before, c.
  split; [done|]. split; [done|]. by apply prefix_app_r.
Qed.

Lemma completed_prefix (k : list entry) (E : list call) :
  completed k E → k.*1 `prefix_of` E.
Proof. by intros [<- _]. Qed.

Lemma stopped_prefix (e : exn) (k : list entry) (E : list call) :
  stopped e k E → k.*1 `prefix_of` E.
Proof.
  intros (before & c & -> & _ & Hpre). by rewrite fmap_app.
Qed.

Lemma ends_observe {A} (c : call) (info : A → option (PyDict.t string))
    (r : result A) :
  ends r [(c, outcome_of info r)] [c].
Proof.
  destruct r as [e|a]; simpl.
  - exists [], c. by repeat split.
  - split; [done|]. apply Forall_cons_2; [by eexists|apply Forall_nil_2].
Qed.

Lemma wp_observe_ends {A} (c : call) (info : A → option (PyDict.t string))
    (m : io U A) :
  wp (observe c info m) (λ r k, ends r k [c]).
Proof.
  eapply wp_mono; [apply wp_observe|]. intros r k [_ ->].
  apply ends_observe.
Qed.

Lemma wp_then {A B} (m : io (U * list entry) A)
    (f : A → io (U * list entry) B) (E1 E2 : list call) :
  wp m (λ r k, ends r k E1) →
  (∀ a, wp (f a) (λ r k, ends r k E2)) →
  wp (m ≫= f) (λ r k, ends r k (E1 ++ E2)).
Proof.
  intros Hm Hf. eapply wp_bind; [exact Hm| |].
  - intros e k1 H. by apply stopped_weaken.
  - intros a k1 H1. eapply wp_mono; [apply Hf|].
    intros [e|b] k2 H2; simpl in *.
    + by apply stopped_app.
    + by apply completed_app.
Qed.

(** A loop over [names] that calls one collaborator for each. *)
Lemma wp_for_each_observe (names : list string) (E : string → call)
    (c : string → io U unit) :
  wp (for_each names (λ name, observe (E name) silent (c name)))
     (λ r k, ends r k (E <$> names)).
Proof.
  induction names as [|name names IH]; simpl.
  - eapply wp_mono; [apply wp_ret|]. intros r k [-> ->].
    apply completed_nil.
  - apply (wp_then _ _ [E name] (E <$> names)); [apply wp_observe_ends|].
    intros _. apply IH.
Qed.

Lemma metadata_of_app (k1 k2 : list entry) :
  metadata_of (k1 ++ k2) = metadata_of k1 ++ metadata_of k2.
Proof. apply omap_app. Qed.

(** Only the [inp_metadata] hooks contribute metadata. *)
Lemma metadata_of_other (k : list entry) :
  Forall (λ c, ∀ name, c ≠ InputMetadata name) k.*1 → metadata_of k = [].
Proof.
  induction k as [|[c o] k IH]; [done|]. rewrite fmap_cons, Forall_cons.
  intros [Hc Hk]. unfold metadata_of. simpl.
  destruct c; try (by apply IH). by destruct (Hc name).
Qed.

Lemma metadata_of_completed (k : list entry) (E : list call) :
  completed k E → Forall (λ c, ∀ name, c ≠ InputMetadata name) E →
  metadata_of k = [].
Proof. intros [<- _]. apply metadata_of_other. Qed.

Context {Opts : Type}.
Variable parse_args : list string → io U (Opts * list string * string).
Variable do_list : Opts → bool.
Variable list_results : string → io U unit.
Variable hasattr : Opts → string → bool.
Variable setattr : Opts → string → string → Opts.
Variable setup_tmp_directory : string → io U unit.
Variable remove_tmp_directory : io U unit.
Variable inp_extract_cmdline_parser :
  string → Opts → list string → io U (option (Opts * list string)).
Variable inp_metadata : string → io U (PyDict.t string).
Variable outp_setup_output : string → string → io U unit.
Variable outp_tear_down_output : string → io U unit.
Variable run : io U unit.
Variable hexdigest : string → string.
Variable path_join : string → string → string.
Variable path_exists : string → io U bool.
Variable rmtree : string → io U unit.
Variable mkdir : string → io U unit.
Variable write_metadata : string → PyDict.t string → io U unit.

Lemma wp_apply_kwargs (opts : Opts) (kwargs : list (string * string)) :
  wp (apply_kwargs (U * list entry) Opts hasattr setattr opts kwargs)
     (λ r k, k = [] ∧ ∀ e, r = inl e → e = AttributeError).
Proof.
  revert opts. induction kwargs as [|[key v] kwargs IH]; intros opts; simpl.
  - eapply wp_mono; [apply wp_ret|]. by intros r k [-> ->].
  - destruct (hasattr opts key); [apply IH|].
    eapply wp_mono; [apply wp_throw|]. intros r k [-> ->].
    split; [done|]. by intros ? [= <-].
Qed.

Lemma wp_extract_inputs (names : list string) (opts : Opts)
    (args : list string) :
  wp (extract_inputs (U * list entry) Opts
        (λ name opts args,
           observe (ExtractInput name) silent
             (inp_extract_cmdline_parser name opts args))
        names opts args)
     (λ r k, ends r k (ExtractInput <$> names)).
Proof.
  revert opts args.
  induction names as [|name names IH]; intros opts args; simpl.
  - eapply wp_mono; [apply wp_ret|]. intros r k [-> ->].
    apply completed_nil.
  - apply (wp_then _ _ [ExtractInput name] (ExtractInput <$> names));
      [apply wp_observe_ends|].
    intros [[opts' args']|]; apply IH.
Qed.

(** The metadata loop: one call per input, and the dict is the given one
    updated with what the calls returned, in order. *)
Lemma wp_collect_metadata (names : list string) (metadata : PyDict.t string) :
  wp (collect_metadata (U * list entry)
        (λ name, observe (InputMetadata name) Some (inp_metadata name))
        names metadata)
     (λ r k, ends r k (InputMetadata <$> names) ∧
             ∀ collected, r = inr collected →
               (metadata_of k).*1 = names ∧
               collected = foldl PyDict.update metadata (metadata_of k).*2).
Proof.
  revert metadata. induction names as [|name names IH]; intros metadata; simpl.
  - eapply wp_mono; [apply wp_ret|]. intros r k [-> ->].
    split; [apply completed_nil|]. by intros ? [= <-].
  - eapply wp_bind; [apply wp_observe| |].
    + intros e k1 [_ ->]. split; [|done].
      apply (stopped_weaken e _ [InputMetadata name]).
      apply (ends_observe _ Some (inl e)).
    + intros d k1 [_ ->]. eapply wp_mono; [apply IH|].
      intros r k [Hends Hval]. split.
      * pose proof (ends_observe (InputMetadata name) Some
                      (inr d : result (PyDict.t string))) as H1.
        destruct r as [e|md]; simpl in *.
        -- by apply (stopped_app e [(InputMetadata name, Returned (Some d))]
                       k [InputMetadata name] (InputMetadata <$> names)).
        -- by apply (completed_app [(InputMetadata name, Returned (Some d))]
                       k [InputMetadata name] (InputMetadata <$> names)).
      * intros collected Hr. destruct (Hval _ Hr) as [Hnames ->].
        rewrite metadata_of_app.
        change (metadata_of [(InputMetadata name, outcome_of Some (inr d))])
          with [(name, d)].
        rewrite !fmap_app, !fmap_cons, Hnames. done.
Qed.

Lemma compute_identifier_total (title : string) (version : Z)
    (metadata : PyDict.t string) :
  succeeds (Identity.compute_identifier hexdigest title version metadata).
Proof.
  unfold Identity.compute_identifier.
  destruct (digest_input_total version metadata) as [m ->].
  by eexists.
Qed.

Lemma allocation_sequence_no_metadata (p : string) (existed : bool) :
  Forall (λ c, ∀ name, c ≠ InputMetadata name) (allocation_sequence p existed).
Proof. destruct existed; by repeat constructor. Qed.

Lemma wp_setup_output_directory (self : t) (pwd : string) :
  wp (setup_output_directory (U * list entry)
        (λ name, observe (InputMetadata name) Some (inp_metadata name))
        hexdigest path_join
        (λ path, observe (PathExists path) silent (path_exists path))
        (λ path, observe (Rmtree path) silent (rmtree path))
        (λ path, observe (Mkdir path) silent (mkdir path))
        (λ path metadata,
           observe (WriteMetadata path) silent (write_metadata path metadata))
        self pwd)
     (λ r k,
        ∃ identifier existed,
          ends r k ((InputMetadata <$> inputs self)
                    ++ allocation_sequence (path_join pwd identifier) existed) ∧
          ∀ i, r = inr i →
            i = identifier ∧ (metadata_of k).*1 = inputs self ∧
            Identity.compute_identifier hexdigest (title self) (version self)
              (Identity.collect (metadata_of k).*2) = inr identifier).
Proof.
  unfold setup_output_directory.
  eapply wp_bind; [apply wp_collect_metadata| |].
  { intros e k [H _]. exists "", false. split; [|done].
    by apply stopped_weaken. }
  intros metadata k0 [H0 Hmd]. destruct (Hmd _ eq_refl) as [Hnames Hcol].
  clear Hmd. simpl in H0.
  destruct (compute_identifier_total (title self) (version self) metadata)
    as [identifier Hid].
  rewrite Hid.
  eapply wp_bind; [apply wp_lift_result| |]; [by intros e ? [? _]|].
  intros ? ? [[= ->] ->]. simpl.
  set (p := path_join pwd identifier).
  assert (∀ (r : result string) k existed,
            ends r k (allocation_sequence p existed) →
            (∀ i, r = inr i → i = identifier) →
            ∃ identifier' existed',
              ends r (k0 ++ k)
                ((InputMetadata <$> inputs self)
                 ++ allocation_sequence (path_join pwd identifier') existed') ∧
              ∀ i, r = inr i →
                i = identifier' ∧ (metadata_of (k0 ++ k)).*1 = inputs self ∧
                Identity.compute_identifier hexdigest (title self)
                  (version self)
                  (Identity.collect (metadata_of (k0 ++ k)).*2)
                = inr identifier') as Hfinish.
  { intros r k existed Hk Hr. exists identifier, existed. split.
    - destruct r as [e|i]; simpl in *.
      + by apply stopped_app.
      + by apply completed_app.
    - intros i ->. split; [by apply Hr|].
      rewrite metadata_of_app.
      rewrite (metadata_of_completed k _ Hk
                 (allocation_sequence_no_metadata _ _)).
      rewrite app_nil_r. split; [done|].
      unfold Identity.collect. by rewrite <- Hcol. }
  eapply wp_bind; [apply wp_observe_ends| |].
  { intros e k H. apply (Hfinish (inl e) k false); [|done].
    by apply (stopped_weaken e k [PathExists p]). }
  intros existed k1 H1.
  eapply wp_bind with (Q1 := λ r k, ends r k (if existed then [Rmtree p] else [])).
  { destruct existed; [apply wp_observe_ends|].
    eapply wp_mono; [apply wp_ret|]. intros r k [-> ->]. apply completed_nil. }
  { intros e k H.
    apply (Hfinish (inl e) (k1 ++ k) existed); [|done].
    apply (stopped_app e _ _ [PathExists p]); [done|].
    by apply stopped_weaken. }
  intros [] k2 H2.
  eapply wp_bind; [apply wp_observe_ends| |].
  { intros e k H.
    apply (Hfinish (inl e) (k1 ++ k2 ++ k) existed); [|done].
    apply (stopped_app e _ _ [PathExists p]); [done|].
    apply stopped_app; [done|].
    by apply (stopped_weaken e k [Mkdir p]). }
  intros [] k3 H3.
  eapply wp_bind; [apply wp_observe_ends| |].
  { intros e k H.
    apply (Hfinish (inl e) (k1 ++ k2 ++ k3 ++ k) existed); [|done].
    apply (stopped_app e _ _ [PathExists p]); [done|].
    apply stopped_app; [done|].
    by apply (stopped_app e _ _ [Mkdir p] [WriteMetadata p]). }
  intros [] k4 H4.
  eapply wp_mono; [apply wp_ret|]. intros r k [-> ->].
  rewrite app_nil_r.
  apply (Hfinish (inr identifier) (k1 ++ k2 ++ k3 ++ k4) existed).
  - apply (completed_app _ _ [PathExists p]); [done|].
    apply completed_app; [done|].
    by apply (completed_app _ _ [Mkdir p] [WriteMetadata p]).
  - by intros ? [= <-].
Qed.

Ltac stops_here :=
  unfold run_sequence, list_sequence;
  repeat (eapply stopped_app; [eassumption|]);
  first [eassumption | eapply stopped_weaken; eassumption].

Ltac completes_here :=
  unfold run_sequence, list_sequence;
  repeat (eapply completed_app; [eassumption|]);
  first [eassumption | apply completed_nil].

Lemma fmap_no_metadata (E : string → call) (names : list string) :
  (∀ name name', E name ≠ InputMetadata name') →
  Forall (λ c, ∀ name, c ≠ InputMetadata name) (E <$> names).
Proof.
  intros HE. apply Forall_fmap, Forall_true. intros name name'. apply HE.
Qed.

(** What the log of a run says, with its result: a run that returns an
    identifier has made exactly the calls of [run_sequence] for it, and the
    identifier is the one computed from what the [inp_metadata] hooks
    returned; a listing has made the calls of [list_sequence]; a run that
    raises has stopped at the call that raised, or at a keyword argument
    that names no option. *)
Lemma wp_execute (self : t) (args : list string)
    (kwargs : list (string * string)) :
  wp (observed_execute U Opts parse_args do_list list_results hasattr setattr
        setup_tmp_directory remove_tmp_directory inp_extract_cmdline_parser
        inp_metadata outp_setup_output outp_tear_down_output run hexdigest
        path_join path_exists rmtree mkdir write_metadata self args kwargs)
     (λ r k,
        match r with
        | inr (Some identifier) =>
            (∃ pwd existed,
               completed k
                 (run_sequence path_join self args pwd identifier existed)) ∧
            (metadata_of k).*1 = inputs self ∧
            Identity.compute_identifier hexdigest (title self) (version self)
              (Identity.collect (metadata_of k).*2) = inr identifier
        | inr None => ∃ pwd, completed k (list_sequence args pwd)
        | inl e =>
            (∃ pwd identifier existed,
               stopped e k
                 (run_sequence path_join self args pwd identifier existed)) ∨
            (∃ pwd, stopped e k (list_sequence args pwd)) ∨
            (e = AttributeError ∧ completed k [ParseArgs args])
        end).
Proof.
  unfold observed_execute, execute.
  eapply wp_bind; [apply wp_observe_ends| |].
  { intros e k H. left. exists "", "", false. simpl in H. stops_here. }
  intros [[opts args'] pwd] k1 H1. simpl in H1.
  destruct (do_list opts).
  { eapply wp_bind; [apply wp_observe_ends| |].
    - intros e k H. right; left. exists pwd. simpl in H.
      apply (stopped_app e k1 k [ParseArgs args] [ListResults pwd] H1 H).
    - intros [] k2 H2. simpl in H2. eapply wp_mono; [apply wp_ret|].
      intros r k [-> ->]. rewrite app_nil_r. exists pwd.
      apply (completed_app k1 k2 [ParseArgs args] [ListResults pwd] H1 H2). }
  eapply wp_bind; [apply wp_apply_kwargs| |].
  { intros e k [-> He]. rewrite (He _ eq_refl), app_nil_r. by right; right. }
  intros opts' ? [-> _]. cbn [app].
  eapply wp_bind; [apply wp_observe_ends| |].
  { intros e k H. left. exists pwd, "", false. simpl in H. stops_here. }
  intros [] k2 H2. simpl in H2.
  eapply wp_bind; [apply wp_extract_inputs| |].
  { intros e k H. left. exists pwd, "", false. simpl in H. stops_here. }
  intros [] k3 H3. simpl in H3.
  eapply wp_bind; [apply wp_setup_output_directory| |].
  { intros e k (identifier & existed & H & _). left.
    exists pwd, identifier, existed. simpl in H. stops_here. }
  intros identifier k4 (identifier' & existed & H4 & Hid). simpl in H4.
  destruct (Hid _ eq_refl) as (<- & Hnames & Hcomp). clear Hid.
  set (p := path_join pwd identifier) in *.
  unfold setup_outputs, tear_down_outputs.
  eapply wp_bind;
    [apply (wp_for_each_observe (outputs self) (λ name, SetupOutput name p)
              (λ name, outp_setup_output name p))| |].
  { intros e k H. left. exists pwd, identifier, existed. simpl in H.
    stops_here. }
  intros [] k5 H5. simpl in H5.
  eapply wp_bind; [apply wp_observe_ends| |].
  { intros e k H. left. exists pwd, identifier, existed. simpl in H.
    stops_here. }
  intros [] k6 H6. simpl in H6.
  eapply wp_bind;
    [apply (wp_for_each_observe (outputs self) TearDownOutput
              outp_tear_down_output)| |].
  { intros e k H. left. exists pwd, identifier, existed. simpl in H.
    stops_here. }
  intros [] k7 H7. simpl in H7.
  eapply wp_bind; [apply wp_observe_ends| |].
  { intros e k H. left. exists pwd, identifier, existed. simpl in H.
    stops_here. }
  intros [] k8 H8. simpl in H8.
  eapply wp_mono; [apply wp_ret|]. intros r k [-> ->]. rewrite app_nil_r.
  split.
  - exists pwd, existed. completes_here.
  - rewrite !metadata_of_app.
    rewrite (metadata_of_completed k1 _ H1) by (by repeat constructor).
    rewrite (metadata_of_completed k2 _ H2) by (by repeat constructor).
    rewrite (metadata_of_completed k3 _ H3) by (by apply fmap_no_metadata).
    rewrite (metadata_of_completed k5 _ H5) by (by apply fmap_no_metadata).
    rewrite (metadata_of_completed k6 _ H6) by (by repeat constructor).
    rewrite (metadata_of_completed k7 _ H7) by (by apply fmap_no_metadata).
    rewrite (metadata_of_completed k8 _ H8) by (by repeat constructor).
    by rewrite app_nil_r.
Qed.

(** *** Stage order *)

Lemma same_rank_block (n : nat) (l : list call) :
  Forall (λ c, rank c = n) l →
  StronglySorted precedes l ∧ Forall (λ c, (n ≤ rank c ≤ n)%nat) l.
Proof.
  intros H. split.
  - induction H as [|c l Hc Hl IH]; constructor; [done|].
    eapply Forall_impl; [exact Hl|]. intros c' Hc'. unfold precedes.
    fold (rank c) (rank c'). simpl in Hc'. rewrite Hc, Hc'. done.
  - eapply Forall_impl; [exact H|]. simpl. intros c ->. lia.
Qed.

Lemma sorted_block_app (lo m m' hi : nat) (l1 l2 : list call) :
  StronglySorted precedes l1 ∧ Forall (λ c, (lo ≤ rank c ≤ m)%nat) l1 →
  StronglySorted precedes l2 ∧ Forall (λ c, (m' ≤ rank c ≤ hi)%nat) l2 →
  (lo ≤ m)%nat → (m ≤ m')%nat → (m' ≤ hi)%nat →
  StronglySorted precedes (l1 ++ l2) ∧
  Forall (λ c, (lo ≤ rank c ≤ hi)%nat) (l1 ++ l2).
Proof.
  intros [S1 B1] [S2 B2] ? ? ?. split.
  - apply StronglySorted_app_2; [|exact S1|exact S2].
    intros c1 c2 Hin1 Hin2. rewrite Forall_forall in B1, B2.
    specialize (B1 _ Hin1). specialize (B2 _ Hin2). unfold precedes.
    fold (rank c1) (rank c2). simpl in B1, B2. lia.
  - apply Forall_app. split.
    + eapply Forall_impl; [exact B1|]. simpl. lia.
    + eapply Forall_impl; [exact B2|]. simpl. lia.
Qed.

Lemma same_rank_fmap (E : string → call) (n : nat) (names : list string) :
  (∀ name, rank (E name) = n) → Forall (λ c, rank c = n) (E <$> names).
Proof. intros HE. apply Forall_fmap, Forall_true. intros name. apply HE. Qed.

(** The calls of a complete run come stage by stage. *)
Lemma run_sequence_in_stage_order (self : t) (args : list string)
    (pwd identifier : string) (existed : bool) :
  in_stage_order (run_sequence path_join self args pwd identifier existed).
Proof.
  unfold in_stage_order, run_sequence.
  set (p := path_join pwd identifier).
  refine (proj1 (_ : _ ∧ Forall (λ c, (0 ≤ rank c ≤ 7)%nat) _)).
  apply (sorted_block_app 0 0 0 7); [ |  | lia..].
  { apply (same_rank_block 0). by repeat constructor. }
  apply (sorted_block_app 0 0 1 7); [ |  | lia..].
  { apply (same_rank_block 0). by repeat constructor. }
  apply (sorted_block_app 1 1 2 7); [ |  | lia..].
  { apply (same_rank_block 1). by apply same_rank_fmap. }
  apply (sorted_block_app 2 3 4 7); [ |  | lia..].
  { apply (sorted_block_app 2 2 3 3); [ |  | lia..].
    - apply (same_rank_block 2). by apply same_rank_fmap.
    - apply (same_rank_block 3). destruct existed; by repeat constructor. }
  apply (sorted_block_app 4 4 5 7); [ |  | lia..].
  { apply (same_rank_block 4). by apply same_rank_fmap. }
  apply (sorted_block_app 5 5 6 7); [ |  | lia..].
  { apply (same_rank_block 5). by repeat constructor. }
  apply (sorted_block_app 6 6 7 7); [ |  | lia..].
  { apply (same_rank_block 6). by apply same_rank_fmap. }
  apply (same_rank_block 7). by repeat constructor.
Qed.

Lemma list_sequence_in_stage_order (args : list string) (pwd : string) :
  in_stage_order (list_sequence args pwd).
Proof. apply (same_rank_block 0). by repeat constructor. Qed.

Lemma in_stage_order_prefix (k l : list call) :
  k `prefix_of` l → in_stage_order l → in_stage_order k.
Proof.
  intros [k' ->]. unfold in_stage_order. rewrite StronglySorted_app.
  by intros (_ & ? & _).
Qed.

End lifecycle_facts.

(** C8 (as amended).  The world keeps a log of the calls [execute] makes to
    its collaborators -- option parsing, the hooks of the parameters, the
    run body, the file system -- and of how each call ended; the
    collaborators are arbitrary and may raise.  Whatever they do, the calls
    come stage by stage: preparation, input resolution, the metadata of the
    inputs (from which the identifier is computed), allocation of the output
    directory named by the identifier, set-up of every output in the
    iteration order of the outputs mapping, the run body, teardown of every
    output in the same order, removal of the temporary directory.  A run
    that returns an identifier has made exactly these calls, each of which
    returned; a listing has made the two calls of a listing; a run that
    raises has made an initial part of them and stopped at the call that
    raised, with that exception -- or at a keyword argument that names no
    option, before any call but option parsing. *)
Theorem lifecycle_stage_order (U Opts : Type)
    (parse_args : list string → io U (Opts * list string * string))
    (do_list : Opts → bool) (list_results : string → io U unit)
    (hasattr : Opts → string → bool) (setattr : Opts → string → string → Opts)
    (setup_tmp_directory : string → io U unit)
    (remove_tmp_directory : io U unit)
    (inp_extract_cmdline_parser :
       string → Opts → list string → io U (option (Opts * list string)))
    (inp_metadata : string → io U (PyDict.t string))
    (outp_setup_output : string → string → io U unit)
    (outp_tear_down_output : string → io U unit) (run : io U unit)
    (hexdigest : string → string) (path_join : string → string → string)
    (path_exists : string → io U bool) (rmtree mkdir : string → io U unit)
    (write_metadata : string → PyDict.t string → io U unit)
    (self : Experiment.t) (args : list string)
    (kwargs : list (string * string)) (u : U) :
  let outcome :=
    Experiment.observed_execute U Opts parse_args do_list list_results
      hasattr setattr setup_tmp_directory remove_tmp_directory
      inp_extract_cmdline_parser inp_metadata outp_setup_output
      outp_tear_down_output run hexdigest path_join path_exists rmtree mkdir
      write_metadata self args kwargs (u, []) in
  let log := outcome.2.2 in
  Experiment.in_stage_order log.*1 ∧
  match outcome.1 with
  | inr (Some identifier) =>
      ∃ pwd existed,
        Experiment.completed log
          (Experiment.run_sequence path_join self args pwd identifier existed)
  | inr None =>
      ∃ pwd, Experiment.completed log (Experiment.list_sequence args pwd)
  | inl e =>
      (∃ pwd identifier existed,
         Experiment.stopped e log
           (Experiment.run_sequence path_join self args pwd identifier
              existed)) ∨
      (∃ pwd, Experiment.stopped e log (Experiment.list_sequence args pwd)) ∨
      (e = AttributeError ∧
       Experiment.completed log [Experiment.ParseArgs args])
  end.
Proof.
  intros outcome log.
  destruct (wp_execute parse_args do_list list_results hasattr setattr
              setup_tmp_directory remove_tmp_directory
              inp_extract_cmdline_parser inp_metadata outp_setup_output
              outp_tear_down_output run hexdigest path_join path_exists
              rmtree mkdir write_metadata self args kwargs (u, []))
    as (k & Hk & HQ).
  simpl in Hk. fold outcome in Hk, HQ. fold log in Hk. subst k.
  destruct (outcome.1) as [e|[identifier|]].
  - split; [|exact HQ].
    destruct HQ as [(pwd & identifier & existed & H)|[(pwd & H)|[_ H]]].
    + eapply in_stage_order_prefix; [by eapply stopped_prefix|].
      apply run_sequence_in_stage_order.
    + eapply in_stage_order_prefix; [by eapply stopped_prefix|].
      apply list_sequence_in_stage_order.
    + destruct H as [-> _]. by repeat constructor.
  - destruct HQ as [(pwd & existed & H) _]. split; [|by eauto].
    destruct H as [-> _]. apply run_sequence_in_stage_order.
  - destruct HQ as (pwd & H). split; [|by eauto].
    destruct H as [-> _]. apply list_sequence_in_stage_order.
Qed.

(** ** The key/value dict on a table *)

Section round_trip_facts.
Import Sqlite.

Lemma find_table_app_new (name : string) (pre : database) (t : table) :
  find_table name pre = None → tbl_name t = name →
  find_table name (pre ++ [t]) = Some t.
Proof.
  unfold find_table. intros Hpre Hname.
  destruct (list_find _ pre) as [|] eqn:Hf; [done|].
  rewrite (list_find_app_r _ _ _ Hf). simpl. by rewrite decide_True.
Qed.

Lemma alter_table_app_new (name : string) (pre : database) (t t' : table) :
  find_table name pre = None → tbl_name t = name →
  alter_table name (λ _, t') (pre ++ [t]) = pre ++ [t'].
Proof.
  unfold find_table, alter_table. intros Hpre Hname.
  destruct (list_find _ pre) as [|] eqn:Hf; [done|].
  apply list_find_None in Hf.
  rewrite fmap_app. simpl. rewrite decide_True by done. f_equal.
  induction Hf as [|t0 pre Ht0 _ IH]; simpl; [done|].
  rewrite decide_False by done. f_equal. apply IH.
Qed.

Lemma lookup_table_app_new (name : string) (pre : database) (t : table)
    (att : list (string * database)) :
  find_table name pre = None → tbl_name t = name →
  lookup_table name (Connection (pre ++ [t]) att)
  = Some (Main, pre ++ [t], t).
Proof.
  intros Hpre Hname. unfold lookup_table, resolve. simpl.
  rewrite (find_table_app_new _ _ _ Hpre Hname). simpl.
  by rewrite (find_table_app_new _ _ _ Hpre Hname).
Qed.

Context (name title static dynamic metadata : string).

Let self : TableDict.t := TableDict.init name title static dynamic metadata.
Let tn : string := Table.table_name (TableDict.table self).

(** The table object after the output set-up. *)
Let writable : Table.t :=
  Table.Make name false (Some TableDict.key_name)
    [("experiment", "text"); (TableDict.key_name, "text");
     (TableDict.value_name, "text")]
    (Some Table.Output) title static dynamic metadata.

Local Arguments Database.before_experiment_run : simpl never.

Lemma output_setup_shape (c0 c1 : connection) (out : TableDict.t) :
  TableDict.before_experiment_run self Table.Output c0 = (inr out, c1) →
  out = TableDict.Make writable ∅ ∧
  ∃ pre att, find_table tn pre = None ∧
    c1 = Connection (pre ++ [TableDict.backing_table self []]) att.
Proof.
  unfold TableDict.before_experiment_run, Table.before_experiment_run,
    Table.Type_before_experiment_run.
  unfold mbind, io_bind. simpl.
  destruct (Database.before_experiment_run true dynamic metadata c0)
    as [[e|[]] c0']; simpl; [done|].
  unfold Database.create_table, create_table.
  change (Table.table_name (Table.set_read_only false _)) with tn.
  destruct (find_table tn (main c0')) as [|] eqn:Hfind; simpl; [done|].
  intros [= <- <-]. split; [done|].
  exists (main c0'), (attached c0'). done.
Qed.

Lemma no_primary_clash (k v : value) (P : list (value * value)) :
  k ∉ P.*1 →
  violates_primary TableDict.columns (TableDict.row_of dynamic <$> P)
    [Text dynamic; k; v] = false.
Proof.
  induction P as [|[k' v'] P IH]; [done|].
  rewrite !fmap_cons. intros [Hne Hk]%not_elem_of_cons.
  unfold violates_primary in *. cbn [existsb]. rewrite (IH Hk), orb_false_r.
  unfold primary_clash, TableDict.row_of, TableDict.columns. simpl.
  rewrite (bool_decide_eq_false_2 (k' = k)) by done.
  by rewrite andb_false_r.
Qed.

Lemma insert_item (k v : value) (P : list (value * value)) (pre : database)
    (att : list (string * database)) :
  find_table tn pre = None → k ∉ P.*1 →
  Table.insert writable
    (Some [(TableDict.key_name, k); (TableDict.value_name, v)]) []
    (Connection
       (pre ++ [TableDict.backing_table self (TableDict.row_of dynamic <$> P)])
       att)
  = (inr tt,
     Connection
       (pre ++ [TableDict.backing_table self
                  (TableDict.row_of dynamic <$> (P ++ [(k, v)]))])
       att).
Proof.
  intros Hpre Hk. unfold Table.insert. cbn [Table.read_only writable].
  replace (Table.stamped_row writable
             (Some [(TableDict.key_name, k); (TableDict.value_name, v)]) [])
    with [(TableDict.key_name, k); (TableDict.value_name, v);
          ("experiment", Text dynamic)] by (vm_compute; reflexivity).
  rewrite decide_True by (apply (bool_decide_unpack _); vm_compute; reflexivity).
  unfold insert.
  change (Table.table_name writable) with tn.
  rewrite (lookup_table_app_new tn pre
             (TableDict.backing_table self (TableDict.row_of dynamic <$> P))
             att Hpre eq_refl).
  cbn [tbl_columns tbl_rows tbl_name tbl_sql TableDict.backing_table].
  rewrite decide_False by (simpl; lia).
  rewrite decide_True by (apply (bool_decide_unpack _); vm_compute; reflexivity).
  replace (bound_value
             [(TableDict.key_name, k); (TableDict.value_name, v);
              ("experiment", Text dynamic)].*1
             [(TableDict.key_name, k); (TableDict.value_name, v);
              ("experiment", Text dynamic)].*2 ∘ col_name
           <$> TableDict.columns)
    with [Text dynamic; k; v] by (vm_compute; reflexivity).
  rewrite (no_primary_clash k v P Hk).
  unfold set_schema_db.
  rewrite (alter_table_app_new tn pre
             (TableDict.backing_table self (TableDict.row_of dynamic <$> P))
             _ Hpre eq_refl).
  cbn [main attached]. unfold TableDict.backing_table.
  by rewrite fmap_app.
Qed.

Lemma flush_items (l P : list (value * value)) (pre : database)
    (att : list (string * database)) :
  find_table tn pre = None → NoDup (P ++ l).*1 →
  for_each l (λ kv,
    Table.insert writable
      (Some [(TableDict.key_name, kv.1); (TableDict.value_name, kv.2)]) [])
    (Connection
       (pre ++ [TableDict.backing_table self (TableDict.row_of dynamic <$> P)])
       att)
  = (inr tt,
     Connection
       (pre ++ [TableDict.backing_table self
                  (TableDict.row_of dynamic <$> (P ++ l))])
       att).
Proof.
  intros Hpre. revert P. induction l as [|[k v] l IH]; intros P Hnd.
  - by rewrite app_nil_r.
  - cbn [for_each]. unfold mbind, io_bind. cbn [fst snd].
    rewrite (insert_item k v P pre att Hpre).
    + rewrite (IH (P ++ [(k, v)])); rewrite <-(assoc_L (++)); done.
    + rewrite fmap_app in Hnd. apply NoDup_app in Hnd as (_ & Hdisj & _).
      intros Hin. apply (Hdisj k Hin). simpl. apply elem_of_cons. by left.
Qed.

Lemma clear_fresh (pre : database) (att : list (string * database)) :
  find_table tn pre = None →
  Table.clear writable
    (Connection (pre ++ [TableDict.backing_table self []]) att)
  = (inr tt, Connection (pre ++ [TableDict.backing_table self []]) att).
Proof.
  intros Hpre. unfold Table.clear, delete_experiment.
  change (Table.table_name writable) with tn.
  rewrite (lookup_table_app_new tn pre (TableDict.backing_table self [])
             att Hpre eq_refl).
  cbn [tbl_columns tbl_rows tbl_name tbl_sql TableDict.backing_table].
  replace (column_index "experiment" TableDict.columns) with (Some 0)
    by (vm_compute; reflexivity).
  unfold set_schema_db.
  rewrite (alter_table_app_new tn pre (TableDict.backing_table self [])
             _ Hpre eq_refl).
  done.
Qed.

Lemma flush_spec (d : gmap value value) (pre : database)
    (att : list (string * database)) :
  find_table tn pre = None →
  TableDict.flush (TableDict.Make writable d)
    (Connection (pre ++ [TableDict.backing_table self []]) att)
  = (inr tt,
     Connection
       (pre ++ [TableDict.backing_table self
                  (TableDict.row_of dynamic <$> map_to_list d)])
       att).
Proof.
  intros Hpre. unfold TableDict.flush, mbind, io_bind.
  cbn [TableDict.table TableDict.content].
  rewrite (clear_fresh pre att Hpre).
  apply (flush_items (map_to_list d) [] pre att Hpre).
  apply NoDup_fst_map_to_list.
Qed.

Lemma pairs_rows (L : list (value * value)) :
  TableDict.pairs 0 1 (delete 0 <$> (TableDict.row_of dynamic <$> L)) = inr L.
Proof.
  induction L as [|[k v] L IH]; [done|].
  rewrite !fmap_cons. cbn [TableDict.pairs]. simpl. by rewrite IH.
Qed.

Lemma filter_rows (L : list (value * value)) :
  filter (in_experiment 0 (Text dynamic)) (TableDict.row_of dynamic <$> L)
  = TableDict.row_of dynamic <$> L.
Proof.
  induction L as [|kv L IH]; [done|].
  rewrite fmap_cons, filter_cons_True; [by rewrite IH|].
  split; done.
Qed.

Lemma dict_update_items (l : list (value * value))
    (d : gmap value value) :
  NoDup l.*1 → TableDict.dict_update d l = list_to_map l ∪ d.
Proof.
  unfold TableDict.dict_update. revert d.
  induction l as [|[k v] l IH]; intros d Hnd; simpl.
  - by rewrite (left_id_L ∅ (∪)).
  - apply NoDup_cons in Hnd as [Hk Hnd]. rewrite (IH _ Hnd).
    rewrite <-insert_union_l. symmetry. apply insert_union_r.
    by apply not_elem_of_list_to_map_1.
Qed.

(** Reading the table into a dict that starts empty. *)
Lemma input_setup_spec (other md : string) (L : list (value * value))
    (pre : database) (att : list (string * database)) :
  find_table tn pre = None → NoDup L.*1 →
  let c := Connection
             (pre ++ [TableDict.backing_table self
                        (TableDict.row_of dynamic <$> L)]) att in
  ∃ inp,
    TableDict.before_experiment_run
      (TableDict.init name title dynamic other md) Table.Input c
    = (inr inp, c) ∧
    TableDict.content inp = list_to_map L.
Proof.
  intros Hpre Hnd c.
  unfold TableDict.before_experiment_run, Table.before_experiment_run,
    Table.Type_before_experiment_run, Table.value, Database.values,
    select_experiment.
  unfold mbind, io_bind. simpl.
  change (title +:+ "__" +:+ default name (Table.after_last_hyphen name))
    with tn.
  unfold c.
  rewrite (lookup_table_app_new tn pre
             (TableDict.backing_table self (TableDict.row_of dynamic <$> L))
             att Hpre eq_refl).
  cbn [tbl_columns tbl_rows tbl_name tbl_sql TableDict.backing_table].
  replace (column_index "experiment" TableDict.columns) with (Some 0)
    by (vm_compute; reflexivity).
  rewrite filter_rows. simpl.
  rewrite pairs_rows. simpl.
  eexists. split; [done|]. simpl.
  rewrite (dict_update_items L ∅ Hnd). by rewrite (right_id_L ∅ (∪)).
Qed.
End round_trip_facts.

(** C5.  Once the output set-up of a key/value dict for the instance [X]
    has succeeded on a store, filling the dict with a string-to-string
    dictionary [D] and tearing the output down succeeds (the rows of [X] are
    cleared and one row per entry is written), and setting a new dict up as
    input for the instance [X] on the resulting store succeeds, leaves the
    store as it is and materializes exactly [D]. *)
Theorem tabledict_round_trip (name title static X metadata : string)
    (other metadata' : string) (D : gmap string string)
    (c0 c1 : Sqlite.connection) (out : TableDict.t) :
  TableDict.before_experiment_run
    (TableDict.init name title static X metadata) Table.Output c0
  = (inr out, c1) →
  ∃ c2 inp,
    TableDict.after_experiment_run
      (TableDict.set_content (TableDict.of_strings D) out) Table.Output c1
    = (inr tt, c2) ∧
    TableDict.before_experiment_run
      (TableDict.init name title X other metadata') Table.Input c2
    = (inr inp, c2) ∧
    TableDict.content inp = TableDict.of_strings D.
Proof.
  intros Hsetup.
  destruct (output_setup_shape _ _ _ _ _ _ _ _ Hsetup)
    as (-> & pre & att & Hpre & ->).
  destruct (input_setup_spec name title static X metadata other metadata'
              (map_to_list (TableDict.of_strings D)) pre att Hpre
              (NoDup_fst_map_to_list _)) as (inp & Hread & Hcontent).
  eexists _, inp. split; [|split; [exact Hread|]].
  - unfold TableDict.after_experiment_run, TableDict.set_content.
    cbn [TableDict.table Table.current_type].
    rewrite !decide_True by done.
    unfold mbind, io_bind.
    rewrite (flush_spec name title static X metadata _ pre att Hpre).
    reflexivity.
  - by rewrite Hcontent, list_to_map_to_list.
Qed.

Lemma tabledict_round_trip_witness :
  let D : gmap string string := {[ "a" := "1"; "b" := "2" ]} in
  let c1 :=
    (TableDict.before_experiment_run
       (TableDict.init "out" "Exp" "Exp-0" "Exp-0" "{}") Table.Output
       (Sqlite.Connection [] [])).2 in
  ∃ c2 inp,
    TableDict.after_experiment_run
      (TableDict.set_content (TableDict.of_strings D)
         (TableDict.Make
            (Table.Make "out" false (Some "key")
               [("experiment", "text"); ("key", "text"); ("value", "text")]
               (Some Table.Output) "Exp" "Exp-0" "Exp-0" "{}") ∅))
      Table.Output c1
    = (inr tt, c2) ∧
    TableDict.before_experiment_run
      (TableDict.init "out" "Exp" "Exp-0" "Exp-1" "{'in': 'Exp-0'}")
      Table.Input c2
    = (inr inp, c2) ∧
    TableDict.content inp = TableDict.of_strings D.
Proof.
  intros D c1.
  refine (tabledict_round_trip "out" "Exp" "Exp-0" "Exp-0" "{}" "Exp-1"
            "{'in': 'Exp-0'}" D (Sqlite.Connection [] []) c1 _ _).
  vm_compute. reflexivity.
Defined.

(** The scenario of the specification, evaluated: the rows that reach the
    store for the dict with the entries a -> 1 and b -> 2. *)
Example tabledict_rows_example :
  let D : gmap string string := {[ "a" := "1"; "b" := "2" ]} in
  let c1 :=
    (TableDict.before_experiment_run
       (TableDict.init "out" "Exp" "Exp-0" "Exp-0" "{}") Table.Output
       (Sqlite.Connection [] [])).2 in
  ∃ out c2,
    TableDict.before_experiment_run
      (TableDict.init "out" "Exp" "Exp-0" "Exp-0" "{}") Table.Output
      (Sqlite.Connection [] []) = (inr out, c1) ∧
    TableDict.after_experiment_run
      (TableDict.set_content (TableDict.of_strings D) out) Table.Output c1
    = (inr tt, c2) ∧
    Sqlite.tbl_rows <$> Sqlite.find_table "Exp__out" (Sqlite.main c2)
    = Some [[Sqlite.Text "Exp-0"; Sqlite.Text "b"; Sqlite.Text "2"];
            [Sqlite.Text "Exp-0"; Sqlite.Text "a"; Sqlite.Text "1"]].
Proof.
  intros D c1. eexists _, _. split; [vm_compute; reflexivity|].
  split; [vm_compute; reflexivity|].
  vm_compute. reflexivity.
Qed.
(** A run in which every collaborator succeeds, with two inputs and two
    outputs: the log is that of a complete run and is in stage order. *)
Lemma lifecycle_stage_order_witness :
  let self := Experiment.Make "Exp" 1 ["abc"; "xxx"] ["xyz"; "out"] in
  let ok : io unit unit := mret tt in
  let outcome :=
    Experiment.observed_execute unit unit
      (λ args, mret (tt, args, "/work")) (λ _, false) (λ _, ok)
      (λ _ _, true) (λ _ _ _, tt) (λ _, ok) ok
      (λ _ _ _, mret None) (λ name, mret [(name, "/dev/null")])
      (λ _ _, ok) (λ _, ok) ok (λ msg, msg)
      (λ dir file, dir +:+ "/" +:+ file) (λ _, mret true) (λ _, ok) (λ _, ok)
      (λ _ _, ok) self [] [] (tt, []) in
  let log := outcome.2.2 in
  Experiment.in_stage_order log.*1 ∧
  match outcome.1 with
  | inr (Some identifier) =>
      ∃ pwd existed,
        Experiment.completed log
          (Experiment.run_sequence (λ dir file, dir +:+ "/" +:+ file) self []
             pwd identifier existed)
  | inr None =>
      ∃ pwd, Experiment.completed log (Experiment.list_sequence [] pwd)
  | inl e =>
      (∃ pwd identifier existed,
         Experiment.stopped e log
           (Experiment.run_sequence (λ dir file, dir +:+ "/" +:+ file) self
              [] pwd identifier existed)) ∨
      (∃ pwd, Experiment.stopped e log (Experiment.list_sequence [] pwd)) ∨
      (e = AttributeError ∧
       Experiment.completed log [Experiment.ParseArgs []])
  end.
Proof.
  intros self ok.
  exact (lifecycle_stage_order unit unit
           (λ args, mret (tt, args, "/work")) (λ _, false) (λ _, ok)
           (λ _ _, true) (λ _ _ _, tt) (λ _, ok) ok
           (λ _ _ _, mret None) (λ name, mret [(name, "/dev/null")])
           (λ _ _, ok) (λ _, ok) ok (λ msg, msg)
           (λ dir file, dir +:+ "/" +:+ file) (λ _, mret true) (λ _, ok)
           (λ _, ok) (λ _ _, ok) self [] [] tt).
Defined.

Example lifecycle_example :
  let self := Experiment.Make "Exp" 1 ["abc"; "xxx"] ["xyz"; "out"] in
  let ok : io unit unit := mret tt in
  let identifier := "Exp-version 1abc /dev/nullxxx /dev/null" in
  let output_path := "/work/Exp-version 1abc /dev/nullxxx /dev/null" in
  Experiment.observed_execute unit unit
    (λ args, mret (tt, args, "/work")) (λ _, false) (λ _, ok)
    (λ _ _, true) (λ _ _ _, tt) (λ _, ok) ok
    (λ _ _ _, mret None) (λ name, mret [(name, "/dev/null")])
    (λ _ _, ok) (λ _, ok) ok (λ msg, msg)
    (λ dir file, dir +:+ "/" +:+ file) (λ _, mret true) (λ _, ok) (λ _, ok)
    (λ _ _, ok) self [] [] (tt, [])
  = (inr (Some identifier),
     (tt,
      [(Experiment.ParseArgs [], Experiment.Returned None);
       (Experiment.SetupTmpDirectory "/work", Experiment.Returned None);
       (Experiment.ExtractInput "abc", Experiment.Returned None);
       (Experiment.ExtractInput "xxx", Experiment.Returned None);
       (Experiment.InputMetadata "abc",
        Experiment.Returned (Some [("abc", "/dev/null")]));
       (Experiment.InputMetadata "xxx",
        Experiment.Returned (Some [("xxx", "/dev/null")]));
       (Experiment.PathExists output_path, Experiment.Returned None);
       (Experiment.Rmtree output_path, Experiment.Returned None);
       (Experiment.Mkdir output_path, Experiment.Returned None);
       (Experiment.WriteMetadata output_path, Experiment.Returned None);
       (Experiment.SetupOutput "xyz" output_path, Experiment.Returned None);
       (Experiment.SetupOutput "out" output_path, Experiment.Returned None);
       (Experiment.Run, Experiment.Returned None);
       (Experiment.TearDownOutput "xyz", Experiment.Returned None);
       (Experiment.TearDownOutput "out", Experiment.Returned None);
       (Experiment.RemoveTmpDirectory, Experiment.Returned None)])).
Proof. vm_compute. reflexivity. Qed.

(** A run that stops: the set-up of the second output raises, and the log
    ends there. *)
Example lifecycle_stops_example :
  let self := Experiment.Make "Exp" 1 [] ["xyz"; "out"] in
  let ok : io unit unit := mret tt in
  Experiment.observed_execute unit unit
    (λ args, mret (tt, args, "/work")) (λ _, false) (λ _, ok)
    (λ _ _, true) (λ _ _ _, tt) (λ _, ok) ok
    (λ _ _ _, mret None) (λ name, mret [(name, "/dev/null")])
    (λ name _, if decide (name = "out") then throw ValueError else ok)
    (λ _, ok) ok (λ msg, msg)
    (λ dir file, dir +:+ "/" +:+ file) (λ _, mret false) (λ _, ok) (λ _, ok)
    (λ _ _, ok) self [] [] (tt, [])
  = (inl ValueError,
     (tt,
      [(Experiment.ParseArgs [], Experiment.Returned None);
       (Experiment.SetupTmpDirectory "/work", Experiment.Returned None);
       (Experiment.PathExists "/work/Exp-version 1", Experiment.Returned None);
       (Experiment.Mkdir "/work/Exp-version 1", Experiment.Returned None);
       (Experiment.WriteMetadata "/work/Exp-version 1",
        Experiment.Returned None);
       (Experiment.SetupOutput "xyz" "/work/Exp-version 1",
        Experiment.Returned None);
       (Experiment.SetupOutput "out" "/work/Exp-version 1",
        Experiment.Raised ValueError)])).
Proof. vm_compute. reflexivity. Qed.

(** The outputs are not set up in the order they are declared in.  A class
    that declares the outputs [b] and [a], in this order, has an outputs
    mapping that iterates [a] before [b] (on a build with 64-bit and on one
    with 32-bit hashes), and that is the order in which [execute] sets them
    up and tears them down: the calls are not those of a run over the
    declared order. *)
Lemma outputs_not_set_up_in_declared_order :
  let declared := ["b"; "a"] in
  let self := Experiment.Make "Exp" 1 [] ["a"; "b"] in
  let ok : io unit unit := mret tt in
  let path_join := λ dir file, dir +:+ "/" +:+ file in
  let outcome :=
    Experiment.observed_execute unit unit
      (λ args, mret (tt, args, "/work")) (λ _, false) (λ _, ok)
      (λ _ _, true) (λ _ _ _, tt) (λ _, ok) ok
      (λ _ _ _, mret None) (λ name, mret [(name, "/dev/null")])
      (λ _ _, ok) (λ _, ok) ok (λ msg, msg)
      path_join (λ _, mret false) (λ _, ok) (λ _, ok)
      (λ _ _, ok) self [] [] (tt, []) in
  Experiment.declare 64 "Exp" 1 [] declared = Some self ∧
  Experiment.declare 32 "Exp" 1 [] declared = Some self ∧
  outcome.1 = inr (Some "Exp-version 1") ∧
  outcome.2.2.*1
  = [Experiment.ParseArgs []; Experiment.SetupTmpDirectory "/work";
     Experiment.PathExists "/work/Exp-version 1";
     Experiment.Mkdir "/work/Exp-version 1";
     Experiment.WriteMetadata "/work/Exp-version 1";
     Experiment.SetupOutput "a" "/work/Exp-version 1";
     Experiment.SetupOutput "b" "/work/Exp-version 1";
     Experiment.Run;
     Experiment.TearDownOutput "a"; Experiment.TearDownOutput "b";
     Experiment.RemoveTmpDirectory] ∧
  ∀ pwd identifier existed,
    outcome.2.2.*1
    ≠ Experiment.run_sequence path_join (Experiment.Make "Exp" 1 [] declared)
        [] pwd identifier existed.
Proof.
  intros declared self ok path_join outcome.
  split; [vm_compute; reflexivity|]. split; [vm_compute; reflexivity|].
  split; [vm_compute; reflexivity|]. split; [vm_compute; reflexivity|].
  intros pwd identifier existed H.
  assert (outcome.2.2.*1 !! 5 = Some (Experiment.SetupOutput "a"
                                       "/work/Exp-version 1")) as H5
    by (vm_compute; reflexivity).
  rewrite H in H5. destruct existed; vm_compute in H5; discriminate.
Qed.

(* ===================================================================== *)
(** * Further properties *)
(* ===================================================================== *)

(** ** Connection registry *)

Section registry_more.
Import Database_SQLite.

Lemma run_app (path : string) (calls1 calls2 : list call) (p : process) :
  run path (calls1 ++ calls2) p
  = r1 ← run path calls1 p;
    r2 ← run path calls2 r1.2;
    mret (r1.1 ++ r2.1, r2.2).
Proof.
  revert p. induction calls1 as [|[] calls1 IH]; intros p; simpl.
  - by destruct (run path calls2 p) as [e|[hs p']].
  - destruct (connect path p) as [db p1]. rewrite IH.
    destruct (run path calls1 p1) as [e|[hs1 p2]]; simpl; [done|].
    by destruct (run path calls2 p2) as [e|[hs2 p3]].
  - destruct (disconnect path p) as [e|p1]; simpl; [done|]. apply IH.
Qed.

Lemma connect_other (path q : string) (p : process) :
  q ≠ path →
  database_connections (connect path p).2 !! q = database_connections p !! q.
Proof.
  intros Hne. unfold connect.
  destruct (database_connections p !! path) as [[db count]|]; simpl;
    by rewrite lookup_insert_ne.
Qed.

Lemma disconnect_other (path q : string) (p p' : process) :
  q ≠ path → disconnect path p = inr p' →
  database_connections p' !! q = database_connections p !! q.
Proof.
  intros Hne. unfold disconnect.
  destruct (database_connections p !! path) as [[db count]|]; [|done].
  destruct (decide (count = 1%Z)); intros [= <-]; simpl.
  - by rewrite lookup_delete_ne.
  - by rewrite lookup_insert_ne.
Qed.

Lemma connect_ok (path : string) (p : process) :
  registry_ok p → registry_ok (connect path p).2.
Proof.
  intros ([Hev Hreg] & Hcount & Hdist). unfold connect.
  destruct (database_connections p !! path) as [[db count]|] eqn:Hp; simpl.
  - destruct (Hcount _ _ _ Hp) as [Hc Hcl].
    split; [split|split].
    + done.
    + intros q db' c. simpl. rewrite lookup_insert. case_decide; [|by eauto].
      intros [= <- <-]. by eapply Hreg.
    + intros q db' c. simpl. rewrite lookup_insert. case_decide.
      * intros [= <- <-]. split; [lia|done].
      * apply Hcount.
    + intros q1 q2 db' c1 c2. simpl. rewrite !lookup_insert.
      repeat case_decide; simplify_eq; try done.
      * intros [= <- <-] H2. by apply (Hdist _ _ _ _ _ Hp H2).
      * intros H1 [= <- <-]. by apply (Hdist _ _ _ _ _ H1 Hp).
      * apply Hdist.
  - split; [split|split].
    + simpl. apply Forall_app. split.
      * eapply Forall_impl; [exact Hev|]. simpl. lia.
      * apply Forall_singleton. simpl. lia.
    + intros q db' c. simpl. rewrite lookup_insert. case_decide.
      * intros [= <- <-]. lia.
      * intros Hq. apply Hreg in Hq. lia.
    + intros q db' c. simpl. rewrite lookup_insert. case_decide.
      * intros [= <- <-]. split; [done|].
        change (close_count (next_handle p)
                  (log_event (Opened path (next_handle p)) p) = 0).
        rewrite close_count_log, decide_False by done.
        rewrite close_count_fresh; [done|done|lia].
      * intros Hq. destruct (Hcount _ _ _ Hq) as [Hc Hcl]. split; [done|].
        change (close_count db'
                  (log_event (Opened path (next_handle p)) p) = 0).
        rewrite close_count_log, decide_False by done. lia.
    + intros q1 q2 db' c1 c2. simpl. rewrite !lookup_insert.
      repeat case_decide; simplify_eq; try done.
      * intros [= <- <-] H2. apply Hreg in H2. lia.
      * intros H1 [= <- <-]. apply Hreg in H1. lia.
      * apply Hdist.
Qed.

Lemma disconnect_ok (path : string) (p p' : process) :
  registry_ok p → disconnect path p = inr p' → registry_ok p'.
Proof.
  intros ([Hev Hreg] & Hcount & Hdist). unfold disconnect.
  destruct (database_connections p !! path) as [[db count]|] eqn:Hp; [|done].
  destruct (Hcount _ _ _ Hp) as [Hc Hcl].
  assert (db < next_handle p) as Hdb by (by eapply Hreg).
  destruct (decide (count = 1%Z)) as [->|Hne]; intros [= <-].
  - split; [split|split].
    + simpl. rewrite !Forall_app, !Forall_singleton. done.
    + intros q db' c. simpl. rewrite lookup_delete. case_decide; [done|].
      by eauto.
    + intros q db' c. simpl. rewrite lookup_delete. case_decide; [done|].
      intros Hq. destruct (Hcount _ _ _ Hq) as [Hc' Hcl']. split; [done|].
      change (close_count db'
                (log_event (Closed db) (log_event (Committed db) p)) = 0).
      rewrite !close_count_log, (decide_False (P := _ = Closed db')) by done.
      rewrite decide_False; [lia|].
      intros [= ->]. by pose proof (Hdist _ _ _ _ _ Hp Hq).
    + intros q1 q2 db' c1 c2. simpl. rewrite !lookup_delete.
      repeat case_decide; try done. apply Hdist.
  - split; [split|split].
    + simpl. rewrite !Forall_app, !Forall_singleton. done.
    + intros q db' c. simpl. rewrite lookup_insert. case_decide; [|by eauto].
      by intros [= <- <-].
    + intros q db' c. simpl. rewrite lookup_insert. case_decide.
      * intros [= <- <-]. split; [lia|].
        change (close_count db (log_event (Committed db) p) = 0).
        rewrite close_count_log, decide_False by done. lia.
      * intros Hq. destruct (Hcount _ _ _ Hq) as [Hc' Hcl']. split; [done|].
        change (close_count db' (log_event (Committed db) p) = 0).
        rewrite close_count_log, decide_False by done. lia.
    + intros q1 q2 db' c1 c2. simpl. rewrite !lookup_insert.
      repeat case_decide; simplify_eq; try done.
      * intros [= <- <-] H2. by apply (Hdist _ _ _ _ _ Hp H2).
      * intros H1 [= <- <-]. by apply (Hdist _ _ _ _ _ H1 Hp).
      * apply Hdist.
Qed.
End registry_more.

(** X1.  One disconnect too many: after an interleaving on a path without
    entry that has released every connection it took, a further disconnect
    finds no entry and raises [KeyError], whatever calls would follow. *)
Theorem disconnect_unconnected_raises (path : string)
    (calls rest : list Database_SQLite.call) (p0 : Database_SQLite.process) :
  Database_SQLite.wf p0 →
  Database_SQLite.database_connections p0 !! path = None →
  Database_SQLite.never_overdisconnects calls →
  Database_SQLite.balanced calls →
  Database_SQLite.run path (calls ++ Database_SQLite.Disconnect :: rest) p0
  = inl (KeyError path).
Proof.
  intros Hwf Hnone Hn Hbal.
  assert (Database_SQLite.registry_inv path 0 [] p0) as Hinv.
  { split; [done|]. split; [done|]. rewrite Hnone. split; [done|].
    intros h Hin. by apply elem_of_nil in Hin. }
  destruct (run_inv path calls 0 [] p0 Hinv Hn) as (hs & p & Hrun & Hinv').
  rewrite run_app, Hrun. simpl.
  destruct Hinv' as (_ & _ & Hcase). rewrite Hbal in Hcase. simpl in Hcase.
  unfold Database_SQLite.disconnect.
  destruct (Database_SQLite.database_connections p !! path)
    as [[db count]|]; [|done].
  destruct Hcase as (_ & ? & _). lia.
Qed.

Lemma disconnect_unconnected_raises_witness :
  Database_SQLite.run "x.db"
    ([Database_SQLite.Connect; Database_SQLite.Disconnect]
     ++ Database_SQLite.Disconnect :: [Database_SQLite.Connect])
    Database_SQLite.fresh_process
  = inl (KeyError "x.db").
Proof.
  apply (disconnect_unconnected_raises "x.db"
           [Database_SQLite.Connect; Database_SQLite.Disconnect]
           [Database_SQLite.Connect] Database_SQLite.fresh_process).
  - split; [apply Forall_nil_2|]. intros q db c. simpl.
    rewrite lookup_empty. discriminate.
  - apply lookup_empty.
  - reflexivity.
  - reflexivity.
Defined.

(** X2.  Whatever connects and disconnects are issued on whatever paths, as
    long as none of them raises: every entry of the registry counts at
    least one user, its handle has not been closed, and no two paths share
    a handle. *)
Theorem registry_stays_ok (ops : list Database_SQLite.op)
    (p p' : Database_SQLite.process) :
  Database_SQLite.registry_ok p →
  Database_SQLite.run_ops ops p = inr p' →
  Database_SQLite.registry_ok p'.
Proof.
  revert p. induction ops as [|[path|path] ops IH]; intros p Hok; simpl.
  - by intros [= <-].
  - apply IH. by apply connect_ok.
  - destruct (Database_SQLite.disconnect path p) as [e|p1] eqn:Hd;
      simpl; [done|].
    apply IH. by eapply disconnect_ok.
Qed.

Lemma registry_stays_ok_witness :
  Database_SQLite.registry_ok
    (Database_SQLite.Process
       {[ "b.db" := (1, 1%Z) ]} 2
       [Database_SQLite.Opened "a.db" 0; Database_SQLite.Opened "b.db" 1;
        Database_SQLite.Committed 0; Database_SQLite.Committed 0;
        Database_SQLite.Closed 0]).
Proof.
  apply (registry_stays_ok
           [Database_SQLite.ConnectTo "a.db"; Database_SQLite.ConnectTo "b.db";
            Database_SQLite.ConnectTo "a.db";
            Database_SQLite.DisconnectFrom "a.db";
            Database_SQLite.DisconnectFrom "a.db"]
           Database_SQLite.fresh_process).
  - split; [split|split].
    + apply Forall_nil_2.
    + intros q db c. simpl. rewrite lookup_empty. discriminate.
    + intros q db c. simpl. rewrite lookup_empty. discriminate.
    + intros q1 q2 db c1 c2. simpl. rewrite lookup_empty. discriminate.
  - vm_compute. reflexivity.
Defined.

(** X3.  An interleaving of connects and disconnects on one path leaves the
    entries of all other paths exactly as they were. *)
Theorem run_leaves_other_paths (path q : string)
    (calls : list Database_SQLite.call) (p p' : Database_SQLite.process)
    (hs : list Database_SQLite.handle) :
  q ≠ path → Database_SQLite.run path calls p = inr (hs, p') →
  Database_SQLite.database_connections p' !! q
  = Database_SQLite.database_connections p !! q.
Proof.
  intros Hne. revert p hs.
  induction calls as [|[] calls IH]; intros p hs; simpl.
  - by intros [= _ <-].
  - pose proof (connect_other path q p Hne) as Hc.
    destruct (Database_SQLite.connect path p) as [db p1]. simpl in Hc.
    destruct (Database_SQLite.run path calls p1) as [e|[hs1 p2]] eqn:Hrun;
      simpl; [done|].
    intros [= _ <-]. by rewrite (IH _ _ Hrun).
  - destruct (Database_SQLite.disconnect path p) as [e|p1] eqn:Hd;
      simpl; [done|].
    intros Hrun. rewrite (IH _ _ Hrun). by eapply disconnect_other.
Qed.

Lemma run_leaves_other_paths_witness :
  Database_SQLite.database_connections
    (Database_SQLite.Process {[ "a.db" := (0, 1%Z) ]} 2
       [Database_SQLite.Opened "b.db" 1; Database_SQLite.Committed 1;
        Database_SQLite.Closed 1]) !! "a.db"
  = Database_SQLite.database_connections
      (Database_SQLite.Process {[ "a.db" := (0, 1%Z) ]} 1 []) !! "a.db".
Proof.
  apply (run_leaves_other_paths "b.db" "a.db"
           [Database_SQLite.Connect; Database_SQLite.Disconnect]
           (Database_SQLite.Process {[ "a.db" := (0, 1%Z) ]} 1 [])
           _ [1]).
  - discriminate.
  - vm_compute. reflexivity.
Defined.

(** ** Identity hasher *)

Section identity_more.
Import Identity.

Lemma chars_app (s1 s2 : string) : chars (s1 +:+ s2) = chars s1 ++ chars s2.
Proof.
  unfold chars. induction s1 as [|a s1 IH]; [done|].
  change (String a s1 +:+ s2) with (String a (s1 +:+ s2)).
  simpl. by rewrite IH.
Qed.

Lemma chars_inj (s1 s2 : string) : chars s1 = chars s2 → s1 = s2.
Proof.
  unfold chars. intros H.
  rewrite <-(string_of_list_ascii_of_string s1),
          <-(string_of_list_ascii_of_string s2). by rewrite H.
Qed.

Lemma string_app_assoc (s1 s2 s3 : string) :
  (s1 +:+ s2) +:+ s3 = s1 +:+ s2 +:+ s3.
Proof. apply chars_inj. by rewrite !chars_app, (assoc_L (++)). Qed.

Lemma string_app_inv_tail (s1 s2 r : string) :
  s1 +:+ r = s2 +:+ r → s1 = s2.
Proof.
  intros H. apply chars_inj. apply (f_equal chars) in H.
  rewrite !chars_app in H. by apply (inj (.++ chars r)) in H.
Qed.

(** The loop appends the text of the pairs to what was fed before. *)
Lemma feed_text (d : PyDict.t string) (ks : list string) (m : string) :
  ks ⊆ PyDict.keys d →
  ∃ vs, Forall2 (λ k v, PyDict.get k d = inr v) ks vs ∧
        feed d ks m = inr (m +:+ pairs_text ks vs).
Proof.
  revert m. induction ks as [|k ks IH]; intros m Hsub.
  - exists []. split; [constructor|]. simpl. f_equal. apply chars_inj.
    by rewrite chars_app, app_nil_r.
  - destruct (get_keys d k) as (v & Hv & _).
    { apply Hsub. apply elem_of_cons. by left. }
    destruct (IH (md5_update m (k +:+ " " +:+ v))) as (vs & Hvs & Hfeed).
    { intros k' Hk'. apply Hsub. apply elem_of_cons. by right. }
    exists (v :: vs). split; [by constructor|].
    simpl. rewrite Hv. simpl. rewrite Hfeed. unfold md5_update.
    f_equal. by rewrite !string_app_assoc.
Qed.

Lemma sorted_keys_subseteq (d : PyDict.t string) :
  sorted (PyDict.keys d) ⊆ PyDict.keys d.
Proof. intros k. unfold sorted. by rewrite merge_sort_Permutation. Qed.
End identity_more.

(** X4.  The version takes part in the identity: for one and the same
    metadata dict, two different versions are digested as different
    messages. *)
Theorem version_changes_digest_input (metadata : PyDict.t string)
    (version1 version2 : Z) :
  version1 ≠ version2 →
  Identity.digest_input version1 metadata
  ≠ Identity.digest_input version2 metadata.
Proof.
  intros Hne Heq. apply Hne. unfold Identity.digest_input in Heq.
  destruct (feed_text metadata (Identity.sorted (PyDict.keys metadata))
              (Identity.md5_update "" ("version " +:+ pretty version1))
              (sorted_keys_subseteq metadata)) as (vs1 & Hvs1 & H1).
  destruct (feed_text metadata (Identity.sorted (PyDict.keys metadata))
              (Identity.md5_update "" ("version " +:+ pretty version2))
              (sorted_keys_subseteq metadata)) as (vs2 & Hvs2 & H2).
  assert (vs1 = vs2) as ->.
  { clear -Hvs1 Hvs2. revert vs2 Hvs2.
    induction Hvs1 as [|k v ks vs Hv _ IH]; intros vs2 Hvs2;
      inversion Hvs2 as [|? v' ? vs' Hv' Hvs']; simplify_eq; [done|].
    f_equal; [congruence|by apply IH]. }
  rewrite H1, H2 in Heq. injection Heq as Heq.
  apply string_app_inv_tail in Heq. unfold Identity.md5_update in Heq.
  repeat match type of Heq with
         | (_ +:+ _ = _ +:+ _) => apply (inj (String.append _)) in Heq
         end.
  by apply (inj pretty) in Heq.
Qed.

Lemma version_changes_digest_input_witness :
  Identity.digest_input 1 [("a", "b")] ≠ Identity.digest_input 2 [("a", "b")].
Proof.
  apply (version_changes_digest_input [("a", "b")] 1 2). discriminate.
Defined.

Section identity_injective.
Import Identity.

Lemma split_at_space (a a' r r' : list ascii) :
  " "%char ∉ a → " "%char ∉ a' →
  a ++ " "%char :: r = a' ++ " "%char :: r' → a = a' ∧ r = r'.
Proof.
  revert a'. induction a as [|x a IH]; intros [|x' a'] Ha Ha' Heq;
    simplify_eq/=.
  - done.
  - exfalso. apply Ha'. apply elem_of_cons. by left.
  - exfalso. apply Ha. apply elem_of_cons. by left.
  - apply not_elem_of_cons in Ha as [_ Ha].
    apply not_elem_of_cons in Ha' as [_ Ha'].
    destruct (IH a' Ha Ha' H0) as [-> ->]. done.
Qed.

Lemma chars_pairs_text_cons (k v : string) (ks vs : list string) :
  chars (pairs_text (k :: ks) (v :: vs))
  = chars k ++ " "%char :: chars v ++ chars (pairs_text ks vs).
Proof.
  simpl. rewrite !chars_app, <-!(assoc_L (++)). done.
Qed.

Lemma pairs_text_inj (ks vs1 vs2 : list string) :
  List.length vs1 = List.length ks → List.length vs2 = List.length ks →
  Forall space_free ks → Forall space_free vs1 → Forall space_free vs2 →
  pairs_text ks vs1 = pairs_text ks vs2 → vs1 = vs2.
Proof.
  revert vs1 vs2.
  induction ks as [|k ks IH]; intros [|v1 vs1] [|v2 vs2] Hl1 Hl2 Hks H1 H2 Heq;
    simplify_eq/=; [done|].
  apply (f_equal chars) in Heq.
  pose proof (chars_pairs_text_cons k v1 ks vs1) as E1.
  pose proof (chars_pairs_text_cons k v2 ks vs2) as E2.
  simpl in E1, E2. rewrite E1, E2 in Heq. clear E1 E2.
  apply (inj (chars k ++.)) in Heq. injection Heq as Heq.
  apply Forall_cons in Hks as [Hk Hks].
  apply Forall_cons in H1 as [Hv1 H1].
  apply Forall_cons in H2 as [Hv2 H2].
  assert (v1 = v2 ∧ pairs_text ks vs1 = pairs_text ks vs2) as [-> Hrest].
  { destruct ks as [|k' ks].
    - destruct vs1, vs2; simplify_eq/=. rewrite !app_nil_r in Heq.
      split; [by apply chars_inj|done].
    - destruct vs1 as [|v1' vs1], vs2 as [|v2' vs2]; simplify_eq/=.
      pose proof (chars_pairs_text_cons k' v1' ks vs1) as E1.
      pose proof (chars_pairs_text_cons k' v2' ks vs2) as E2.
      simpl in E1, E2. rewrite E1, E2 in Heq.
      rewrite !(assoc_L (++) (chars _) (chars k')) in Heq.
      apply Forall_cons in Hks as [Hk' _].
      apply split_at_space in Heq as [Hv Ht].
      + apply (inj (.++ chars k')) in Hv. apply chars_inj in Hv as ->.
        split; [done|]. apply chars_inj. rewrite E1, E2. by rewrite Ht.
      + unfold space_free in *. by intros [?|?]%elem_of_app.
      + unfold space_free in *. by intros [?|?]%elem_of_app. }
  f_equal. by apply IH.
Qed.

Lemma elem_of_get {V} (d : PyDict.t V) k v :
  PyDict.get k d = inr v → (k, v) ∈ d.
Proof.
  induction d as [|[k' v'] d IH]; simpl; [done|].
  destruct (decide (k = k')) as [->|Hne].
  - intros [= ->]. apply elem_of_cons. by left.
  - intros H. apply elem_of_cons. right. by apply IH.
Qed.
End identity_injective.

(** X5.  Where it is safe: two metadata dicts over the same keys whose keys
    and values contain no blank are digested as the same message only if
    they hold the same items.  (The collision of C2 needs a blank inside a
    value.) *)
Theorem digest_input_injective_space_free (version : Z)
    (M1 M2 : PyDict.t string) :
  PyDict.wf M1 → PyDict.wf M2 → PyDict.keys M1 ≡ₚ PyDict.keys M2 →
  Forall (λ kv, Identity.space_free kv.1 ∧ Identity.space_free kv.2)
    (M1 ++ M2) →
  Identity.digest_input version M1 = Identity.digest_input version M2 →
  M1 ≡ₚ M2.
Proof.
  intros Hwf1 Hwf2 Hkeys Hfree Heq.
  apply Forall_app in Hfree as [Hfree1 Hfree2].
  rewrite Forall_forall in Hfree1, Hfree2.
  unfold Identity.digest_input in Heq.
  rewrite <-(sorted_perm _ _ Hkeys) in Heq.
  set (ks := Identity.sorted (PyDict.keys M1)) in *.
  assert (ks ⊆ PyDict.keys M1) as Hsub1 by apply sorted_keys_subseteq.
  assert (ks ⊆ PyDict.keys M2) as Hsub2.
  { intros k Hk. rewrite <-Hkeys. by apply Hsub1. }
  destruct (feed_text M1 ks
              (Identity.md5_update "" ("version " +:+ pretty version)) Hsub1)
    as (vs1 & Hvs1 & H1).
  destruct (feed_text M2 ks
              (Identity.md5_update "" ("version " +:+ pretty version)) Hsub2)
    as (vs2 & Hvs2 & H2).
  rewrite H1, H2 in Heq. injection Heq as Heq.
  apply (inj (String.append _)) in Heq.
  assert (vs1 = vs2) as <-.
  { apply (pairs_text_inj ks).
    - symmetry. by eapply Forall2_length.
    - symmetry. by eapply Forall2_length.
    - apply Forall_forall. intros k Hk. apply Hsub1 in Hk.
      apply list_elem_of_fmap in Hk as ([k' v] & -> & Hin).
      by apply (Hfree1 _ Hin).
    - apply Forall_forall. intros v Hv.
      apply list_elem_of_lookup in Hv as [i Hi].
      destruct (Forall2_lookup_r _ _ _ _ _ Hvs1 Hi) as (k & _ & Hget).
      by apply (Hfree1 _ (elem_of_get _ _ _ Hget)).
    - apply Forall_forall. intros v Hv.
      apply list_elem_of_lookup in Hv as [i Hi].
      destruct (Forall2_lookup_r _ _ _ _ _ Hvs2 Hi) as (k & _ & Hget).
      by apply (Hfree2 _ (elem_of_get _ _ _ Hget)).
    - done. }
  assert (∀ k, k ∈ PyDict.keys M1 → PyDict.get k M1 = PyDict.get k M2)
    as Hget.
  { intros k Hk.
    assert (k ∈ ks) as Hin.
    { unfold ks, Identity.sorted. by rewrite merge_sort_Permutation. }
    apply list_elem_of_lookup in Hin as [i Hi].
    destruct (Forall2_lookup_l _ _ _ _ _ Hvs1 Hi) as (v & Hv & ->).
    destruct (Forall2_lookup_l _ _ _ _ _ Hvs2 Hi) as (v' & Hv' & ->).
    congruence. }
  apply NoDup_Permutation.
  - eapply NoDup_fmap_1. exact Hwf1.
  - eapply NoDup_fmap_1. exact Hwf2.
  - intros [k v]. split; intros Hin.
    + apply elem_of_get. rewrite <-Hget.
      * by apply get_elem_of.
      * apply list_elem_of_fmap. by exists (k, v).
    + apply elem_of_get. rewrite Hget.
      * by apply get_elem_of.
      * unfold PyDict.keys. rewrite Hkeys. apply list_elem_of_fmap.
        by exists (k, v).
Qed.

Lemma digest_input_injective_space_free_witness :
  [("a", "1"); ("b", "2")] ≡ₚ [("b", "2"); ("a", "1")].
Proof.
  apply (digest_input_injective_space_free 1
           [("a", "1"); ("b", "2")] [("b", "2"); ("a", "1")]).
  - unfold PyDict.wf. simpl. apply (bool_decide_unpack _). vm_compute.
    reflexivity.
  - unfold PyDict.wf. simpl. apply (bool_decide_unpack _). vm_compute.
    reflexivity.
  - apply perm_swap.
  - unfold Identity.space_free.
    apply (bool_decide_unpack _). vm_compute. reflexivity.
  - vm_compute. reflexivity.
Defined.

Section collect_facts.
Import Identity.

Lemma update_get_notin {V} (d other : PyDict.t V) (k : string) :
  k ∉ PyDict.keys other →
  PyDict.get k (PyDict.update d other) = PyDict.get k d.
Proof.
  unfold PyDict.update, PyDict.keys. revert d.
  induction other as [|[k0 v0] other IH]; intros d Hk; simpl; [done|].
  apply not_elem_of_cons in Hk as [Hne Hk].
  rewrite (IH _ Hk). by apply get_set_ne.
Qed.

Lemma update_get_in {V} (d other : PyDict.t V) (k : string) (v : V) :
  PyDict.wf other → PyDict.get k other = inr v →
  PyDict.get k (PyDict.update d other) = inr v.
Proof.
  unfold PyDict.wf. revert d.
  induction other as [|[k0 v0] other IH]; intros d Hwf Hget; [done|].
  apply NoDup_cons in Hwf as [Hk0 Hwf]. simpl in Hget.
  change (PyDict.update d ((k0, v0) :: other))
    with (PyDict.update (PyDict.set k0 v0 d) other).
  destruct (decide (k = k0)) as [->|Hne].
  - injection Hget as ->.
    rewrite update_get_notin by done. apply get_set_eq.
  - by apply IH.
Qed.

Lemma collect_snoc (cs : list (PyDict.t string)) (c : PyDict.t string) :
  collect (cs ++ [c]) = PyDict.update (collect cs) c.
Proof. unfold collect. by rewrite foldl_app. Qed.
End collect_facts.

(** X6.  When several inputs contribute the same metadata key, the value of
    the last one that does is the one that is kept, and so the one that is
    hashed: the earlier values are overwritten without notice.  Two
    experiments of one class used as inputs both contribute under the
    class title. *)
Theorem last_contribution_wins (before after : list (PyDict.t string))
    (c : PyDict.t string) (k v : string) :
  PyDict.wf c → PyDict.get k c = inr v →
  Forall (λ c', k ∉ PyDict.keys c') after →
  PyDict.get k (Identity.collect (before ++ c :: after)) = inr v.
Proof.
  intros Hwf Hget.
  induction after as [|c' after IH] using rev_ind; intros Hafter.
  - rewrite collect_snoc. by apply update_get_in.
  - destruct (proj1 (Forall_app (λ c' : PyDict.t string, k ∉ PyDict.keys c')
                         after [c']) Hafter) as [Hafter' Hc'].
    apply Forall_inv in Hc'.
    rewrite app_comm_cons, (assoc_L (++)), collect_snoc.
    rewrite update_get_notin by done. by apply IH.
Qed.

Lemma last_contribution_wins_witness :
  PyDict.get "Upstream"
    (Identity.collect
       ([Identity.Experiment_inp_metadata "Upstream" "Upstream-1"]
        ++ Identity.Experiment_inp_metadata "Upstream" "Upstream-2"
        :: [[("threshold", "3")]]))
  = inr "Upstream-2".
Proof.
  apply (last_contribution_wins
           [Identity.Experiment_inp_metadata "Upstream" "Upstream-1"]
           [[("threshold", "3")]]
           (Identity.Experiment_inp_metadata "Upstream" "Upstream-2")).
  - unfold PyDict.wf. simpl. apply (bool_decide_unpack _). vm_compute.
    reflexivity.
  - vm_compute. reflexivity.
  - apply (bool_decide_unpack _). vm_compute. reflexivity.
Defined.

(** ** Tables *)

Section table_name_facts.

Lemma after_last_hyphen_none (s : string) :
  "-"%char ∉ Identity.chars s → Table.after_last_hyphen s = None.
Proof.
  induction s as [|c s IH]; [done|]. simpl.
  intros [Hc Hs]%not_elem_of_cons. rewrite (IH Hs).
  by rewrite decide_False.
Qed.

Lemma after_last_hyphen_app (pre suf : string) :
  "-"%char ∉ Identity.chars suf →
  Table.after_last_hyphen (pre +:+ "-" +:+ suf) = Some suf.
Proof.
  intros Hsuf. induction pre as [|c pre IH].
  - change ("" +:+ "-" +:+ suf) with (String "-" suf). simpl.
    by rewrite (after_last_hyphen_none suf Hsuf).
  - change (String c pre +:+ "-" +:+ suf)
      with (String c (pre +:+ "-" +:+ suf)).
    simpl. by rewrite IH.
Qed.
End table_name_facts.

(** X7.  The table of a parameter is named after the experiment title and
    the part of the parameter name behind its last hyphen: whatever comes
    before that hyphen does not reach the table name. *)
Theorem table_name_last_segment (self : Table.t) (pre suf : string) :
  Table.name self = pre +:+ "-" +:+ suf →
  "-"%char ∉ Identity.chars suf →
  Table.table_name self = Table.static_title self +:+ "__" +:+ suf.
Proof.
  intros Hname Hsuf. unfold Table.table_name.
  by rewrite Hname, (after_last_hyphen_app pre suf Hsuf).
Qed.

Lemma table_name_last_segment_witness :
  Table.table_name
    (Table.init "first-run-results" "Exp" "Exp-0" "Exp-0" "{}" [] None)
  = "Exp" +:+ "__" +:+ "results".
Proof.
  apply (table_name_last_segment
           (Table.init "first-run-results" "Exp" "Exp-0" "Exp-0" "{}" [] None)
           "first-run" "results").
  - reflexivity.
  - apply (bool_decide_unpack _). vm_compute. reflexivity.
Defined.

Section bookkeeping_facts.
Import Sqlite.

(** The [metadata] table with the row of one experiment. *)
Lemma metadata_hook (experiment metadata : string) (c : connection) :
  Database.before_experiment_run true experiment metadata c
  = (inr tt,
     if find_table "metadata" (main c) is Some _ then c
     else Connection
            (main c ++
             [Table "metadata"
                "CREATE TABLE metadata (experiment text PRIMARY KEY, metadata text)"
                [Column "experiment" "text" true;
                 Column "metadata" "text" false]
                [[Text experiment; Text metadata]]])
            (attached c)).
Proof.
  unfold Database.before_experiment_run, try_except, mbind, io_bind.
  unfold Database.create_table, create_table.
  destruct (find_table "metadata" (main c)) as [t|] eqn:Hfind; [done|].
  simpl. unfold insert.
  rewrite (lookup_table_app_new "metadata" (main c)
             (Table "metadata" _ _ []) (attached c) Hfind eq_refl).
  simpl. unfold set_schema_db.
  by rewrite (alter_table_app_new "metadata" (main c)
                (Table "metadata" _ _ []) _ Hfind eq_refl).
Qed.

Lemma find_table_app_old (name : string) (pre post : database) (t : table) :
  find_table name pre = Some t → find_table name (pre ++ post) = Some t.
Proof.
  unfold find_table. intros H.
  destruct (list_find _ pre) as [[i t']|] eqn:Hf; [|done].
  by rewrite (list_find_app_l _ _ _ _ _ Hf).
Qed.
End bookkeeping_facts.

(** X8.  The bookkeeping of an output database: on a store without a
    [metadata] table the table is created with one row, the identifier and
    the metadata of the running experiment; on a store that has the table
    already the failing creation is swallowed together with the insertion,
    so the store stays as it is and gets no row for the running
    experiment.  The hook itself never raises. *)
Theorem metadata_bookkeeping (experiment metadata : string)
    (c : Sqlite.connection) :
  ∃ c', Database.before_experiment_run true experiment metadata c
        = (inr tt, c') ∧
    match Sqlite.find_table "metadata" (Sqlite.main c) with
    | Some _ => c' = c
    | None =>
        Sqlite.attached c' = Sqlite.attached c ∧
        ∃ t, Sqlite.main c' = Sqlite.main c ++ [t] ∧
          Sqlite.tbl_name t = "metadata" ∧
          Sqlite.tbl_rows t
          = [[Sqlite.Text experiment; Sqlite.Text metadata]] ∧
          Sqlite.col_name <$> Sqlite.tbl_columns t = ["experiment"; "metadata"]
    end.
Proof.
  eexists. split; [apply metadata_hook|].
  destruct (Sqlite.find_table "metadata" (Sqlite.main c)); [done|].
  split; [done|]. eexists. split; [done|]. done.
Qed.

Section output_setup_facts.
Import Sqlite.

Lemma metadata_hook_keeps_tables (experiment metadata name : string)
    (c : connection) (t : table) :
  find_table name (main c) = Some t →
  find_table name
    (main (Database.before_experiment_run true experiment metadata c).2)
  = Some t.
Proof.
  intros Hfind. rewrite metadata_hook. simpl.
  destruct (find_table "metadata" (main c)); [done|].
  simpl. by apply find_table_app_old.
Qed.

Lemma metadata_hook_attached (experiment metadata : string) (c : connection) :
  attached (Database.before_experiment_run true experiment metadata c).2
  = attached c.
Proof.
  rewrite metadata_hook. simpl.
  by destruct (find_table "metadata" (main c)).
Qed.

(** The output set-up of a table is the bookkeeping followed by the
    creation of the table. *)
Lemma table_output_setup (self : Table.t) (c : connection) :
  Table.before_experiment_run self Table.Output c
  = match Database.create_table (Table.table_name self) (Table.fields self)
            (Table.index self)
            (Database.before_experiment_run true
               (Table.dynamic_identifier self) (Table.dynamic_metadata self)
               c).2 with
    | (inl e, c') => (inl e, c')
    | (inr _, c') =>
        (inr (Table.Make (Table.name self) false (Table.index self)
                (Table.fields self) (Some Table.Output)
                (Table.static_title self) (Table.static_identifier self)
                (Table.dynamic_identifier self) (Table.dynamic_metadata self)),
         c')
    end.
Proof.
  unfold Table.before_experiment_run, Table.Type_before_experiment_run.
  unfold mbind, io_bind, mret, io_ret.
  rewrite (bool_decide_eq_true_2 (Table.Output = Table.Output) eq_refl).
  rewrite metadata_hook. cbn beta iota zeta.
  change (Table.table_name (Table.set_read_only false _))
    with (Table.table_name self).
  cbn [Table.fields Table.index Table.set_read_only snd].
  by destruct (Database.create_table _ _ _ _) as [[e|[]] c'].
Qed.
End output_setup_facts.

(** X9.  Two output tables whose names lead to the same table name cannot
    be set up on one store: once the first set-up has succeeded, the second
    raises [OperationalError] because the table exists.  The same holds for
    setting one table up twice. *)
Theorem second_output_table_fails (first second first' : Table.t)
    (c0 c1 : Sqlite.connection) :
  Table.table_name first = Table.table_name second →
  Table.before_experiment_run first Table.Output c0 = (inr first', c1) →
  ∃ c2,
    Table.before_experiment_run second Table.Output c1
    = (inl (OperationalError
              ("table " +:+ Table.table_name second +:+ " already exists")),
       c2).
Proof.
  intros Hname. rewrite !table_output_setup.
  unfold Database.create_table, Sqlite.create_table. rewrite <-Hname.
  set (c0' := (Database.before_experiment_run true _ _ c0).2).
  destruct (Sqlite.find_table (Table.table_name first) (Sqlite.main c0'))
    as [|] eqn:Hfind; [done|].
  destruct (decide (_ = [])); [done|].
  destruct (decide (NoDup _)); [|done].
  intros [= _ <-].
  set (t := Sqlite.Table (Table.table_name first) _ _ []).
  rewrite (metadata_hook_keeps_tables _ _ (Table.table_name first) _ t).
  - by eexists.
  - by apply find_table_app_new.
Qed.

Lemma second_output_table_fails_witness :
  let first := Table.init "a-res" "Exp" "Exp-0" "Exp-0" "{}"
                 [Table.Plain "x"] None in
  let second := Table.init "b-res" "Exp" "Exp-0" "Exp-0" "{}"
                  [Table.Plain "y"] None in
  ∃ c2,
    Table.before_experiment_run second Table.Output
      (Table.before_experiment_run first Table.Output
         (Sqlite.Connection [] [])).2
    = (inl (OperationalError
              ("table " +:+ Table.table_name second +:+ " already exists")),
       c2).
Proof.
  intros first second.
  refine (second_output_table_fails first second
            (Table.Make "a-res" false None
               [("experiment", "text"); ("x", "text")] (Some Table.Output)
               "Exp" "Exp-0" "Exp-0" "{}")
            (Sqlite.Connection [] []) _ _ _).
  - reflexivity.
  - vm_compute. reflexivity.
Defined.

Section table_store_facts.
Import Sqlite.

Lemma lookup_table_unattached (name : string) (c : connection) :
  attached c = [] →
  lookup_table name c = (λ t, (Main, main c, t)) <$> find_table name (main c).
Proof.
  intros Hatt. unfold lookup_table, resolve. rewrite Hatt.
  destruct (find_table name (main c)) as [t|] eqn:Hfind; simpl; [|done].
  by rewrite Hfind.
Qed.

Lemma find_table_alter (name : string) (db : database) (t t' : table) :
  find_table name db = Some t → tbl_name t' = name →
  find_table name (alter_table name (λ _, t') db) = Some t'.
Proof.
  unfold find_table, alter_table. intros Hfind Hname.
  induction db as [|t0 db IH]; [done|]. simpl in *.
  destruct (decide (tbl_name t0 = name)) as [Heq|Hne].
  - by rewrite decide_True.
  - rewrite decide_False by done.
    destruct (list_find _ db) as [[i t1]|]; [|done].
    simpl in *. specialize (IH Hfind).
    change (list_fmap table table ?f db) with (f <$> db).
    destruct (list_find _ (_ <$> db)) as [[j t2]|]; [|done].
    simpl in *. by simplify_eq.
Qed.

Lemma bound_value_get (d : PyDict.t value) (k : string) :
  bound_value d.*1 d.*2 k
  = match PyDict.get k d with inr v => v | inl _ => Null end.
Proof.
  unfold bound_value. rewrite zip_fst_snd.
  induction d as [|[k' v'] d IH]; [done|]. simpl.
  destruct (decide (k' = k)) as [->|Hne].
  - by rewrite decide_True.
  - rewrite decide_False by done.
    destruct (list_find _ d) as [[i [k0 v0]]|]; simpl in *; done.
Qed.

Lemma list_index_column (cname : string) (cols : list column) (i : nat) :
  column_index cname cols = Some i →
  Table.list_index cname (col_name <$> cols) = inr i
  ∧ cname ∈ col_name <$> cols.
Proof.
  unfold column_index, Table.list_index. intros H.
  rewrite list_find_fmap.
  destruct (list_find (λ col, col_name col = cname) cols)
    as [[j col]|] eqn:Hfind; [|done].
  simplify_eq/=.
  replace (list_find ((λ c, c = cname) ∘ col_name) cols)
    with (Some (i, col)).
  split; [done|].
  apply list_find_Some in Hfind as (Hl & Hn & _).
  apply list_elem_of_fmap. exists col. split; [done|].
  by eapply list_elem_of_lookup_2.
Qed.

Lemma fmap_delete {A B} (f : A → B) (l : list A) (i : nat) :
  delete i (f <$> l) = f <$> delete i l.
Proof.
  revert i. induction l as [|x l IH]; intros [|i]; simpl; try done.
  by rewrite IH.
Qed.

(** [Table.value] on a store that holds the table. *)
Lemma value_spec (self : Table.t) (c : connection) sc db (t : table)
    (i : nat) :
  lookup_table (Table.table_name self) c = Some (sc, db, t) →
  column_index "experiment" (tbl_columns t) = Some i →
  Table.value self c
  = (inr (delete i (col_name <$> tbl_columns t),
          delete i <$>
            filter (in_experiment i (Text (Table.static_identifier self)))
              (tbl_rows t)),
     c).
Proof.
  intros Hlook Hi.
  destruct (list_index_column _ _ _ Hi) as [Hidx Hin].
  unfold Table.value, Database.values, select_experiment.
  unfold mbind, io_bind. rewrite Hlook, Hi. simpl.
  rewrite decide_True by done. simpl.
  unfold lift_result. by rewrite Hidx.
Qed.

(** [Table.value] fails on a store without the table or without the
    experiment column, and leaves the store alone in every case. *)
Lemma value_reads_only (self : Table.t) (c : connection) :
  (Table.value self c).2 = c.
Proof.
  unfold Table.value, Database.values, select_experiment.
  unfold mbind, io_bind.
  destruct (lookup_table _ c) as [[[sc db] t]|]; [|done].
  destruct (column_index _ _) as [i|]; [|done]. simpl.
  destruct (decide _); [|done]. simpl.
  unfold lift_result. by destruct (Table.list_index _ _).
Qed.
End table_store_facts.

Section table_round_trip.
Import Sqlite.

Lemma experiment_in_stamped_row (self : Table.t)
    (data : option (PyDict.t value)) (kwargs : PyDict.t value) :
  "experiment" ∈ (Table.stamped_row self data kwargs).*1.
Proof.
  unfold Table.stamped_row.
  pose proof (set_first "experiment"
    (Text (Table.dynamic_identifier self))
    match data with
    | Some ((_ :: _) as data) => PyDict.update kwargs data
    | _ => kwargs
    end) as Hf.
  apply list_find_Some in Hf as (Hl & _ & _).
  apply list_elem_of_fmap. eexists; split; [|by eapply list_elem_of_lookup_2].
  done.
Qed.

Lemma column_index_elem_of (cname : string) (cols : list column) :
  cname ∈ col_name <$> cols → is_Some (column_index cname cols).
Proof.
  intros (col & Hname & Hcol)%list_elem_of_fmap. unfold column_index.
  destruct (list_find _ cols) as [[i col']|] eqn:Hf; [by eexists|].
  apply list_find_None in Hf. rewrite Forall_forall in Hf.
  by destruct (Hf col Hcol).
Qed.

Lemma find_table_name (name : string) (db : database) (t : table) :
  find_table name db = Some t → tbl_name t = name.
Proof.
  unfold find_table. destruct (list_find _ db) as [[i t']|] eqn:Hf; [|done].
  intros [= <-]. by apply list_find_Some in Hf as (_ & ? & _).
Qed.
End table_round_trip.

(** X10.  Insert and read back.  On a store with nothing attached, for a
    table all of whose columns are declared [text] and whose enclosing
    experiment is the running one, a successful [Table.insert] adds exactly
    one row to what [Table.value] returns: the rows read before stay in
    place, and the new last row holds under every heading the text (or
    NULL) the inserted row has under that name, NULL if it has none; the
    headings do not change. *)
Theorem insert_then_value (self : Table.t)
    (data : option (PyDict.t Sqlite.value)) (kwargs : PyDict.t Sqlite.value)
    (c c' : Sqlite.connection) (t : Sqlite.table) :
  Sqlite.attached c = [] →
  Sqlite.find_table (Table.table_name self) (Sqlite.main c) = Some t →
  Sqlite.text_columns t →
  Table.static_identifier self = Table.dynamic_identifier self →
  Table.insert self data kwargs c = (inr tt, c') →
  ∃ headings rows,
    Table.value self c = (inr (headings, rows), c) ∧
    Table.value self c'
    = (inr (headings,
            rows ++
            [(λ h, match PyDict.get h (Table.stamped_row self data kwargs) with
                   | inr v => v
                   | inl _ => Sqlite.Null
                   end) <$> headings]),
       c').
Proof.
  intros Hatt Hfind _ Hid. unfold Table.insert.
  destruct (Table.read_only self); [done|].
  destruct (decide _) as [Hkeys|]; [|done].
  pose proof (experiment_in_stamped_row self data kwargs) as Hin.
  set (row := Table.stamped_row self data kwargs) in *.
  unfold Sqlite.insert. rewrite (lookup_table_unattached _ _ Hatt), Hfind.
  simpl.
  destruct (decide (_ ≠ _)); [done|].
  destruct (decide (_ ⊆ _)) as [Hsub|]; [|done].
  destruct (Sqlite.violates_primary _ _ _); [done|].
  intros [= <-].
  destruct (column_index_elem_of _ _ (Hsub _ Hin)) as [i Hi].
  set (new := _ <$> Sqlite.tbl_columns t).
  set (t' := Sqlite.Table (Sqlite.tbl_name t) (Sqlite.tbl_sql t)
               (Sqlite.tbl_columns t) (Sqlite.tbl_rows t ++ [new])).
  eexists _, _. split.
  { apply (value_spec self c Sqlite.Main (Sqlite.main c) t i); [|done].
    by rewrite (lookup_table_unattached _ _ Hatt), Hfind. }
  pose proof (find_table_name _ _ _ Hfind) as Hname.
  rewrite (value_spec self _ Sqlite.Main
             (Sqlite.alter_table (Table.table_name self) (λ _, t')
                (Sqlite.main c)) t' i); [| |done].
  2:{ rewrite lookup_table_unattached by done. simpl.
      by rewrite (find_table_alter _ _ t t' Hfind Hname). }
  do 3 f_equal. simpl.
  assert (new !! i = Some (Sqlite.Text (Table.static_identifier self)))
    as Hnew.
  { apply column_index_lookup in Hi as (col & Hi & Hn).
    apply list_lookup_fmap_Some. exists col. split; [|done].
    simpl. rewrite Hn, Hid. symmetry. apply bound_value_set. }
  rewrite filter_app, fmap_app. f_equal.
  rewrite filter_cons_True, filter_nil by (by split).
  simpl. f_equal. unfold new.
  rewrite list_fmap_compose, (fmap_delete (Sqlite.bound_value _ _)).
  apply list_fmap_ext. intros _ h _. apply bound_value_get.
Qed.

Lemma insert_then_value_witness :
  let self := Table.set_read_only false
                (Table.init "out" "Exp" "Exp-0" "Exp-0" "{}"
                   [Table.Plain "key"] None) in
  let c := Sqlite.Connection
             [Sqlite.Table "Exp__out"
                "CREATE TABLE Exp__out (experiment text, key text)"
                [Sqlite.Column "experiment" "text" false;
                 Sqlite.Column "key" "text" false]
                [[Sqlite.Text "Exp-0"; Sqlite.Text "a"]]] [] in
  ∃ headings rows,
    Table.value self c = (inr (headings, rows), c) ∧
    Table.value self (Table.insert self None [("key", Sqlite.Text "b")] c).2
    = (inr (headings,
            rows ++
            [(λ h, match PyDict.get h
                           (Table.stamped_row self None
                              [("key", Sqlite.Text "b")]) with
                   | inr v => v
                   | inl _ => Sqlite.Null
                   end) <$> headings]),
       (Table.insert self None [("key", Sqlite.Text "b")] c).2).
Proof.
  intros self c.
  refine (insert_then_value self None [("key", Sqlite.Text "b")] c
            (Table.insert self None [("key", Sqlite.Text "b")] c).2
            (Sqlite.Table "Exp__out"
               "CREATE TABLE Exp__out (experiment text, key text)"
               [Sqlite.Column "experiment" "text" false;
                Sqlite.Column "key" "text" false]
               [[Sqlite.Text "Exp-0"; Sqlite.Text "a"]]) _ _ _ _ _).
  - reflexivity.
  - vm_compute. reflexivity.
  - apply (bool_decide_unpack _). vm_compute. reflexivity.
  - reflexivity.
  - vm_compute. reflexivity.
Defined.

Section clear_facts.
Context {A : Type} (P Q : A → Prop) `{!∀ x, Decision (P x)}
  `{!∀ x, Decision (Q x)}.

Lemma filter_filter_disjoint (l : list A) :
  (∀ x, P x → ¬ Q x) → filter P (filter (λ x, ¬ Q x) l) = filter P l.
Proof.
  intros HPQ. induction l as [|x l IH]; [done|].
  rewrite !filter_cons.
  destruct (decide (P x)) as [HP|HP].
  - rewrite decide_True by auto. rewrite filter_cons, decide_True by done.
    by rewrite IH.
  - destruct (decide (¬ Q x)); [|done].
    by rewrite filter_cons, decide_False.
Qed.

Lemma filter_filter_not (l : list A) :
  filter P (filter (λ x, ¬ P x) l) = [].
Proof.
  induction l as [|x l IH]; [done|].
  rewrite filter_cons. destruct (decide (¬ P x)) as [HP|HP]; [|done].
  by rewrite filter_cons, decide_False.
Qed.
End clear_facts.

(** X11.  [Table.clear] removes the rows of the running experiment and no
    others.  On a store with nothing attached, whoever reads the same table
    after a successful clear gets the headings they got before; the reader
    whose enclosing experiment is the one that cleared gets no rows, every
    other reader gets the rows they got before. *)
Theorem clear_removes_own_rows (self reader : Table.t)
    (c c' : Sqlite.connection) :
  Sqlite.attached c = [] →
  Table.table_name reader = Table.table_name self →
  Table.clear self c = (inr tt, c') →
  ∃ headings rows,
    Table.value reader c = (inr (headings, rows), c) ∧
    Table.value reader c'
    = (inr (headings,
            if decide (Table.static_identifier reader
                       = Table.dynamic_identifier self)
            then [] else rows),
       c').
Proof.
  intros Hatt Hreader. unfold Table.clear, Sqlite.delete_experiment.
  rewrite (lookup_table_unattached _ _ Hatt).
  destruct (Sqlite.find_table _ (Sqlite.main c)) as [t|] eqn:Hfind; [|done].
  simpl.
  destruct (Sqlite.column_index "experiment" (Sqlite.tbl_columns t))
    as [i|] eqn:Hi; [|done].
  intros [= <-].
  set (t' := Sqlite.Table (Sqlite.tbl_name t) (Sqlite.tbl_sql t)
               (Sqlite.tbl_columns t)
               (filter (λ r, ¬ Sqlite.in_experiment i
                                 (Sqlite.Text (Table.dynamic_identifier self))
                                 r)
                  (Sqlite.tbl_rows t))).
  pose proof (find_table_name _ _ _ Hfind) as Hname.
  eexists _, _. split.
  { apply (value_spec reader c Sqlite.Main (Sqlite.main c) t i); [|done].
    by rewrite Hreader, (lookup_table_unattached _ _ Hatt), Hfind. }
  rewrite (value_spec reader _ Sqlite.Main
             (Sqlite.alter_table (Table.table_name self) (λ _, t')
                (Sqlite.main c)) t' i); [| |done].
  2:{ rewrite Hreader, lookup_table_unattached by done. simpl.
      by rewrite (find_table_alter _ _ t t' Hfind Hname). }
  do 3 f_equal. simpl.
  destruct (decide (Table.static_identifier reader
                    = Table.dynamic_identifier self)) as [->|Hne].
  - by rewrite filter_filter_not.
  - rewrite filter_filter_disjoint; [done|].
    intros r [_ Hr] [_ Hr']. rewrite Hr in Hr'. by simplify_eq.
Qed.

Lemma clear_removes_own_rows_witness :
  let self := Table.init "out" "Exp" "Exp-0" "Exp-1" "{}"
                [Table.Plain "key"] None in
  let c := Sqlite.Connection
             [Sqlite.Table "Exp__out"
                "CREATE TABLE Exp__out (experiment text, key text)"
                [Sqlite.Column "experiment" "text" false;
                 Sqlite.Column "key" "text" false]
                [[Sqlite.Text "Exp-0"; Sqlite.Text "a"];
                 [Sqlite.Text "Exp-1"; Sqlite.Text "b"]]] [] in
  ∃ headings rows,
    Table.value self c = (inr (headings, rows), c) ∧
    Table.value self (Table.clear self c).2
    = (inr (headings,
            if decide (Table.static_identifier self
                       = Table.dynamic_identifier self)
            then [] else rows),
       (Table.clear self c).2).
Proof.
  intros self c.
  refine (clear_removes_own_rows self self c (Table.clear self c).2 _ _ _).
  - reflexivity.
  - reflexivity.
  - vm_compute. reflexivity.
Defined.

(** X12.  Reading never writes.  [Table.value], the input set-up of a table
    and both input hooks of a [TableDict] leave the store exactly as they
    found it, whether they return or raise. *)
Theorem input_side_reads_only (self : Table.t) (d : TableDict.t)
    (c : Sqlite.connection) :
  (Table.value self c).2 = c ∧
  (Table.before_experiment_run self Table.Input c).2 = c ∧
  (TableDict.before_experiment_run d Table.Input c).2 = c ∧
  (TableDict.after_experiment_run d Table.Input c).2 = c.
Proof.
  assert (∀ s, (Table.before_experiment_run s Table.Input c)
               = (inr (Table.Make (Table.name s) (Table.read_only s)
                         (Table.index s) (Table.fields s)
                         (Some Table.Input) (Table.static_title s)
                         (Table.static_identifier s)
                         (Table.dynamic_identifier s)
                         (Table.dynamic_metadata s)), c)) as Hsetup.
  { done. }
  split; [apply value_reads_only|]. split; [by rewrite Hsetup|]. split.
  - unfold TableDict.before_experiment_run, mbind, io_bind.
    rewrite Hsetup.
    set (tbl := Table.Make _ _ _ _ _ _ _ _ _).
    pose proof (value_reads_only tbl c) as Hvalue.
    destruct (Table.value tbl c) as [[e|hv] c1]; simpl in *; [done|].
    subst c1. unfold lift_result.
    destruct (Table.list_index TableDict.key_name hv.1); [done|].
    destruct (Table.list_index TableDict.value_name hv.1); [done|].
    by destruct (TableDict.pairs _ _ _).
  - unfold TableDict.after_experiment_run.
    by destruct (decide _).
Qed.

Section flush_facts.
Import Sqlite.
Context (name title static dynamic metadata : string).

Let self : TableDict.t := TableDict.init name title static dynamic metadata.
Let tn : string := Table.table_name (TableDict.table self).
Let writable : Table.t :=
  Table.Make name false (Some TableDict.key_name)
    [("experiment", "text"); (TableDict.key_name, "text");
     (TableDict.value_name, "text")]
    (Some Table.Output) title static dynamic metadata.

Lemma filter_own_rows (L : list (value * value)) :
  filter (λ r, ¬ in_experiment 0 (Text dynamic) r)
    (TableDict.row_of dynamic <$> L) = [].
Proof.
  induction L as [|kv L IH]; [done|].
  rewrite fmap_cons, filter_cons_False; [done|].
  intros Hnot. apply Hnot. by split.
Qed.

(** Clearing a table that holds rows of the running experiment only. *)
Lemma clear_own_rows (L : list (value * value)) (pre : database)
    (att : list (string * database)) :
  find_table tn pre = None →
  Table.clear writable
    (Connection
       (pre ++ [TableDict.backing_table self (TableDict.row_of dynamic <$> L)])
       att)
  = (inr tt, Connection (pre ++ [TableDict.backing_table self []]) att).
Proof.
  intros Hpre. unfold Table.clear, delete_experiment.
  change (Table.table_name writable) with tn.
  rewrite (lookup_table_app_new tn pre
             (TableDict.backing_table self (TableDict.row_of dynamic <$> L))
             att Hpre eq_refl).
  cbn [tbl_columns tbl_rows tbl_name tbl_sql TableDict.backing_table].
  replace (column_index "experiment" TableDict.columns) with (Some 0)
    by (vm_compute; reflexivity).
  unfold set_schema_db.
  rewrite (alter_table_app_new tn pre
             (TableDict.backing_table self (TableDict.row_of dynamic <$> L))
             _ Hpre eq_refl).
  cbn [Table.dynamic_identifier writable].
  by rewrite filter_own_rows.
Qed.

Lemma flush_own_rows (d : gmap value value) (L : list (value * value))
    (pre : database) (att : list (string * database)) :
  find_table tn pre = None →
  TableDict.flush (TableDict.Make writable d)
    (Connection
       (pre ++ [TableDict.backing_table self (TableDict.row_of dynamic <$> L)])
       att)
  = (inr tt,
     Connection
       (pre ++ [TableDict.backing_table self
                  (TableDict.row_of dynamic <$> map_to_list d)])
       att).
Proof.
  intros Hpre. unfold TableDict.flush, mbind, io_bind.
  cbn [TableDict.table TableDict.content].
  rewrite (clear_own_rows L pre att Hpre).
  apply (flush_items name title static dynamic metadata
           (map_to_list d) [] pre att Hpre).
  apply NoDup_fst_map_to_list.
Qed.
End flush_facts.

(** X13.  The last flush wins.  Once the output set-up of a key/value dict
    has succeeded, flushing it with one content and then with another both
    succeed and leave the store exactly as a single flush of the second
    content does: the rows of the first flush are gone, whatever keys the
    two contents share. *)
Theorem flush_overwrites (name title static X metadata : string)
    (d1 d2 : gmap Sqlite.value Sqlite.value)
    (c0 c1 : Sqlite.connection) (out : TableDict.t) :
  TableDict.before_experiment_run
    (TableDict.init name title static X metadata) Table.Output c0
  = (inr out, c1) →
  ∃ c2 c3,
    TableDict.flush (TableDict.set_content d1 out) c1 = (inr tt, c2) ∧
    TableDict.flush (TableDict.set_content d2 out) c2 = (inr tt, c3) ∧
    TableDict.flush (TableDict.set_content d2 out) c1 = (inr tt, c3).
Proof.
  intros Hsetup.
  destruct (output_setup_shape _ _ _ _ _ _ _ _ Hsetup)
    as (-> & pre & att & Hpre & ->).
  unfold TableDict.set_content. cbn [TableDict.table].
  eexists _, _. split; [|split].
  - apply (flush_own_rows name title static X metadata d1 [] pre att Hpre).
  - apply (flush_own_rows name title static X metadata d2 (map_to_list d1)
             pre att Hpre).
  - apply (flush_own_rows name title static X metadata d2 [] pre att Hpre).
Qed.

Lemma flush_overwrites_witness :
  let d1 : gmap Sqlite.value Sqlite.value :=
    {[ Sqlite.Text "a" := Sqlite.Text "1" ]} in
  let d2 : gmap Sqlite.value Sqlite.value :=
    {[ Sqlite.Text "a" := Sqlite.Text "2"; Sqlite.Text "b" := Sqlite.Null ]} in
  let out :=
    TableDict.Make
      (Table.Make "out" false (Some "key")
         [("experiment", "text"); ("key", "text"); ("value", "text")]
         (Some Table.Output) "Exp" "Exp-0" "Exp-0" "{}") ∅ in
  let c1 :=
    (TableDict.before_experiment_run
       (TableDict.init "out" "Exp" "Exp-0" "Exp-0" "{}") Table.Output
       (Sqlite.Connection [] [])).2 in
  ∃ c2 c3,
    TableDict.flush (TableDict.set_content d1 out) c1 = (inr tt, c2) ∧
    TableDict.flush (TableDict.set_content d2 out) c2 = (inr tt, c3) ∧
    TableDict.flush (TableDict.set_content d2 out) c1 = (inr tt, c3).
Proof.
  intros d1 d2 out c1.
  refine (flush_overwrites "out" "Exp" "Exp-0" "Exp-0" "{}" d1 d2
            (Sqlite.Connection [] []) c1 out _).
  vm_compute. reflexivity.
Defined.

(** ** What reaches the table behind a dict *)

Section tabledict_access.
Import Sqlite.
Context (name title static dynamic metadata : string).

Let self : TableDict.t := TableDict.init name title static dynamic metadata.
Let tn : string := Table.table_name (TableDict.table self).

(** The rows of the running experiment in the table behind the dict. *)
Lemma values_own_rows (L : list (value * value)) (pre : database)
    (att : list (string * database)) :
  find_table tn pre = None →
  let c := Connection
             (pre ++ [TableDict.backing_table self
                        (TableDict.row_of dynamic <$> L)]) att in
  Database.values tn dynamic c
  = (inr (col_name <$> TableDict.columns, TableDict.row_of dynamic <$> L), c).
Proof.
  intros Hpre c. unfold Database.values, select_experiment, mbind, io_bind.
  unfold c.
  rewrite (lookup_table_app_new tn pre
             (TableDict.backing_table self (TableDict.row_of dynamic <$> L))
             att Hpre eq_refl).
  cbn [tbl_columns tbl_rows tbl_name tbl_sql TableDict.backing_table].
  replace (column_index "experiment" TableDict.columns) with (Some 0)
    by (vm_compute; reflexivity).
  rewrite (filter_rows dynamic L). cbn [fst snd].
  by rewrite decide_True by (apply (bool_decide_unpack _); vm_compute;
                             reflexivity).
Qed.
End tabledict_access.

(** C10 (as amended).  Every call to [insert] on a key/value dict raises
    [NotImplementedError], for all arguments and in every state, and
    changes nothing.  Once the output set-up has succeeded, the rows of the
    running experiment are written by the flush of the teardown, one row
    per item of the dict, and they are deleted at once by [clear()], which
    the dict inherits from the table: the store is then as the set-up left
    it, while the content of the dict is what it was. *)
Theorem tabledict_backing_table_access
    (name title static X metadata : string)
    (d : gmap Sqlite.value Sqlite.value)
    (args : list (PyDict.t Sqlite.value)) (kwargs : PyDict.t Sqlite.value)
    (c0 c1 : Sqlite.connection) (out : TableDict.t) :
  TableDict.before_experiment_run
    (TableDict.init name title static X metadata) Table.Output c0
  = (inr out, c1) →
  let self := TableDict.set_content d out in
  let tn := Table.table_name (TableDict.table self) in
  (∀ (any : TableDict.t) (c : Sqlite.connection),
     TableDict.insert any args kwargs c = (inl NotImplementedError, c)) ∧
  ∃ c2 headings rows,
    TableDict.after_experiment_run self Table.Output c1 = (inr tt, c2) ∧
    Database.values tn X c2 = (inr (headings, rows), c2) ∧
    rows ≡ₚ TableDict.row_of X <$> map_to_list d ∧
    TableDict.clear self c2 = (inr tt, c1) ∧
    TableDict.content self = d ∧
    Database.values tn X c1 = (inr (headings, []), c1).
Proof.
  intros Hsetup self tn.
  destruct (output_setup_shape _ _ _ _ _ _ _ _ Hsetup)
    as (-> & pre & att & Hpre & ->).
  split; [done|].
  eexists _, _, _. split; [|split; [|split; [reflexivity|split; [|split]]]].
  - unfold TableDict.after_experiment_run, self, TableDict.set_content.
    cbn [TableDict.table Table.current_type].
    rewrite !decide_True by done.
    unfold mbind, io_bind.
    rewrite (flush_spec name title static X metadata _ pre att Hpre).
    reflexivity.
  - apply (values_own_rows name title static X metadata (map_to_list d)
             pre att Hpre).
  - apply (clear_own_rows name title static X metadata (map_to_list d)
             pre att Hpre).
  - done.
  - apply (values_own_rows name title static X metadata [] pre att Hpre).
Qed.

Lemma tabledict_backing_table_access_witness :
  let d : gmap Sqlite.value Sqlite.value :=
    {[ Sqlite.Text "a" := Sqlite.Text "1" ]} in
  let out :=
    TableDict.Make
      (Table.Make "out" false (Some "key")
         [("experiment", "text"); ("key", "text"); ("value", "text")]
         (Some Table.Output) "Exp" "Exp-0" "Exp-0" "{}") ∅ in
  let c1 :=
    (TableDict.before_experiment_run
       (TableDict.init "out" "Exp" "Exp-0" "Exp-0" "{}") Table.Output
       (Sqlite.Connection [] [])).2 in
  let self := TableDict.set_content d out in
  let tn := Table.table_name (TableDict.table self) in
  (∀ (any : TableDict.t) (c : Sqlite.connection),
     TableDict.insert any [] [("key", Sqlite.Text "a")] c
     = (inl NotImplementedError, c)) ∧
  ∃ c2 headings rows,
    TableDict.after_experiment_run self Table.Output c1 = (inr tt, c2) ∧
    Database.values tn "Exp-0" c2 = (inr (headings, rows), c2) ∧
    rows ≡ₚ TableDict.row_of "Exp-0" <$> map_to_list d ∧
    TableDict.clear self c2 = (inr tt, c1) ∧
    TableDict.content self = d ∧
    Database.values tn "Exp-0" c1 = (inr (headings, []), c1).
Proof.
  intros d out c1.
  refine (tabledict_backing_table_access "out" "Exp" "Exp-0" "Exp-0" "{}" d
            [] [("key", Sqlite.Text "a")] (Sqlite.Connection [] []) c1 out _).
  vm_compute. reflexivity.
Defined.

(** C10 (as stated) fails: the table behind a dict is also modified by a
    call that is neither a mutation of the dict nor a flush.  After the
    teardown has written the item of the dict, [clear()] deletes its row;
    the dict still holds the item. *)
Lemma tabledict_clear_modifies_table :
  let self :=
    TableDict.Make
      (Table.Make "out" false (Some "key")
         [("experiment", "text"); ("key", "text"); ("value", "text")]
         (Some Table.Output) "Exp" "Exp-0" "Exp-0" "{}")
      {[ Sqlite.Text "a" := Sqlite.Text "1" ]} in
  let table rows :=
    Sqlite.Table "Exp__out"
      "CREATE TABLE Exp__out (experiment text, key text PRIMARY KEY, value text)"
      TableDict.columns rows in
  let written :=
    Sqlite.Connection
      [table [[Sqlite.Text "Exp-0"; Sqlite.Text "a"; Sqlite.Text "1"]]] [] in
  let cleared := Sqlite.Connection [table []] [] in
  TableDict.flush self cleared = (inr tt, written) ∧
  TableDict.clear self written = (inr tt, cleared) ∧
  cleared ≠ written ∧
  TableDict.content self !! Sqlite.Text "a" = Some (Sqlite.Text "1").
Proof.
  intros self table written cleared.
  split; [vm_compute; reflexivity|]. split; [vm_compute; reflexivity|].
  split; [discriminate|]. vm_compute. reflexivity.
Qed.

(** ** Merging *)

Section merger_single_source.
Import Merger.










End merger_single_source.



Section merger_sources.
Import Merger.

Lemma execute_tables {A} (stmt : io Sqlite.connection A) (m m' : t)
    (r : result A) :
  execute stmt m = (r, m') → tables m' = tables m.
Proof.
  unfold execute. destruct (stmt (target m)) as [r' c]. by intros [= _ <-].
Qed.

Lemma attach_sources_tables (fs : gmap string Sqlite.database)
    (sources : list string) :
  ∀ n m r m', attach_sources fs n sources m = (r, m') → tables m' = tables m.
Proof.
  induction sources as [|s sources IH]; intros n m r m'; simpl.
  - by intros [= _ <-].
  - destruct (fs !! s) as [db|]; [|by intros [= _ <-]].
    unfold mbind at 1, io_bind at 1.
    destruct (execute (Sqlite.attach s (alias_of n) db) m) as [[e|[]] m1]
      eqn:Hatt.
    + intros [= _ <-]. by apply execute_tables in Hatt.
    + unfold mbind, io_bind. simpl. intros Hrun.
      rewrite (IH _ _ _ _ Hrun). simpl. by apply execute_tables in Hatt.
Qed.

Lemma attach_sources_app (fs : gmap string Sqlite.database)
    (l1 l2 : list string) :
  ∀ n m,
    attach_sources fs n (l1 ++ l2) m
    = (attach_sources fs n l1;;
       attach_sources fs (n + List.length l1) l2) m.
Proof.
  induction l1 as [|s l1 IH]; intros n m.
  - unfold mbind, io_bind. simpl. by rewrite Nat.add_0_r.
  - simpl. destruct (fs !! s) as [db|]; [|done].
    unfold mbind, io_bind.
    destruct (execute (Sqlite.attach s (alias_of n) db) m) as [[e|[]] m1];
      [done|].
    simpl. rewrite IH. unfold mbind, io_bind.
    by replace (S n + List.length l1)%nat with (n + S (List.length l1))%nat
      by lia.
Qed.

(** A missing source stops the loop where the sources before it have been
    attached. *)
Lemma attach_sources_missing (fs : gmap string Sqlite.database)
    (before after : list string) (s : string) (m m' : t) :
  attach_sources fs 0 before m = (inr tt, m') → fs !! s = None →
  attach_sources fs 0 (before ++ s :: after) m = (inl AssertionError, m').
Proof.
  intros Hbefore Hs. rewrite attach_sources_app.
  unfold mbind, io_bind. rewrite Hbefore. simpl.
  unfold Sqlite.database in *. by rewrite Hs.
Qed.

Lemma elem_of_set_add (i r : Sqlite.row) (rows : list Sqlite.row) :
  r ∈ set_add i rows ↔ r ∈ rows ∨ r = i.
Proof.
  unfold set_add. destruct (decide (i ∈ rows)) as [Hin|Hin].
  - split; [by left|]. by intros [?| ->].
  - rewrite elem_of_app, list_elem_of_singleton. done.
Qed.

Lemma NoDup_set_add (i : Sqlite.row) (rows : list Sqlite.row) :
  NoDup rows → NoDup (set_add i rows).
Proof.
  intros Hnd. unfold set_add. destruct (decide (i ∈ rows)) as [Hin|Hin];
    [done|].
  apply NoDup_app. split; [done|]. split; [|apply NoDup_singleton].
  intros r Hr ->%list_elem_of_singleton. done.
Qed.

Lemma elem_of_set_update (r : Sqlite.row) (rows other : list Sqlite.row) :
  r ∈ set_update rows other ↔ r ∈ rows ∨ r ∈ other.
Proof.
  unfold set_update. revert rows.
  induction other as [|i other IH]; intros rows; simpl.
  - split; [by left|]. intros [?|Hin]; [done|]. by apply elem_of_nil in Hin.
  - rewrite IH, elem_of_set_add, elem_of_cons. tauto.
Qed.

Lemma NoDup_set_update (rows other : list Sqlite.row) :
  NoDup rows → NoDup (set_update rows other).
Proof.
  unfold set_update. revert rows.
  induction other as [|i other IH]; intros rows Hnd; simpl; [done|].
  apply IH. by apply NoDup_set_add.
Qed.

Lemma scan_spec (name : string) (databases : list string) :
  ∀ rows0 headers0 m rows headers m',
    scan name databases rows0 headers0 m = (inr (rows, headers), m') →
    m' = m ∧ (NoDup rows0 → NoDup rows) ∧
    ∀ r, r ∈ rows ↔
      r ∈ rows0 ∨
      ∃ a t, a ∈ databases ∧
        Sqlite.schema_db (Sqlite.Attached a) (target m)
          ≫= Sqlite.find_table name = Some t ∧
        r ∈ Sqlite.tbl_rows t.
Proof.
  induction databases as [|a databases IH];
    intros rows0 headers0 m rows headers m'.
  - simpl. intros [= <- <- <-]. split; [done|]. split; [done|].
    intros r. split; [by left|]. intros [?|(a & t & Ha & _)]; [done|].
    by apply elem_of_nil in Ha.
  - cbn [scan]. unfold mbind at 1, io_bind at 1.
    unfold execute, Sqlite.select_all.
    destruct (Sqlite.schema_db (Sqlite.Attached a) (target m)
                ≫= Sqlite.find_table name) as [t|] eqn:Ht; [|done].
    replace (Make (target m) (source_paths m) (tables m) (output m)) with m
      by (by destruct m).
    cbn [fst snd]. intros Hrun.
    destruct (IH _ _ _ _ _ _ Hrun) as (-> & Hnd & Hrows).
    split; [done|]. split.
    + intros Hnd0. by apply Hnd, NoDup_set_update.
    + intros r. rewrite Hrows, elem_of_set_update. split.
      * intros [[?|Hr]|(a' & t' & Ha' & Ht' & Hr)].
        -- by left.
        -- right. exists a, t. split; [left|]; done.
        -- right. exists a', t'. split; [by right|done].
      * intros [?|(a' & t' & [->|Ha']%elem_of_cons & Ht' & Hr)].
        -- by left; left.
        -- left. right. rewrite Ht in Ht'. by simplify_eq.
        -- right. by exists a', t'.
Qed.
End merger_sources.

(** X15.  A source path that does not exist makes the merger fail on its
    assertion.  The sources listed before the missing one -- at most ten,
    all existing, no path holding a quote, so that each can be attached --
    have been attached by then, in order; the tables of the target are
    untouched and no catalog has been built.  The missing path is not the
    path of the target, whose file [sqlite3.connect] has created by
    then. *)
Theorem merge_missing_source (fs : gmap string Sqlite.database)
    (target_path : string) (before after : list string) (source : string) :
  Forall (λ s, is_Some (fs !! s)) before →
  Forall (λ s, ¬ Sqlite.has_quote s) before →
  (List.length before ≤ Sqlite.max_attached)%nat →
  fs !! source = None →
  source ≠ target_path →
  ∃ m,
    Merger.merge fs target_path (before ++ source :: after)
    = (inl AssertionError, m) ∧
    Sqlite.main (Merger.target m) = default [] (fs !! target_path) ∧
    (Sqlite.attached (Merger.target m)).*2
    = (λ s, default [] (fs !! s)) <$> before ∧
    Merger.tables m = [].
Proof.
  intros Hex Hquote Hmax Hmissing _.
  destruct (attach_sources_spec fs before Hex Hquote 0
              (Merger.connect_target fs target_path))
    as (m & Hbefore & Hmain & Hatt & _); [done..|].
  pose proof (attach_sources_missing fs before after source _ _ Hbefore
                Hmissing) as Hrun.
  exists m. split; [|split; [|split]].
  - unfold Merger.merge, mbind, io_bind. by rewrite Hrun.
  - by rewrite Hmain.
  - rewrite Hatt. simpl. rewrite snd_zip; [done|].
    rewrite !length_fmap, length_seq. done.
  - by rewrite (attach_sources_tables _ _ _ _ _ _ Hbefore).
Qed.

Lemma merge_missing_source_witness :
  ∃ m,
    Merger.merge Scenario.fresh_fs "t.db" (["a.db"] ++ "x.db" :: ["b.db"])
    = (inl AssertionError, m) ∧
    Sqlite.main (Merger.target m) = default [] (Scenario.fresh_fs !! "t.db") ∧
    (Sqlite.attached (Merger.target m)).*2
    = (λ s, default [] (Scenario.fresh_fs !! s)) <$> ["a.db"] ∧
    Merger.tables m = [].
Proof.
  apply (merge_missing_source Scenario.fresh_fs "t.db" ["a.db"] ["b.db"]
           "x.db").
  - apply (bool_decide_unpack _). vm_compute. reflexivity.
  - apply (bool_decide_unpack _). vm_compute. reflexivity.
  - apply (bool_decide_unpack _). vm_compute. reflexivity.
  - vm_compute. reflexivity.
  - discriminate.
Defined.

(** X16.  The rows the merger collects for a table form a set: when the
    scan of the sources that hold the table returns, it has left the
    connection as it was, the collected rows are free of duplicates, and a
    row is among them exactly if one of the scanned sources has it in that
    table -- a row several sources share is copied once. *)
Theorem scan_collects_distinct_rows (name : string) (databases : list string)
    (m m' : Merger.t) (rows : list Sqlite.row)
    (headers : option (list string)) :
  Merger.scan name databases [] None m = (inr (rows, headers), m') →
  m' = m ∧ NoDup rows ∧
  ∀ r, r ∈ rows ↔
    ∃ a t, a ∈ databases ∧
      Sqlite.schema_db (Sqlite.Attached a) (Merger.target m)
        ≫= Sqlite.find_table name = Some t ∧
      r ∈ Sqlite.tbl_rows t.
Proof.
  intros Hrun. destruct (scan_spec _ _ _ _ _ _ _ _ Hrun) as (-> & Hnd & Hrows).
  split; [done|]. split; [apply Hnd, NoDup_nil_2|].
  intros r. rewrite Hrows. split; [|by right].
  intros [Hin|?]; [|done]. by apply elem_of_nil in Hin.
Qed.

Lemma scan_collects_distinct_rows_witness :
  let m := Merger.Make
             (Sqlite.Connection []
                [("db_0", Scenario.A); ("db_1", Scenario.B)])
             [("db_0", "a.db"); ("db_1", "b.db")] [] [] in
  let rows := [Scenario.r "k1" "v1"; Scenario.r "k2" "v2";
               Scenario.r "k3" "v3"] in
  m = m ∧ NoDup rows ∧
  ∀ r, r ∈ rows ↔
    ∃ a t, a ∈ ["db_0"; "db_1"] ∧
      Sqlite.schema_db (Sqlite.Attached a) (Merger.target m)
        ≫= Sqlite.find_table "T" = Some t ∧
      r ∈ Sqlite.tbl_rows t.
Proof.
  intros m rows.
  refine (scan_collects_distinct_rows "T" ["db_0"; "db_1"] m m rows
            (Some ["experiment"; "key"; "value"]) _).
  vm_compute. reflexivity.
Defined.

(** X17.  Merging no sources succeeds and leaves every table of the target
    as it is; the only change is an empty [TableDict] table, added if the
    target has none. *)
Theorem merge_no_sources (fs : gmap string Sqlite.database)
    (target_path : string) :
  ∃ m,
    Merger.merge fs target_path [] = (inr tt, m) ∧
    Sqlite.attached (Merger.target m) = [] ∧
    Sqlite.main (Merger.target m)
    = if Sqlite.find_table "TableDict" (default [] (fs !! target_path))
         is Some _
      then default [] (fs !! target_path)
      else default [] (fs !! target_path)
           ++ [Sqlite.Table "TableDict"
                 "CREATE TABLE TableDict (experiment text, key text, value text)"
                 [Sqlite.Column "experiment" "text" false;
                  Sqlite.Column "key" "text" false;
                  Sqlite.Column "value" "text" false] []].
Proof.
  unfold Merger.merge, Merger.connect_target.
  set (M := default [] (fs !! target_path)).
  unfold mbind, io_bind. cbn [Merger.attach_sources mret io_ret].
  unfold Merger.collect_and_create_tables, Merger.collect_tables,
    Merger.create_tables, Merger.collect_data.
  unfold mbind, io_bind, get_state, Merger.set_tables. simpl.
  unfold Merger.execute, Sqlite.create_table_if_not_exists,
    Sqlite.create_table. simpl.
  destruct (Sqlite.find_table "TableDict" M); simpl; by eexists.
Qed.

(** ** Lifecycle *)

Section lifecycle_more.
Import Experiment.
Context {U Opts : Type}.
Variable parse_args : list string → io U (Opts * list string * string).
Variable do_list : Opts → bool.
Variable list_results : string → io U unit.
Variable hasattr : Opts → string → bool.
Variable setattr : Opts → string → string → Opts.
Variable setup_tmp_directory : string → io U unit.
Variable remove_tmp_directory : io U unit.
Variable inp_extract_cmdline_parser :
  string → Opts → list string → io U (option (Opts * list string)).
Variable inp_metadata : string → io U (PyDict.t string).
Variable outp_setup_output : string → string → io U unit.
Variable outp_tear_down_output : string → io U unit.
Variable run : io U unit.
Variable hexdigest : string → string.
Variable path_join : string → string → string.
Variable path_exists : string → io U bool.
Variable rmtree : string → io U unit.
Variable mkdir : string → io U unit.
Variable write_metadata : string → PyDict.t string → io U unit.

Lemma apply_kwargs_unknown (S : Type) (key : string)
    (kwargs : list (string * string)) :
  key ∈ kwargs.*1 → (∀ o, hasattr o key = false) →
  ∀ opts (s : S),
    apply_kwargs S Opts hasattr setattr opts kwargs s
    = (inl AttributeError, s).
Proof.
  intros Hin Hkey. induction kwargs as [|[k v] kwargs IH]; intros opts s.
  - by apply elem_of_nil in Hin.
  - simpl. destruct (hasattr opts k) eqn:Hk; [|done].
    apply IH. simpl in Hin. apply elem_of_cons in Hin as [->|Hin]; [|done].
    by rewrite Hkey in Hk.
Qed.

Lemma execute_unknown_keyword (self : t) (args args' : list string)
    (kwargs : list (string * string)) (key pwd : string) (opts : Opts)
    (u u1 : U) :
  parse_args args u = (inr (opts, args', pwd), u1) →
  do_list opts = false →
  key ∈ kwargs.*1 → (∀ o, hasattr o key = false) →
  execute U Opts parse_args do_list list_results hasattr setattr
    setup_tmp_directory remove_tmp_directory inp_extract_cmdline_parser
    inp_metadata outp_setup_output outp_tear_down_output run hexdigest
    path_join path_exists rmtree mkdir write_metadata self args kwargs u
  = (inl AttributeError, u1).
Proof.
  intros Hparse Hlist Hin Hkey.
  unfold execute. unfold mbind at 1, io_bind at 1.
  rewrite Hparse, Hlist. unfold mbind at 1, io_bind at 1.
  by rewrite (apply_kwargs_unknown U key kwargs Hin Hkey).
Qed.

Lemma observed_execute_unknown_keyword (self : t) (args args' : list string)
    (kwargs : list (string * string)) (key pwd : string) (opts : Opts)
    (u u1 : U) :
  parse_args args u = (inr (opts, args', pwd), u1) →
  do_list opts = false →
  key ∈ kwargs.*1 → (∀ o, hasattr o key = false) →
  observed_execute U Opts parse_args do_list list_results hasattr setattr
    setup_tmp_directory remove_tmp_directory inp_extract_cmdline_parser
    inp_metadata outp_setup_output outp_tear_down_output run hexdigest
    path_join path_exists rmtree mkdir write_metadata self args kwargs
    (u, [])
  = (inl AttributeError, (u1, [(ParseArgs args, Returned None)])).
Proof.
  intros Hparse Hlist Hin Hkey.
  unfold observed_execute, execute.
  unfold mbind at 1, io_bind at 1, observe at 1. simpl.
  rewrite Hparse, Hlist. unfold mbind at 1, io_bind at 1.
  by rewrite (apply_kwargs_unknown (U * list entry) key kwargs Hin Hkey).
Qed.

(** Where a call comes in a sequence that holds it once. *)
Lemma snoc_prefix_once (c : call) (l A B : list call) :
  c ∉ A → c ∉ B → (l ++ [c]) `prefix_of` (A ++ c :: B) → l = A.
Proof.
  intros HA HB [t Ht]. rewrite <- (assoc_L (++)) in Ht. simpl in Ht.
  revert l Ht. induction A as [|a A IH]; intros l Ht.
  - destruct l as [|x l]; [done|]. simpl in Ht. injection Ht as <- ->.
    destruct HB. apply elem_of_app. right. apply elem_of_cons. by left.
  - apply not_elem_of_cons in HA as [Hne HA].
    destruct l as [|x l]; simpl in Ht; injection Ht as Hx Ht.
    + by destruct Hne.
    + subst x. f_equal. by apply IH.
Qed.

Lemma not_elem_of_fmap_call (E : string → call) (c : call)
    (names : list string) :
  (∀ name, E name ≠ c) → c ∉ E <$> names.
Proof.
  intros HE Hin. apply list_elem_of_fmap in Hin as (name & -> & _).
  by apply (HE name).
Qed.

(** The calls of a run before the run body, and those after it. *)
Lemma run_sequence_around_run (self : t) (args : list string)
    (pwd identifier : string) (existed : bool) :
  ∃ before after,
    run_sequence path_join self args pwd identifier existed
    = before ++ Run :: after ∧
    (Run ∉ before) ∧ (Run ∉ after) ∧
    (RemoveTmpDirectory ∉ before) ∧
    ∀ name, TearDownOutput name ∉ before.
Proof.
  set (p := path_join pwd identifier).
  exists ([ParseArgs args] ++ [SetupTmpDirectory pwd]
          ++ (ExtractInput <$> inputs self)
          ++ ((InputMetadata <$> inputs self) ++ allocation_sequence p existed)
          ++ ((λ name, SetupOutput name p) <$> outputs self)),
         ((TearDownOutput <$> outputs self) ++ [RemoveTmpDirectory]).
  split; [unfold run_sequence; by rewrite <- !(assoc_L (++))|].
  assert (∀ c, (∀ path, c ≠ ParseArgs path) → (∀ x, c ≠ SetupTmpDirectory x) →
               (∀ x, c ≠ ExtractInput x) → (∀ x, c ≠ InputMetadata x) →
               (∀ x, c ≠ PathExists x) → (∀ x, c ≠ Rmtree x) →
               (∀ x, c ≠ Mkdir x) → (∀ x, c ≠ WriteMetadata x) →
               (∀ x y, c ≠ SetupOutput x y) →
               c ∉ [ParseArgs args] ++ [SetupTmpDirectory pwd]
                   ++ (ExtractInput <$> inputs self)
                   ++ ((InputMetadata <$> inputs self)
                       ++ allocation_sequence p existed)
                   ++ ((λ name, SetupOutput name p) <$> outputs self))
    as Hbefore.
  { intros c ? ? ? ? ? ? ? ? ?.
    rewrite !not_elem_of_app. repeat split.
    - apply not_elem_of_cons. split; [done|apply not_elem_of_nil].
    - apply not_elem_of_cons. split; [done|apply not_elem_of_nil].
    - by apply not_elem_of_fmap_call.
    - by apply not_elem_of_fmap_call.
    - unfold allocation_sequence. destruct existed; simpl;
        repeat (apply not_elem_of_cons; split; [done|]);
        apply not_elem_of_nil.
    - by apply not_elem_of_fmap_call. }
  split; [by apply Hbefore|]. split.
  { rewrite not_elem_of_app. split; [by apply not_elem_of_fmap_call|].
    apply not_elem_of_cons. split; [done|apply not_elem_of_nil]. }
  split; [by apply Hbefore|]. intros name. by apply Hbefore.
Qed.

(** When the log holds a run body that raised, that is its last entry, and
    [execute] raised the same exception. *)
Lemma run_raised_is_last (self : t) (args : list string) (e : exn)
    (r : result (option string)) (log : list entry) :
  match r with
  | inr (Some identifier) =>
      ∃ pwd existed,
        completed log
          (run_sequence path_join self args pwd identifier existed)
  | inr None => ∃ pwd, completed log (list_sequence args pwd)
  | inl e =>
      (∃ pwd identifier existed,
         stopped e log
           (run_sequence path_join self args pwd identifier existed)) ∨
      (∃ pwd, stopped e log (list_sequence args pwd)) ∨
      (e = AttributeError ∧ completed log [ParseArgs args])
  end →
  (Run, Raised e) ∈ log →
  r = inl e ∧
  ∃ before,
    log = before ++ [(Run, Raised e)] ∧ Forall returned before ∧
    (∀ o, (RemoveTmpDirectory, o) ∉ before) ∧
    ∀ name o, (TearDownOutput name, o) ∉ before.
Proof.
  intros HQ Hin.
  assert (∀ E, ¬ completed log E) as Hnot.
  { intros E [_ Hall]. rewrite Forall_forall in Hall.
    by destruct (Hall _ Hin) as [? ?]. }
  destruct r as [e'|[identifier|]].
  - destruct HQ as [(pwd & identifier & existed & H)|[(pwd & H)|[_ H]]];
      [| |by destruct (Hnot _ H)];
      destruct H as (before & c & -> & Hall & Hpre);
      (apply elem_of_app in Hin as [Hin|Hin];
       [rewrite Forall_forall in Hall; by destruct (Hall _ Hin) as [? ?]|]);
      apply list_elem_of_singleton in Hin; injection Hin as <- <-.
    + split; [done|]. exists before. split; [done|]. split; [done|].
      destruct (run_sequence_around_run self args pwd identifier existed)
        as (A & B & HE & HA & HB & Hrm & Htd).
      rewrite HE in Hpre.
      apply (snoc_prefix_once Run _ A B HA HB) in Hpre.
      split.
      * intros o Ho. apply Hrm. rewrite <- Hpre.
        apply list_elem_of_fmap. by exists (RemoveTmpDirectory, o).
      * intros name o Ho. apply (Htd name). rewrite <- Hpre.
        apply list_elem_of_fmap. by exists (TearDownOutput name, o).
    + exfalso. destruct Hpre as [t Ht]. unfold list_sequence in Ht.
      assert (Run ∈ [ParseArgs args; ListResults pwd]) as Hrun.
      { rewrite Ht. rewrite !elem_of_app. left. right.
        apply elem_of_cons. by left. }
      apply elem_of_cons in Hrun as [|Hrun]; [done|].
      apply elem_of_cons in Hrun as [|Hrun]; [done|].
      by apply elem_of_nil in Hrun.
  - destruct HQ as (pwd & existed & H). by destruct (Hnot _ H).
  - destruct HQ as (pwd & H). by destruct (Hnot _ H).
Qed.
End lifecycle_more.

(** X18.  A keyword argument that names no option makes [execute] raise
    [AttributeError] before it does anything else: the world is as the
    parsing of the command line left it -- no temporary directory, no input
    hook, no output directory -- and the log holds no call but the parsing
    of the options.  (In list mode the keyword arguments are not looked
    at.) *)
Theorem unknown_keyword_fails_early (U Opts : Type)
    (parse_args : list string → io U (Opts * list string * string))
    (do_list : Opts → bool) (list_results : string → io U unit)
    (hasattr : Opts → string → bool) (setattr : Opts → string → string → Opts)
    (setup_tmp_directory : string → io U unit)
    (remove_tmp_directory : io U unit)
    (inp_extract_cmdline_parser :
       string → Opts → list string → io U (option (Opts * list string)))
    (inp_metadata : string → io U (PyDict.t string))
    (outp_setup_output : string → string → io U unit)
    (outp_tear_down_output : string → io U unit) (run : io U unit)
    (hexdigest : string → string) (path_join : string → string → string)
    (path_exists : string → io U bool) (rmtree mkdir : string → io U unit)
    (write_metadata : string → PyDict.t string → io U unit)
    (self : Experiment.t) (args args' : list string)
    (kwargs : list (string * string)) (key pwd : string) (opts : Opts)
    (u u1 : U) :
  parse_args args u = (inr (opts, args', pwd), u1) →
  do_list opts = false →
  key ∈ kwargs.*1 → (∀ o, hasattr o key = false) →
  Experiment.execute U Opts parse_args do_list list_results hasattr setattr
    setup_tmp_directory remove_tmp_directory inp_extract_cmdline_parser
    inp_metadata outp_setup_output outp_tear_down_output run hexdigest
    path_join path_exists rmtree mkdir write_metadata self args kwargs u
  = (inl AttributeError, u1) ∧
  Experiment.observed_execute U Opts parse_args do_list list_results hasattr
    setattr setup_tmp_directory remove_tmp_directory
    inp_extract_cmdline_parser inp_metadata outp_setup_output
    outp_tear_down_output run hexdigest path_join path_exists rmtree mkdir
    write_metadata self args kwargs (u, [])
  = (inl AttributeError,
     (u1, [(Experiment.ParseArgs args, Experiment.Returned None)])).
Proof.
  intros Hparse Hlist Hin Hkey. split.
  - by eapply execute_unknown_keyword.
  - by eapply observed_execute_unknown_keyword.
Qed.

Lemma unknown_keyword_fails_early_witness :
  Experiment.execute (list string) bool
    (λ args w, (inr (false, args, "."), w ++ ["parse"]))
    (λ o, o) (λ _ w, (inr tt, w ++ ["list"]))
    (λ _ key, bool_decide (key = "base_dir")) (λ o _ _, o)
    (λ _ w, (inr tt, w ++ ["mkdtemp"])) (λ w, (inr tt, w ++ ["rmtree tmp"]))
    (λ _ _ _ w, (inr None, w)) (λ name w, (inr [(name, "v")], w))
    (λ _ _ w, (inr tt, w)) (λ _ w, (inr tt, w)) (λ w, (inr tt, w ++ ["run"]))
    (λ m, m) (λ a b, a +:+ "/" +:+ b) (λ _ w, (inr false, w))
    (λ _ w, (inr tt, w)) (λ _ w, (inr tt, w)) (λ _ _ w, (inr tt, w))
    (Experiment.Make "Exp" 1 ["a"] ["out"]) []
    [("base_dir", "/tmp"); ("colour", "red")] []
  = (inl AttributeError, ["parse"]) ∧
  Experiment.observed_execute (list string) bool
    (λ args w, (inr (false, args, "."), w ++ ["parse"]))
    (λ o, o) (λ _ w, (inr tt, w ++ ["list"]))
    (λ _ key, bool_decide (key = "base_dir")) (λ o _ _, o)
    (λ _ w, (inr tt, w ++ ["mkdtemp"])) (λ w, (inr tt, w ++ ["rmtree tmp"]))
    (λ _ _ _ w, (inr None, w)) (λ name w, (inr [(name, "v")], w))
    (λ _ _ w, (inr tt, w)) (λ _ w, (inr tt, w)) (λ w, (inr tt, w ++ ["run"]))
    (λ m, m) (λ a b, a +:+ "/" +:+ b) (λ _ w, (inr false, w))
    (λ _ w, (inr tt, w)) (λ _ w, (inr tt, w)) (λ _ _ w, (inr tt, w))
    (Experiment.Make "Exp" 1 ["a"] ["out"]) []
    [("base_dir", "/tmp"); ("colour", "red")] ([], [])
  = (inl AttributeError,
     (["parse"], [(Experiment.ParseArgs [], Experiment.Returned None)])).
Proof.
  apply (unknown_keyword_fails_early (list string) bool
           (λ args w, (inr (false, args, "."), w ++ ["parse"]))
           (λ o, o) (λ _ w, (inr tt, w ++ ["list"]))
           (λ _ key, bool_decide (key = "base_dir")) (λ o _ _, o)
           (λ _ w, (inr tt, w ++ ["mkdtemp"]))
           (λ w, (inr tt, w ++ ["rmtree tmp"]))
           (λ _ _ _ w, (inr None, w)) (λ name w, (inr [(name, "v")], w))
           (λ _ _ w, (inr tt, w)) (λ _ w, (inr tt, w))
           (λ w, (inr tt, w ++ ["run"]))
           (λ m, m) (λ a b, a +:+ "/" +:+ b) (λ _ w, (inr false, w))
           (λ _ w, (inr tt, w)) (λ _ w, (inr tt, w)) (λ _ _ w, (inr tt, w))
           (Experiment.Make "Exp" 1 ["a"] ["out"]) [] []
           [("base_dir", "/tmp"); ("colour", "red")] "colour" "." false
           [] ["parse"]).
  - reflexivity.
  - reflexivity.
  - apply (bool_decide_unpack _). vm_compute. reflexivity.
  - intros o. vm_compute. reflexivity.
Defined.

(** X19.  When the run body raises -- the log of the world holds the call
    of the run body, ended by an exception -- [execute] raises that
    exception and makes no further call: the failed run body is the last
    entry of the log, every call before it returned, no output is torn down
    (so no key/value dict is flushed) and the temporary directory is not
    removed.  This holds whatever the collaborators do. *)
Theorem failing_run_skips_teardown (U Opts : Type)
    (parse_args : list string → io U (Opts * list string * string))
    (do_list : Opts → bool) (list_results : string → io U unit)
    (hasattr : Opts → string → bool) (setattr : Opts → string → string → Opts)
    (setup_tmp_directory : string → io U unit)
    (remove_tmp_directory : io U unit)
    (inp_extract_cmdline_parser :
       string → Opts → list string → io U (option (Opts * list string)))
    (inp_metadata : string → io U (PyDict.t string))
    (outp_setup_output : string → string → io U unit)
    (outp_tear_down_output : string → io U unit) (run : io U unit)
    (hexdigest : string → string) (path_join : string → string → string)
    (path_exists : string → io U bool) (rmtree mkdir : string → io U unit)
    (write_metadata : string → PyDict.t string → io U unit)
    (self : Experiment.t) (args : list string)
    (kwargs : list (string * string)) (u : U) (e : exn) :
  let outcome :=
    Experiment.observed_execute U Opts parse_args do_list list_results
      hasattr setattr setup_tmp_directory remove_tmp_directory
      inp_extract_cmdline_parser inp_metadata outp_setup_output
      outp_tear_down_output run hexdigest path_join path_exists rmtree mkdir
      write_metadata self args kwargs (u, []) in
  (Experiment.Run, Experiment.Raised e) ∈ outcome.2.2 →
  outcome.1 = inl e ∧
  ∃ before,
    outcome.2.2 = before ++ [(Experiment.Run, Experiment.Raised e)] ∧
    Forall Experiment.returned before ∧
    (∀ o, (Experiment.RemoveTmpDirectory, o) ∉ before) ∧
    ∀ name o, (Experiment.TearDownOutput name, o) ∉ before.
Proof.
  intros outcome Hin.
  destruct (wp_execute parse_args do_list list_results hasattr setattr
              setup_tmp_directory remove_tmp_directory
              inp_extract_cmdline_parser inp_metadata outp_setup_output
              outp_tear_down_output run hexdigest path_join path_exists
              rmtree mkdir write_metadata self args kwargs (u, []))
    as (k & Hk & HQ).
  simpl in Hk. fold outcome in Hk, HQ. subst k.
  apply (run_raised_is_last path_join self args e); [|exact Hin].
  destruct (outcome.1) as [e'|[identifier|]]; [exact HQ| |exact HQ].
  by destruct HQ as [? _].
Qed.

Lemma failing_run_skips_teardown_witness :
  let outcome :=
    Experiment.observed_execute (list string) bool
      (λ args w, (inr (false, args, "."), w ++ ["parse"]))
      (λ o, o) (λ _ w, (inr tt, w ++ ["list"]))
      (λ _ _, true) (λ o _ _, o)
      (λ _ w, (inr tt, w ++ ["mkdtemp"])) (λ w, (inr tt, w ++ ["rmtree tmp"]))
      (λ _ _ _ w, (inr None, w)) (λ name w, (inr [(name, "v")], w))
      (λ _ _ w, (inr tt, w)) (λ _ w, (inr tt, w ++ ["flush"]))
      (λ w, (inl ValueError, w ++ ["run"]))
      (λ m, m) (λ a b, a +:+ "/" +:+ b) (λ _ w, (inr false, w))
      (λ _ w, (inr tt, w)) (λ _ w, (inr tt, w)) (λ _ _ w, (inr tt, w))
      (Experiment.Make "Exp" 1 ["a"] ["out"]) [] [] ([], []) in
  outcome.1 = inl ValueError ∧
  ∃ before,
    outcome.2.2 = before ++ [(Experiment.Run, Experiment.Raised ValueError)] ∧
    Forall Experiment.returned before ∧
    (∀ o, (Experiment.RemoveTmpDirectory, o) ∉ before) ∧
    ∀ name o, (Experiment.TearDownOutput name, o) ∉ before.
Proof.
  apply (failing_run_skips_teardown (list string) bool
           (λ args w, (inr (false, args, "."), w ++ ["parse"]))
           (λ o, o) (λ _ w, (inr tt, w ++ ["list"]))
           (λ _ _, true) (λ o _ _, o)
           (λ _ w, (inr tt, w ++ ["mkdtemp"]))
           (λ w, (inr tt, w ++ ["rmtree tmp"]))
           (λ _ _ _ w, (inr None, w)) (λ name w, (inr [(name, "v")], w))
           (λ _ _ w, (inr tt, w)) (λ _ w, (inr tt, w ++ ["flush"]))
           (λ w, (inl ValueError, w ++ ["run"]))
           (λ m, m) (λ a b, a +:+ "/" +:+ b) (λ _ w, (inr false, w))
           (λ _ w, (inr tt, w)) (λ _ w, (inr tt, w)) (λ _ _ w, (inr tt, w))
           (Experiment.Make "Exp" 1 ["a"] ["out"]) [] [] [] ValueError).
  vm_compute. repeat constructor.
Defined.

(** X20.  The identifier [execute] returns is computed from the title, the
    version and what the [inp_metadata] hooks of the inputs returned in
    this run, and from nothing else: the log holds one such call for every
    input, in the order of the inputs mapping, each with the dict it
    returned, and the identifier is the one computed from these dicts,
    merged in that order.  The outputs, the run body and the file system
    enter it only through what these hooks return. *)
Theorem identifier_from_input_metadata (U Opts : Type)
    (parse_args : list string → io U (Opts * list string * string))
    (do_list : Opts → bool) (list_results : string → io U unit)
    (hasattr : Opts → string → bool) (setattr : Opts → string → string → Opts)
    (setup_tmp_directory : string → io U unit)
    (remove_tmp_directory : io U unit)
    (inp_extract_cmdline_parser :
       string → Opts → list string → io U (option (Opts * list string)))
    (inp_metadata : string → io U (PyDict.t string))
    (outp_setup_output : string → string → io U unit)
    (outp_tear_down_output : string → io U unit) (run : io U unit)
    (hexdigest : string → string) (path_join : string → string → string)
    (path_exists : string → io U bool) (rmtree mkdir : string → io U unit)
    (write_metadata : string → PyDict.t string → io U unit)
    (self : Experiment.t) (args : list string)
    (kwargs : list (string * string)) (u : U) (identifier : string) :
  let outcome :=
    Experiment.observed_execute U Opts parse_args do_list list_results
      hasattr setattr setup_tmp_directory remove_tmp_directory
      inp_extract_cmdline_parser inp_metadata outp_setup_output
      outp_tear_down_output run hexdigest path_join path_exists rmtree mkdir
      write_metadata self args kwargs (u, []) in
  outcome.1 = inr (Some identifier) →
  (Experiment.metadata_of outcome.2.2).*1 = Experiment.inputs self ∧
  Identity.compute_identifier hexdigest (Experiment.title self)
    (Experiment.version self)
    (Identity.collect (Experiment.metadata_of outcome.2.2).*2)
  = inr identifier.
Proof.
  intros outcome Hres.
  destruct (wp_execute parse_args do_list list_results hasattr setattr
              setup_tmp_directory remove_tmp_directory
              inp_extract_cmdline_parser inp_metadata outp_setup_output
              outp_tear_down_output run hexdigest path_join path_exists
              rmtree mkdir write_metadata self args kwargs (u, []))
    as (k & Hk & HQ).
  simpl in Hk. fold outcome in Hk, HQ. subst k. rewrite Hres in HQ.
  by destruct HQ as [_ ?].
Qed.

Lemma identifier_from_input_metadata_witness :
  let outcome :=
    Experiment.observed_execute (list string) bool
      (λ args w, (inr (false, args, "."), w ++ ["parse"]))
      (λ o, o) (λ _ w, (inr tt, w ++ ["list"]))
      (λ _ _, true) (λ o _ _, o)
      (λ _ w, (inr tt, w ++ ["mkdtemp"])) (λ w, (inr tt, w ++ ["rmtree tmp"]))
      (λ _ _ _ w, (inr None, w ++ ["extract"]))
      (λ name w, (inr [(name, String.concat "," w)], w ++ ["metadata"]))
      (λ _ _ w, (inr tt, w)) (λ _ w, (inr tt, w ++ ["flush"]))
      (λ w, (inr tt, w ++ ["run"]))
      (λ m, m) (λ a b, a +:+ "/" +:+ b) (λ _ w, (inr false, w))
      (λ _ w, (inr tt, w)) (λ _ w, (inr tt, w)) (λ _ _ w, (inr tt, w))
      (Experiment.Make "Exp" 1 ["b"; "a"] ["out"]) [] [] ([], []) in
  (Experiment.metadata_of outcome.2.2).*1 = ["b"; "a"] ∧
  Identity.compute_identifier (λ m, m) "Exp" 1
    (Identity.collect (Experiment.metadata_of outcome.2.2).*2)
  = inr ("Exp-version 1a parse,mkdtemp,extract,extract,metadata"
         +:+ "b parse,mkdtemp,extract,extract").
Proof.
  apply (identifier_from_input_metadata (list string) bool
           (λ args w, (inr (false, args, "."), w ++ ["parse"]))
           (λ o, o) (λ _ w, (inr tt, w ++ ["list"]))
           (λ _ _, true) (λ o _ _, o)
           (λ _ w, (inr tt, w ++ ["mkdtemp"]))
           (λ w, (inr tt, w ++ ["rmtree tmp"]))
           (λ _ _ _ w, (inr None, w ++ ["extract"]))
           (λ name w, (inr [(name, String.concat "," w)], w ++ ["metadata"]))
           (λ _ _ w, (inr tt, w)) (λ _ w, (inr tt, w ++ ["flush"]))
           (λ w, (inr tt, w ++ ["run"]))
           (λ m, m) (λ a b, a +:+ "/" +:+ b) (λ _ w, (inr false, w))
           (λ _ w, (inr tt, w)) (λ _ w, (inr tt, w)) (λ _ _ w, (inr tt, w))
           (Experiment.Make "Exp" 1 ["b"; "a"] ["out"]) [] [] []).
  vm_compute. reflexivity.
Defined.

(** ** Declared fields and the primary key *)

Section field_facts.
Import Sqlite.

Lemma declared_column_names (fields : list (string * string))
    (primary : option string) :
  col_name <$> Database.declared_columns fields primary = fields.*1.
Proof.
  unfold Database.declared_columns. rewrite <-list_fmap_compose.
  by apply list_fmap_ext.
Qed.

(** A row that repeats the value of an existing row in a primary-key
    column. *)
Lemma repeated_key_violates (cols : list column) (rows : list row)
    (old new : row) (j : nat) (col : column) (v : value) :
  cols !! j = Some col → col_primary col = true → v ≠ Null →
  old ∈ rows → old !! j = Some v → new !! j = Some v →
  violates_primary cols rows new = true.
Proof.
  intros Hcol Hprim Hv Hold Holdj Hnewj. unfold violates_primary.
  apply existsb_exists. exists old. split; [by apply list_elem_of_In|].
  unfold primary_clash. apply existsb_exists. exists (col, (v, v)). split.
  - apply list_elem_of_In, list_elem_of_lookup. exists j.
    apply lookup_zip_with_Some. exists col, (v, v). split; [done|].
    split; [done|]. apply lookup_zip_with_Some. by exists v, v.
  - simpl. rewrite Hprim. simpl.
    rewrite bool_decide_eq_true_2 by done.
    by rewrite bool_decide_eq_true_2.
Qed.
End field_facts.

(** X21.  A field list that names a column twice -- a field called
    "experiment" does, because the table adds that column itself -- makes
    the output set-up of the table raise [OperationalError], on every
    store. *)
Theorem duplicate_field_fails (name title static dynamic metadata : string)
    (fields : list Table.field) (index : option string)
    (c : Sqlite.connection) :
  ¬ NoDup ("experiment" :: (Table.field_typify fields).*1) →
  ∃ msg c',
    Table.before_experiment_run
      (Table.init name title static dynamic metadata fields index)
      Table.Output c
    = (inl (OperationalError msg), c').
Proof.
  intros Hdup. rewrite table_output_setup.
  unfold Database.create_table, Sqlite.create_table.
  destruct (Sqlite.find_table _ _); [by eexists _, _|].
  destruct (decide (_ = [])); [by eexists _, _|].
  destruct (decide (NoDup _)) as [Hnd|]; [|by eexists _, _].
  destruct Hdup. by rewrite declared_column_names in Hnd.
Qed.

Lemma duplicate_field_fails_witness :
  ∃ msg c',
    Table.before_experiment_run
      (Table.init "out" "Exp" "Exp-0" "Exp-0" "{}"
         [Table.Plain "key"; Table.Typed "experiment" "integer"] None)
      Table.Output (Sqlite.Connection [] [])
    = (inl (OperationalError msg), c').
Proof.
  apply (duplicate_field_fails "out" "Exp" "Exp-0" "Exp-0" "{}"
           [Table.Plain "key"; Table.Typed "experiment" "integer"] None
           (Sqlite.Connection [] [])).
  apply (bool_decide_eq_false_1 _). vm_compute. reflexivity.
Defined.

(** X22.  The index is a primary key.  When a table of text columns holds
    a row with a value other than NULL in a primary-key column, an insert
    whose row has the same value under that column's name raises
    [IntegrityError] and leaves the store as it was -- also when the
    existing row belongs to another experiment. *)
Theorem insert_repeated_key_fails (self : Table.t)
    (data : option (PyDict.t Sqlite.value)) (kwargs : PyDict.t Sqlite.value)
    (c : Sqlite.connection) (t : Sqlite.table) (j : nat)
    (col : Sqlite.column) (v : Sqlite.value) (old : Sqlite.row) :
  Table.read_only self = false →
  Table.keys_match self (Table.stamped_row self data kwargs) →
  Sqlite.attached c = [] →
  Sqlite.find_table (Table.table_name self) (Sqlite.main c) = Some t →
  Sqlite.text_columns t →
  (Table.fields self).*1 ⊆ Sqlite.col_name <$> Sqlite.tbl_columns t →
  Sqlite.tbl_columns t !! j = Some col → Sqlite.col_primary col = true →
  PyDict.get (Sqlite.col_name col) (Table.stamped_row self data kwargs)
  = inr v →
  v ≠ Sqlite.Null →
  old ∈ Sqlite.tbl_rows t → old !! j = Some v →
  ∃ msg,
    Table.insert self data kwargs c = (inl (IntegrityError msg), c).
Proof.
  intros Hrw Hkeys Hatt Hfind _ Hfields Hcol Hprim Hget Hv Hold Holdj.
  unfold Table.insert. rewrite Hrw, decide_True by done.
  set (row := Table.stamped_row self data kwargs) in *.
  unfold Sqlite.insert. rewrite (lookup_table_unattached _ _ Hatt), Hfind.
  simpl. rewrite decide_False by (rewrite !length_fmap; auto).
  rewrite decide_True.
  - rewrite (repeated_key_violates _ _ old _ j col v); try done.
    + by eexists.
    + apply list_lookup_fmap_Some. exists col. split; [|done].
      simpl. by rewrite bound_value_get, Hget.
  - intros k Hk. apply Hfields.
    unfold Table.keys_match in Hkeys.
    assert (k ∈@{gset string} list_to_set row.*1) as Hin
      by by apply elem_of_list_to_set.
    unfold PyDict.keys in Hkeys. rewrite Hkeys in Hin.
    by apply elem_of_list_to_set in Hin.
Qed.

Lemma insert_repeated_key_fails_witness :
  let self := Table.set_read_only false
                (Table.init "out" "Exp" "Exp-0" "Exp-1" "{}"
                   [Table.Plain "key"] (Some "key")) in
  let c := Sqlite.Connection
             [Sqlite.Table "Exp__out"
                "CREATE TABLE Exp__out (experiment text, key text PRIMARY KEY)"
                [Sqlite.Column "experiment" "text" false;
                 Sqlite.Column "key" "text" true]
                [[Sqlite.Text "Exp-0"; Sqlite.Text "a"]]] [] in
  ∃ msg,
    Table.insert self None [("key", Sqlite.Text "a")] c
    = (inl (IntegrityError msg), c).
Proof.
  intros self c.
  apply (insert_repeated_key_fails self None [("key", Sqlite.Text "a")] c
           (Sqlite.Table "Exp__out"
              "CREATE TABLE Exp__out (experiment text, key text PRIMARY KEY)"
              [Sqlite.Column "experiment" "text" false;
               Sqlite.Column "key" "text" true]
              [[Sqlite.Text "Exp-0"; Sqlite.Text "a"]])
           1 (Sqlite.Column "key" "text" true) (Sqlite.Text "a")
           [Sqlite.Text "Exp-0"; Sqlite.Text "a"]).
  - reflexivity.
  - apply (bool_decide_unpack _). vm_compute. reflexivity.
  - reflexivity.
  - vm_compute. reflexivity.
  - apply (bool_decide_unpack _). vm_compute. reflexivity.
  - apply (bool_decide_unpack _). vm_compute. reflexivity.
  - reflexivity.
  - reflexivity.
  - vm_compute. reflexivity.
  - discriminate.
  - apply (bool_decide_unpack _). vm_compute. reflexivity.
  - reflexivity.
Defined.

(** The message of the engine for the clash above. *)
Example insert_repeated_key_message :
  Table.insert
    (Table.set_read_only false
       (Table.init "out" "Exp" "Exp-0" "Exp-1" "{}" [Table.Plain "key"]
          (Some "key")))
    None [("key", Sqlite.Text "a")]
    (Sqlite.Connection
       [Sqlite.Table "Exp__out"
          "CREATE TABLE Exp__out (experiment text, key text PRIMARY KEY)"
          [Sqlite.Column "experiment" "text" false;
           Sqlite.Column "key" "text" true]
          [[Sqlite.Text "Exp-0"; Sqlite.Text "a"]]] [])
  = (inl (IntegrityError "UNIQUE constraint failed: Exp__out.key"),
     Sqlite.Connection
       [Sqlite.Table "Exp__out"
          "CREATE TABLE Exp__out (experiment text, key text PRIMARY KEY)"
          [Sqlite.Column "experiment" "text" false;
           Sqlite.Column "key" "text" true]
          [[Sqlite.Text "Exp-0"; Sqlite.Text "a"]]] []).
Proof. vm_compute. reflexivity. Qed.

(** ** Inputs of one class *)

Section shadowed_input.

(** Two dicts with the same keys, in the same order, that agree on every
    key but [k]. *)
Let agree_but (k : string) (d d' : PyDict.t string) : Prop :=
  Forall2 (λ x y, x.1 = y.1 ∧ (x.1 ≠ k → x.2 = y.2)) d d'.

Lemma agree_but_refl (k : string) (d : PyDict.t string) : agree_but k d d.
Proof. apply Forall_Forall2_diag, Forall_forall. by intros. Qed.

Lemma agree_but_set (k k0 v0 : string) (d d' : PyDict.t string) :
  agree_but k d d' →
  agree_but k (PyDict.set k0 v0 d) (PyDict.set k0 v0 d').
Proof.
  induction 1 as [|[k1 v1] [k2 v2] d d' [Hk Hv] Hrest IH]; simpl in *.
  - apply Forall2_cons. split; [done|]. apply Forall2_nil_2.
  - subst k2. destruct (decide (k0 = k1)) as [->|Hne].
    + apply Forall2_cons. split; [done|]. exact Hrest.
    + apply Forall2_cons. split; [done|]. exact IH.
Qed.

Lemma agree_but_update (k : string) (other d d' : PyDict.t string) :
  agree_but k d d' →
  agree_but k (PyDict.update d other) (PyDict.update d' other).
Proof.
  unfold PyDict.update. revert d d'.
  induction other as [|[k0 v0] other IH]; intros d d' Hd; [done|].
  simpl. apply IH. by apply agree_but_set.
Qed.

Lemma agree_but_eq (k : string) (d d' : PyDict.t string) :
  agree_but k d d' → k ∉ d.*1 → d = d'.
Proof.
  induction 1 as [|[k1 v1] [k2 v2] d d' [Hk Hv] _ IH]; [done|].
  rewrite fmap_cons. simpl in *. intros [Hne Hnot]%not_elem_of_cons.
  subst k2. rewrite Hv by done. f_equal. by apply IH.
Qed.

(** Assigning [k] makes them equal. *)
Lemma agree_but_set_eq (k v : string) (d d' : PyDict.t string) :
  agree_but k d d' → NoDup d.*1 →
  PyDict.set k v d = PyDict.set k v d'.
Proof.
  induction 1 as [|[k1 v1] [k2 v2] d d' [Hk Hv] Hrest IH]; [done|].
  rewrite fmap_cons. simpl in *. intros [Hk1 Hnd]%NoDup_cons. subst k2.
  destruct (decide (k = k1)) as [->|Hne].
  - f_equal. by apply (agree_but_eq k1).
  - rewrite Hv by done. f_equal. by apply IH.
Qed.

Lemma keys_set_old {V} (k : string) (v : V) (d : PyDict.t V) :
  k ∈ PyDict.keys d → PyDict.keys (PyDict.set k v d) = PyDict.keys d.
Proof.
  unfold PyDict.keys. induction d as [|[k' v'] d IH]; simpl.
  - by intros ?%elem_of_nil.
  - intros Hin. destruct (decide (k = k')) as [->|Hne]; [done|].
    simpl. f_equal. apply IH.
    by apply elem_of_cons in Hin as [?|?].
Qed.

Lemma wf_set {V} (k : string) (v : V) (d : PyDict.t V) :
  PyDict.wf d → PyDict.wf (PyDict.set k v d).
Proof.
  unfold PyDict.wf. intros Hnd.
  change (NoDup (PyDict.keys (PyDict.set k v d))).
  destruct (decide (k ∈ PyDict.keys d)) as [Hin|Hnot].
  - by rewrite (keys_set_old k v d Hin).
  - rewrite (keys_set_new k v d Hnot).
    apply NoDup_app. split; [done|]. split; [|apply NoDup_singleton].
    by intros x Hx ->%list_elem_of_singleton.
Qed.

Lemma wf_update {V} (d other : PyDict.t V) :
  PyDict.wf d → PyDict.wf (PyDict.update d other).
Proof.
  unfold PyDict.update. revert d.
  induction other as [|[k v] other IH]; intros d Hd; [done|].
  simpl. apply IH. by apply wf_set.
Qed.

Lemma wf_foldl_update {V} (cs : list (PyDict.t V)) (d : PyDict.t V) :
  PyDict.wf d → PyDict.wf (foldl PyDict.update d cs).
Proof.
  revert d. induction cs as [|c cs IH]; intros d Hd; [done|].
  simpl. apply IH. by apply wf_update.
Qed.

Lemma agree_but_foldl_update (k : string) (cs : list (PyDict.t string))
    (d d' : PyDict.t string) :
  agree_but k d d' →
  agree_but k (foldl PyDict.update d cs) (foldl PyDict.update d' cs).
Proof.
  revert d d'. induction cs as [|c cs IH]; intros d d' Hd; [done|].
  simpl. apply IH. by apply agree_but_update.
Qed.

Lemma collect_shadowed (title a a' b : string)
    (before between after : list (PyDict.t string)) :
  Identity.collect
    (before ++ Identity.Experiment_inp_metadata title a :: between
     ++ Identity.Experiment_inp_metadata title b :: after)
  = Identity.collect
      (before ++ Identity.Experiment_inp_metadata title a' :: between
       ++ Identity.Experiment_inp_metadata title b :: after).
Proof.
  unfold Identity.collect, Identity.Experiment_inp_metadata.
  rewrite !foldl_app. simpl. rewrite !foldl_app. simpl.
  set (d := foldl PyDict.update [] before).
  assert (PyDict.wf d) as Hd by (apply wf_foldl_update, NoDup_nil_2).
  f_equal.
  change (PyDict.update ?x [(title, b)]) with (PyDict.set title b x).
  change (PyDict.update d [(title, a)]) with (PyDict.set title a d).
  change (PyDict.update d [(title, a')]) with (PyDict.set title a' d).
  apply agree_but_set_eq.
  - apply agree_but_foldl_update.
    clear Hd. induction d as [|[k v] d IH]; simpl.
    + apply Forall2_cons. split; [by split|]. apply Forall2_nil_2.
    + destruct (decide (title = k)) as [->|Hne].
      * apply Forall2_cons. split; [by split|]. apply agree_but_refl.
      * apply Forall2_cons. split; [by split|]. exact IH.
  - apply wf_foldl_update, wf_set, Hd.
Qed.
End shadowed_input.

(** X23.  Two inputs of one experiment class shadow each other.  Both
    contribute their instance under the class title, so the instance of the
    earlier one has no part in the identity: replacing it by any other
    instance gives the same merged metadata and the same identifier,
    whatever the other inputs contribute. *)
Theorem same_title_input_shadowed (hexdigest : string → string)
    (title : string) (version : Z) (input_title a a' b : string)
    (before between after : list (PyDict.t string)) :
  Identity.compute_identifier hexdigest title version
    (Identity.collect
       (before ++ Identity.Experiment_inp_metadata input_title a :: between
        ++ Identity.Experiment_inp_metadata input_title b :: after))
  = Identity.compute_identifier hexdigest title version
      (Identity.collect
         (before ++ Identity.Experiment_inp_metadata input_title a' :: between
          ++ Identity.Experiment_inp_metadata input_title b :: after)).
Proof. by rewrite (collect_shadowed input_title a a' b). Qed.

(** ** What the exit status of the merger means *)

Section merger_exit.
Import Merger.

(** A computation that never stops with [sys.exit]. *)
Let never_exits {S A} (m : io S A) : Prop :=
  ∀ s code, (m s).1 ≠ inl (SystemExit code).

Lemma never_exits_bind {S A B} (m : io S A) (f : A → io S B) :
  never_exits m → (∀ a, never_exits (f a)) → never_exits (m ≫= f).
Proof.
  intros Hm Hf s code. unfold mbind, io_bind.
  specialize (Hm s code). destruct (m s) as [[e|a] s1]; simpl in *.
  - congruence.
  - apply Hf.
Qed.

Lemma never_exits_for_each {S A} (xs : list A) (body : A → io S unit) :
  (∀ x, never_exits (body x)) → never_exits (for_each xs body).
Proof.
  intros Hbody. induction xs as [|x xs IH]; simpl.
  - by intros s code.
  - apply never_exits_bind; [apply Hbody|]. by intros [].
Qed.

Lemma never_exits_execute {A} (stmt : io Sqlite.connection A) :
  never_exits stmt → never_exits (execute stmt).
Proof.
  intros Hstmt m code. unfold execute. specialize (Hstmt (target m) code).
  by destruct (stmt (target m)).
Qed.

Lemma never_exits_swallow {S} (m : io S unit) :
  never_exits (try_except m (λ _, mret tt)).
Proof. intros s code. unfold try_except. by destruct (m s) as [[e|[]] s1]. Qed.

Lemma never_exits_create_table (sql name : string)
    (columns : list Sqlite.column) :
  never_exits (Sqlite.create_table sql name columns).
Proof.
  intros c code. unfold Sqlite.create_table.
  destruct (Sqlite.find_table _ _); [done|].
  destruct (decide _); [done|]. by destruct (decide _).
Qed.

Lemma never_exits_insert (name : string) (columns : list string)
    (args : list Sqlite.value) :
  never_exits (Sqlite.insert name columns args).
Proof.
  intros c code. unfold Sqlite.insert.
  destruct (Sqlite.lookup_table _ _) as [[[sc db] t]|]; [|done].
  destruct (decide _); [done|]. destruct (decide _); [|done].
  by destruct (Sqlite.violates_primary _ _ _).
Qed.

Lemma never_exits_select_all (alias name : string) :
  never_exits (Sqlite.select_all alias name).
Proof.
  intros c code. unfold Sqlite.select_all.
  by destruct (Sqlite.schema_db _ _ ≫= _).
Qed.

Lemma never_exits_log (msg : string) : never_exits (log msg).
Proof. by intros s code. Qed.

Lemma never_exits_scan (name : string) (databases : list string) :
  ∀ rows headers, never_exits (scan name databases rows headers).
Proof.
  induction databases as [|db databases IH]; intros rows headers.
  - by intros s code.
  - cbn [scan]. apply never_exits_bind.
    + apply never_exits_execute, never_exits_select_all.
    + intros r. apply IH.
Qed.

Lemma never_exits_copy_tables (tabs : PyDict.t entry) :
  ∀ TableDictrows, never_exits (copy_tables tabs TableDictrows).
Proof.
  induction tabs as [|[name table] tabs IH]; intros TableDictrows.
  - by intros s code.
  - cbn [copy_tables]. apply never_exits_bind; [apply never_exits_scan|].
    intros [rows [headers|]]; [|by intros s code].
    cbn [fst snd]. apply never_exits_bind.
    { apply never_exits_execute, never_exits_for_each.
      intros r. apply never_exits_insert. }
    intros []. apply never_exits_bind; [apply never_exits_log|].
    intros []. apply IH.
Qed.

Lemma never_exits_create_tables : never_exits create_tables.
Proof.
  unfold create_tables, create_tables_in. apply never_exits_bind; [by intros s code|].
  intros m. apply never_exits_for_each. intros nt.
  apply never_exits_bind; [apply never_exits_swallow|]. intros [].
  apply never_exits_bind;
    [apply never_exits_execute, never_exits_create_table|].
  intros []. apply never_exits_log.
Qed.

Lemma never_exits_collect_data : never_exits collect_data.
Proof.
  unfold collect_data. apply never_exits_bind; [by intros s code|].
  intros m. apply never_exits_bind; [apply never_exits_copy_tables|].
  intros TableDictrows. apply never_exits_bind.
  { apply never_exits_execute. intros c code.
    unfold Sqlite.create_table_if_not_exists.
    destruct (Sqlite.find_table _ _); [done|].
    apply never_exits_create_table. }
  intros []. apply never_exits_bind.
  { apply never_exits_execute, never_exits_for_each.
    intros r. apply never_exits_insert. }
  intros []. apply never_exits_log.
Qed.

Lemma never_exits_attach_sources (fs : gmap string Sqlite.database)
    (sources : list string) :
  ∀ n, never_exits (attach_sources fs n sources).
Proof.
  induction sources as [|s sources IH]; intros n; simpl.
  - by intros m code.
  - destruct (fs !! s) as [db|]; [|by intros m code].
    apply never_exits_bind.
    { apply never_exits_execute. intros c code. unfold Sqlite.attach.
      destruct (decide _); [done|]. destruct (decide _); [done|].
      by destruct (decide _). }
    intros []. apply never_exits_bind; [apply never_exits_log|].
    intros []. apply never_exits_bind; [by intros m code|].
    intros []. apply IH.
Qed.

Lemma merge_exit_spec (fs : gmap string Sqlite.database)
    (target_path : string) (sources : list string) (code : Z) (m : t) :
  Forall (λ s, is_Some (fs !! s)) sources →
  merge fs target_path sources = (inl (SystemExit code), m) →
  code = (-1)%Z ∧
  Sqlite.main (target m) = default [] (fs !! target_path) ∧
  ∃ reported,
    schema_conflict reported (target m) ∧
    last (output m) = Some (conflict_message reported).
Proof.
  intros _. unfold merge, mbind, io_bind.
  pose proof (never_exits_attach_sources fs sources 0
                (connect_target fs target_path) code) as Hattach.
  destruct (attach_sources fs 0 sources (connect_target fs target_path))
    as [[e|[]] m0] eqn:Hrun0.
  { intros [= -> _]. done. }
  destruct (attach_sources_returns fs sources 0 _ m0 Hrun0)
    as (Hmain & Hkeys & Hal); [done..|].
  simpl in Hmain.
  assert (attached_sources m0) as Hsrc.
  { split; [by rewrite Hkeys|]. rewrite Hal. apply (NoDup_fmap _), NoDup_seq. }
  unfold collect_and_create_tables, collect_and_create_tables_in.
  unfold mbind, io_bind.
  destruct (collect_tables_spec m0 Hsrc)
    as [(m1 & -> & _)|(m1 & n & -> & Htarget & Hout & Hconf)].
  - pose proof (never_exits_create_tables m1 code) as Hcreate.
    change (create_tables_in [] m1) with (create_tables m1).
    destruct (create_tables m1) as [[e|[]] m2]; simpl in Hcreate.
    { intros [= -> _]. done. }
    pose proof (never_exits_collect_data m2 code) as Hdata.
    destruct (collect_data m2) as [[e|[]] m3]; simpl in Hdata; [|done].
    intros [= -> _]. done.
  - intros [= <- <-]. split; [done|]. rewrite Htarget, Hout, last_snoc.
    split; [done|]. by exists n.
Qed.
End merger_exit.

(** X24.  The exit of the merger is never a false alarm.  When all sources
    exist and the merge stops with [sys.exit], the status is -1, two of the
    sources do declare the reported table with different creation
    statements, the report is the last line printed, and the tables of the
    target are as they were: the later phases, which drop, create and copy,
    never exit. *)
Theorem exit_means_schema_conflict (fs : gmap string Sqlite.database)
    (target_path : string) (sources : list string) (code : Z)
    (m : Merger.t) :
  Forall (λ s, is_Some (fs !! s)) sources →
  Merger.merge fs target_path sources = (inl (SystemExit code), m) →
  code = (-1)%Z ∧
  Sqlite.main (Merger.target m) = default [] (fs !! target_path) ∧
  ∃ reported,
    Merger.schema_conflict reported (Merger.target m) ∧
    last (Merger.output m) = Some (Merger.conflict_message reported).
Proof. apply merge_exit_spec. Qed.

Lemma exit_means_schema_conflict_witness :
  let m := (Merger.merge Scenario.fresh_fs "t.db" ["a.db"; "c.db"]).2 in
  (-1)%Z = (-1)%Z ∧
  Sqlite.main (Merger.target m) = default [] (Scenario.fresh_fs !! "t.db") ∧
  ∃ reported,
    Merger.schema_conflict reported (Merger.target m) ∧
    last (Merger.output m) = Some (Merger.conflict_message reported).
Proof.
  intros m.
  apply (exit_means_schema_conflict Scenario.fresh_fs "t.db"
           ["a.db"; "c.db"] (-1) m).
  - apply (bool_decide_unpack _). vm_compute. reflexivity.
  - vm_compute. reflexivity.
Defined.

(** ** Reading a table that several experiments share *)

Section shared_table.
Import Sqlite.

(** The row of a key/value table for an experiment column, a key and a
    value. *)
Let row3 (t : value * value * value) : row := [t.1.1; t.1.2; t.2].

Lemma pairs_of_rows (X : string) (R : list (value * value * value)) :
  TableDict.pairs 0 1
    (delete 0 <$> filter (in_experiment 0 (Text X)) (row3 <$> R))
  = inr ((λ t, (t.1.2, t.2)) <$> filter (λ t, t.1.1 = Text X) R).
Proof.
  induction R as [|[[e k] v] R IH]; [done|].
  rewrite fmap_cons, !filter_cons.
  destruct (decide (in_experiment 0 (Text X) (row3 (e, k, v))))
    as [[_ He]|Hne].
  - unfold row3 in He. simpl in He. injection He as ->.
    rewrite decide_True by done.
    rewrite !fmap_cons. cbn [TableDict.pairs]. simpl. by rewrite IH.
  - rewrite decide_False; [done|]. simpl. intros ->. apply Hne. by split.
Qed.

Lemma dict_update_lookup (L : list (value * value)) :
  ∀ (d : gmap value value) k v,
    TableDict.dict_update d L !! k = Some v → (k, v) ∈ L ∨ d !! k = Some v.
Proof.
  unfold TableDict.dict_update.
  induction L as [|[k0 v0] L IH]; intros d k v; simpl; [by right|].
  intros [Hin|Hd]%IH; [left; by right|].
  destruct (decide (k0 = k)) as [->|Hne].
  - rewrite lookup_insert_eq in Hd. simplify_eq. left. by left.
  - rewrite lookup_insert_ne in Hd by done. by right.
Qed.

Lemma dict_update_is_Some (L : list (value * value)) :
  ∀ (d : gmap value value) k,
    k ∈ L.*1 ∨ is_Some (d !! k) → is_Some (TableDict.dict_update d L !! k).
Proof.
  unfold TableDict.dict_update.
  induction L as [|[k0 v0] L IH]; intros d k; simpl.
  - intros [Hin|?]; [|done]. by apply elem_of_nil in Hin.
  - intros Hk. apply IH.
    destruct (decide (k0 = k)) as [->|Hne].
    + right. rewrite lookup_insert_eq. by eexists.
    + rewrite lookup_insert_ne by done.
      destruct Hk as [[?|?]%elem_of_cons|?]; [done|by left|by right].
Qed.

Lemma shared_table_input (name title X other md sql : string)
    (R : list (value * value * value)) (pre : database)
    (att : list (string * database)) :
  let self := TableDict.init name title X other md in
  let tn := Table.table_name (TableDict.table self) in
  let c := Connection
             (pre ++ [Table tn sql TableDict.columns (row3 <$> R)]) att in
  find_table tn pre = None →
  ∃ inp,
    TableDict.before_experiment_run self Table.Input c = (inr inp, c) ∧
    (∀ k v, TableDict.content inp !! k = Some v → (Text X, k, v) ∈ R) ∧
    (∀ k v, (Text X, k, v) ∈ R → is_Some (TableDict.content inp !! k)).
Proof.
  intros self tn c Hpre.
  unfold TableDict.before_experiment_run.
  unfold mbind at 1, io_bind at 1.
  set (tbl := Table.Make name true (Some TableDict.key_name)
                [("experiment", "text"); (TableDict.key_name, "text");
                 (TableDict.value_name, "text")]
                (Some Table.Input) title X other md).
  assert (Table.before_experiment_run (TableDict.table self) Table.Input c
          = (inr tbl, c)) as -> by done.
  unfold mbind at 1, io_bind at 1.
  rewrite (value_spec tbl c Main
             (pre ++ [Table tn sql TableDict.columns (row3 <$> R)])
             (Table tn sql TableDict.columns (row3 <$> R)) 0);
    [|by apply lookup_table_app_new|done].
  cbn [tbl_columns tbl_rows Table.static_identifier tbl].
  unfold mbind, io_bind, lift_result. cbn [fst snd].
  replace (Table.list_index TableDict.key_name
             (delete 0 (col_name <$> TableDict.columns)))
    with (inr 0 : result nat) by (vm_compute; reflexivity).
  replace (Table.list_index TableDict.value_name
             (delete 0 (col_name <$> TableDict.columns)))
    with (inr 1 : result nat) by (vm_compute; reflexivity).
  rewrite pairs_of_rows.
  eexists. split; [reflexivity|]. cbn [TableDict.content]. split.
  - intros k v [Hin|Hempty]%dict_update_lookup; [|done].
    apply list_elem_of_fmap in Hin as ([[e k'] v'] & [= -> ->] & Hin).
    apply list_elem_of_filter in Hin as [He Hin]. simpl in He. by subst e.
  - intros k v Hin. apply dict_update_is_Some. left.
    apply list_elem_of_fmap. exists (k, v). split; [done|].
    apply list_elem_of_fmap. exists (Text X, k, v). split; [done|].
    by apply list_elem_of_filter.
Qed.
End shared_table.

(** X25.  An input dict sees the rows of its own experiment only.  When a
    key/value table holds rows of several experiments (a merged database),
    the input set-up for the instance [X] succeeds, leaves the store as it
    is, and fills the dict from the rows whose experiment column is [X]:
    every item of the dict is such a row, and every key of such a row is in
    the dict. *)
Theorem input_reads_own_rows (name title X other md sql : string)
    (R : list (Sqlite.value * Sqlite.value * Sqlite.value))
    (pre : Sqlite.database) (att : list (string * Sqlite.database)) :
  let self := TableDict.init name title X other md in
  let tn := Table.table_name (TableDict.table self) in
  let c := Sqlite.Connection
             (pre ++ [Sqlite.Table tn sql TableDict.columns
                        ((λ t, [t.1.1; t.1.2; t.2]) <$> R)]) att in
  Sqlite.find_table tn pre = None →
  ∃ inp,
    TableDict.before_experiment_run self Table.Input c = (inr inp, c) ∧
    (∀ k v, TableDict.content inp !! k = Some v →
            (Sqlite.Text X, k, v) ∈ R) ∧
    (∀ k v, (Sqlite.Text X, k, v) ∈ R →
            is_Some (TableDict.content inp !! k)).
Proof. apply shared_table_input. Qed.

Lemma input_reads_own_rows_witness :
  let R := [(Sqlite.Text "Exp-0", Sqlite.Text "a", Sqlite.Text "1");
            (Sqlite.Text "Exp-1", Sqlite.Text "b", Sqlite.Text "2")] in
  let self := TableDict.init "in" "Exp" "Exp-1" "Use-0" "{}" in
  let tn := Table.table_name (TableDict.table self) in
  let c := Sqlite.Connection
             ([] ++ [Sqlite.Table tn "CREATE TABLE Exp__in (...)"
                       TableDict.columns
                       ((λ t, [t.1.1; t.1.2; t.2]) <$> R)]) [] in
  ∃ inp,
    TableDict.before_experiment_run self Table.Input c = (inr inp, c) ∧
    (∀ k v, TableDict.content inp !! k = Some v →
            (Sqlite.Text "Exp-1", k, v) ∈ R) ∧
    (∀ k v, (Sqlite.Text "Exp-1", k, v) ∈ R →
            is_Some (TableDict.content inp !! k)).
Proof.
  intros R self tn c.
  apply (input_reads_own_rows "in" "Exp" "Exp-1" "Use-0" "{}"
           "CREATE TABLE Exp__in (...)" R [] []).
  reflexivity.
Defined.
